(** * Decoding engine of ParlAI: tree search, beam policies and lexically
      constrained beam search

    Shallow embedding of [parlai/core/torch_generator_agent.py] (classes
    [TreeSearch], [GreedySearch], [BeamSearch], [ConstrainedBeamSearch] and the
    factory [_treesearch_factory]) and of [parlai/core/search.py]
    ([LexicallyConstrainedBeamSearch]).

    Tensors are lists (a matrix is a list of rows).  A floating-point score is
    an integer number of fixed-point units extended with minus infinity: the
    properties below only use the order and the addition of scores.  The
    length penalty of [get_rescored_finished] is computed over the real
    numbers.  A Python exception is a value [Err e] of the type [result]. *)

From Stdlib Require Import String.
From Stdlib Require Import QArith Reals Lra.
From Stdlib Require Import List ZArith Lia Bool Arith PeanoNat.
From Stdlib Require Import Permutation Sorted.
Import ListNotations.

#[local] Open Scope nat_scope.
#[local] Open Scope list_scope.

Set Implicit Arguments.

(* ------------------------------------------------------------------ *)
(** * Exceptions *)

Inductive error : Type :=
| IndexError
| AssertionError
| ValueError
| RuntimeError.

Inductive result (A : Type) : Type :=
| Ok (a : A)
| Err (e : error).

Arguments Ok {A} a.
Arguments Err {A} e.

Definition bind {A B : Type} (m : result A) (k : A -> result B) : result B :=
  match m with
  | Ok a => k a
  | Err e => Err e
  end.

Notation "x <- m ;; k" := (bind m (fun x => k))
  (at level 61, m at next level, right associativity).
Notation "' p <- m ;; k" := (bind m (fun x => let p := x in k))
  (at level 61, p pattern, m at next level, right associativity).

Definition assert (b : bool) : result unit :=
  if b then Ok tt else Err AssertionError.

Definition is_ok {A : Type} (m : result A) : bool :=
  match m with Ok _ => true | Err _ => false end.

(** [for x in l: acc = f acc x], stopping at the first exception. *)
Fixpoint foldM {A B : Type} (f : B -> A -> result B) (l : list A) (acc : B)
  : result B :=
  match l with
  | [] => Ok acc
  | x :: l' => acc' <- f acc x ;; foldM f l' acc'
  end.

Fixpoint mapM {A B : Type} (f : A -> result B) (l : list A) : result (list B) :=
  match l with
  | [] => Ok []
  | x :: l' => y <- f x ;; ys <- mapM f l' ;; Ok (y :: ys)
  end.

(* ------------------------------------------------------------------ *)
(** * Scores *)

(** A log-probability or a cumulative score: a finite value or minus
    infinity ([-math.inf], also what [neginf(dtype)] stands for). *)
Inductive lprob : Type :=
| NegInf
| Fin (z : Z).

(** Modelled from the spec: [neginf] of [parlai/utils/torch.py], which is not
    among the sources; the spec calls the value it writes minus infinity. *)
Definition neginf : lprob := NegInf.

Definition sadd (a b : lprob) : lprob :=
  match a, b with
  | Fin x, Fin y => Fin (x + y)
  | _, _ => NegInf
  end.

Definition sleb (a b : lprob) : bool :=
  match a, b with
  | NegInf, _ => true
  | Fin _, NegInf => false
  | Fin x, Fin y => (x <=? y)%Z
  end.

Definition sle (a b : lprob) : Prop := sleb a b = true.

Definition lprob_eqb (a b : lprob) : bool :=
  match a, b with
  | NegInf, NegInf => true
  | Fin x, Fin y => (x =? y)%Z
  | _, _ => false
  end.

Definition is_neginf (a : lprob) : bool := lprob_eqb a NegInf.

Definition token := nat.
Definition matrix := list (list lprob).

(* ------------------------------------------------------------------ *)
(** * Indexing *)

(** [l[i]] for [0 <= i]: [IndexError] out of range. *)
Definition get {A : Type} (l : list A) (i : nat) : result A :=
  match nth_error l i with
  | Some x => Ok x
  | None => Err IndexError
  end.

(** [l[-1]] *)
Definition get_last {A : Type} (l : list A) : result A :=
  match rev l with
  | x :: _ => Ok x
  | [] => Err IndexError
  end.

(** [l[i] = x] *)
Fixpoint set_at {A : Type} (l : list A) (i : nat) (x : A) : result (list A) :=
  match l, i with
  | [], _ => Err IndexError
  | _ :: l', O => Ok (x :: l')
  | y :: l', S i' => r <- set_at l' i' x ;; Ok (y :: r)
  end.

(** [m[r][c]] *)
Definition get2 {A : Type} (m : list (list A)) (r c : nat) : result A :=
  row <- get m r ;; get row c.

(** [m[r][c] = x] *)
Definition set2 {A : Type} (m : list (list A)) (r c : nat) (x : A)
  : result (list (list A)) :=
  row <- get m r ;; row' <- set_at row c x ;; set_at m r row'.

(** [l[-n:]] for [0 < n] (the whole list when it is shorter than [n]). *)
Definition suffix {A : Type} (n : nat) (l : list A) : list A :=
  skipn (length l - n) l.

(** [l[:n]] for an integer [n]: a negative [n] counts from the end. *)
Definition slice_to {A : Type} (n : Z) (l : list A) : list A :=
  if (0 <=? n)%Z then firstn (Z.to_nat n) l
  else firstn (Z.to_nat (Z.of_nat (length l) + n)) l.

Fixpoint list_eqb {A : Type} (eqb : A -> A -> bool) (l1 l2 : list A) : bool :=
  match l1, l2 with
  | [], [] => true
  | x :: l1', y :: l2' => eqb x y && list_eqb eqb l1' l2'
  | _, _ => false
  end.

(* ------------------------------------------------------------------ *)
(** * Sorting and top-k

    [sorted(..., reverse=True)] of Python is stable; [Tensor.sort] and
    [torch.topk] are modelled the same way: among equal keys the earlier
    element comes first. *)

Section Sort.
Variables (A K : Type).
Variable leb : K -> K -> bool.
Variable key : A -> K.

(** [x] was before every element of [l]: it stays in front of the elements
    whose key is not greater. *)
Fixpoint insert_desc (x : A) (l : list A) : list A :=
  match l with
  | [] => [x]
  | y :: l' =>
      if leb (key y) (key x) then x :: l
      else y :: insert_desc x l'
  end.

Fixpoint sort_desc (l : list A) : list A :=
  match l with
  | [] => []
  | x :: l' => insert_desc x (sort_desc l')
  end.

Fixpoint insert_asc (x : A) (l : list A) : list A :=
  match l with
  | [] => [x]
  | y :: l' =>
      if leb (key x) (key y) then x :: l
      else y :: insert_asc x l'
  end.

Fixpoint sort_asc (l : list A) : list A :=
  match l with
  | [] => []
  | x :: l' => insert_asc x (sort_asc l')
  end.
End Sort.

(** The elements of [l] with their positions. *)
Definition indexed {A : Type} (l : list A) : list (nat * A) :=
  combine (seq 0 (length l)) l.

(** [torch.topk(l, k)]: the [k] largest values with their positions, largest
    first; a [RuntimeError] when [k] is out of range. *)
Definition topk (k : nat) (l : list lprob) : result (list (nat * lprob)) :=
  if k <=? length l
  then Ok (firstn k (sort_desc sleb snd (indexed l)))
  else Err RuntimeError.

(** [t.max(dim)] of one row: the largest value and its first position. *)
Definition row_max (row : list lprob) : result (nat * lprob) :=
  match sort_desc sleb snd (indexed row) with
  | p :: _ => Ok p
  | [] => Err RuntimeError
  end.

(** [a + b] on vectors with broadcasting of a vector of one element. *)
Definition broadcast_add (a b : list lprob) : result (list lprob) :=
  match a, b with
  | [x], _ => Ok (map (sadd x) b)
  | _, [y] => Ok (map (fun x => sadd x y) a)
  | _, _ =>
      if length a =? length b
      then Ok (map (fun p => sadd (fst p) (snd p)) (combine a b))
      else Err RuntimeError
  end.

(** [l[k:]] for an integer [k]: a negative [k] counts from the end. *)
Definition slice_from {A : Type} (k : Z) (l : list A) : list A :=
  if (0 <=? k)%Z then skipn (Z.to_nat k) l
  else skipn (Z.to_nat (Z.of_nat (length l) + k)) l.

(** [enumerate(l)] *)
Definition enumerate {A : Type} (l : list A) : list (nat * A) := indexed l.

(* ------------------------------------------------------------------ *)
(** * Adjusted scores

    [score / math.pow((1 + current_length) / 6, length_penalty)] over the
    real numbers; minus infinity stays minus infinity. *)

Inductive rscore : Type :=
| RNegInf
| RFin (r : R).

Definition rleb (a b : rscore) : bool :=
  match a, b with
  | RNegInf, _ => true
  | RFin _, RNegInf => false
  | RFin x, RFin y => if Rle_dec x y then true else false
  end.

Definition length_penalty_of (current_length : nat) (length_penalty : Q) : R :=
  Rpower ((1 + INR current_length) / 6) (Q2R length_penalty).

Definition rescore (s : lprob) (current_length : nat) (length_penalty : Q)
  : rscore :=
  match s with
  | NegInf => RNegInf
  | Fin z => RFin (IZR z / length_penalty_of current_length length_penalty)
  end.

(* ------------------------------------------------------------------ *)
(** * [TreeSearch] *)

Module TreeSearch.

(** [_HypothesisTail] *)
Record HypothesisTail (S : Type) : Type := mkTail {
  timestep : nat;
  hypid : nat;
  score : S;
  tokenid : token
}.

Record state : Type := mkState {
  beam_size : nat;
  length_penalty : Q;
  block_ngram : Z;
  min_length : Z;
  eos : token;
  bos : token;
  pad : token;
  context : option (list token);
  context_block_ngram : Z;
  block_list : option (list (Z * list (list token)));
  scores : option (list lprob);
  all_scores : list (list lprob);
  bookkeep : list (list nat);
  outputs : list (list token);
  finished : list (HypothesisTail lprob);
  eos_top : bool;
  eos_top_ts : option nat;
  n_best_counter : nat;
  partial_hyps : list (list token)
}.

(** [TreeSearch.__init__] *)
Definition init (beam_size : nat) (block_ngram context_block_ngram : Z)
    (padding_token bos_token eos_token : token) (min_length : Z)
    (length_penalty : Q) : state :=
  {| beam_size := beam_size;
     length_penalty := length_penalty;
     block_ngram := block_ngram;
     min_length := min_length;
     eos := eos_token;
     bos := bos_token;
     pad := padding_token;
     context := None;
     context_block_ngram := context_block_ngram;
     block_list := None;
     scores := None;
     all_scores := [repeat (Fin 0) beam_size];
     bookkeep := [];
     outputs := [repeat bos_token beam_size];
     finished := [];
     eos_top := false;
     eos_top_ts := None;
     n_best_counter := 0;
     partial_hyps := repeat [bos_token] beam_size |}.

Definition set_context (self : state) (ctx : list token) : state :=
  {| beam_size := beam_size self; length_penalty := length_penalty self;
     block_ngram := block_ngram self; min_length := min_length self;
     eos := eos self; bos := bos self; pad := pad self;
     context := Some ctx;
     context_block_ngram := context_block_ngram self;
     block_list := block_list self; scores := scores self;
     all_scores := all_scores self; bookkeep := bookkeep self;
     outputs := outputs self; finished := finished self;
     eos_top := eos_top self; eos_top_ts := eos_top_ts self;
     n_best_counter := n_best_counter self;
     partial_hyps := partial_hyps self |}.

Definition set_block_list (self : state)
    (bl : option (list (Z * list (list token)))) : state :=
  {| beam_size := beam_size self; length_penalty := length_penalty self;
     block_ngram := block_ngram self; min_length := min_length self;
     eos := eos self; bos := bos self; pad := pad self;
     context := context self;
     context_block_ngram := context_block_ngram self;
     block_list := bl; scores := scores self;
     all_scores := all_scores self; bookkeep := bookkeep self;
     outputs := outputs self; finished := finished self;
     eos_top := eos_top self; eos_top_ts := eos_top_ts self;
     n_best_counter := n_best_counter self;
     partial_hyps := partial_hyps self |}.

(** [_find_ngrams]: the zip of the [n] shifted copies [input_list[i:]],
    [0 <= i < n], of the list. *)
Fixpoint find_ngrams_nat (input_list : list token) (n : nat)
  : list (list token) :=
  match input_list with
  | [] => []
  | _ :: rest =>
      if n <=? length input_list
      then firstn n input_list :: find_ngrams_nat rest n
      else []
  end.

Definition _find_ngrams (input_list : list token) (n : Z)
  : list (list token) :=
  if (n <=? 0)%Z then [] else find_ngrams_nat input_list (Z.to_nat n).

(** The body shared by [_block_ngrams] and [_block_block_list]:
    [if ngram_size == 1 or prefix == list(ngram[:-1]):
       logprobs[beam_id][ngram[-1]] = neginf] *)
Definition block_one (ngram_size : Z) (beam_id : nat) (prefix : list token)
    (logprobs : matrix) (ngram : list token) : result matrix :=
  if (ngram_size =? 1)%Z || list_eqb Nat.eqb prefix (removelast ngram)
  then last <- get_last ngram ;; set2 logprobs beam_id last neginf
  else Ok logprobs.

Definition _block_ngrams (self : state) (ngram_size : Z) (logprobs : matrix)
    (source : option (list token)) : result matrix :=
  foldM (fun lp (bh : nat * list token) =>
           let (beam_id, hyp) := bh in
           if (Z.of_nat (length hyp) <? ngram_size - 1)%Z then Ok lp
           else
             let source_ := match source with
                            | None => hyp
                            | Some s => s
                            end in
             let ngrams := _find_ngrams source_ ngram_size in
             let prefix := slice_from (- (ngram_size - 1)) hyp in
             foldM (block_one ngram_size beam_id prefix) ngrams lp)
        (enumerate (partial_hyps self)) logprobs.

Definition _block_block_list (self : state) (logprobs : matrix)
  : result matrix :=
  match block_list self with
  | None => Ok logprobs
  | Some items =>
      foldM (fun lp (bh : nat * list token) =>
               let (beam_id, hyp) := bh in
               foldM (fun lp (it : Z * list (list token)) =>
                        let (ngram_size, bad_ngrams) := it in
                        let prefix := slice_from (- (ngram_size - 1)) hyp in
                        foldM (block_one ngram_size beam_id prefix)
                              bad_ngrams lp)
                     items lp)
            (enumerate (partial_hyps self)) logprobs
  end.

(** The minimum-length guard of [advance]. *)
Definition min_length_guard (self : state) (logprobs : matrix)
  : result matrix :=
  let current_length := (Z.of_nat (length (all_scores self)) - 1)%Z in
  if (current_length <? min_length self)%Z
  then foldM (fun lp hyp_id => set2 lp hyp_id (eos self) neginf)
             (seq 0 (length logprobs)) logprobs
  else Ok logprobs.

(** The penalty of [advance] on the running scores of the slots whose last
    token is the end token. *)
Definition penalize_eos (self : state) (scores0 : list lprob)
  : result (list lprob) :=
  last <- get_last (outputs self) ;;
  foldM (fun sc (ht : nat * token) =>
           let (hyp_id, tok) := ht in
           if Nat.eqb tok (eos self) then set_at sc hyp_id neginf
           else Ok sc)
        (enumerate last) scores0.

(** The three maskings of [advance], in its order. *)
Definition block_all (self : state) (logprobs : matrix) : result matrix :=
  lp1 <- (if (0 <? block_ngram self)%Z
          then _block_ngrams self (block_ngram self) logprobs None
          else Ok logprobs) ;;
  lp2 <- _block_block_list self lp1 ;;
  if (0 <? context_block_ngram self)%Z
  then match context self with
       | None => Err ValueError
       | Some ctx =>
           _block_ngrams self (context_block_ngram self) lp2 (Some ctx)
       end
  else Ok lp2.

Definition selection : Type := (list nat * list token * list lprob)%type.

(** The bookkeeping of [advance] after [select_paths] returned. *)
Definition record_step (self : state) (sel : selection) : result state :=
  let '(hyp_ids, tok_ids, new_scores) := sel in
  let all_scores' := all_scores self ++ [new_scores] in
  let outputs' := outputs self ++ [tok_ids] in
  let bookkeep' := bookkeep self ++ [hyp_ids] in
  partial' <- mapM (fun i =>
                      h <- get hyp_ids i ;;
                      ph <- get (partial_hyps self) h ;;
                      t <- get tok_ids i ;;
                      Ok (ph ++ [t]))
                   (seq 0 (beam_size self)) ;;
  fin <- foldM (fun (acc : list (HypothesisTail lprob) * nat) hypid =>
                  t <- get tok_ids hypid ;;
                  if Nat.eqb t (eos self) then
                    s <- get new_scores hypid ;;
                    if sleb s neginf then Ok acc
                    else
                      Ok (fst acc ++
                            [mkTail (length outputs' - 1) hypid s (eos self)],
                          S (snd acc))
                  else Ok acc)
               (seq 0 (beam_size self))
               (finished self, n_best_counter self) ;;
  t0 <- get tok_ids 0 ;;
  let top := Nat.eqb t0 (eos self) in
  Ok {| beam_size := beam_size self; length_penalty := length_penalty self;
        block_ngram := block_ngram self; min_length := min_length self;
        eos := eos self; bos := bos self; pad := pad self;
        context := context self;
        context_block_ngram := context_block_ngram self;
        block_list := block_list self;
        scores := Some new_scores;
        all_scores := all_scores';
        bookkeep := bookkeep';
        outputs := outputs';
        finished := fst fin;
        eos_top := if top then true else eos_top self;
        eos_top_ts := if top
                      then match eos_top_ts self with
                           | None => Some (length outputs' - 1)
                           | Some ts => Some ts
                           end
                      else eos_top_ts self;
        n_best_counter := snd fin;
        partial_hyps := partial' |}.

(** [advance]: the new state, and the content of the caller's [logprobs]
    tensor when the call returns (every masking above is an item assignment
    on that very tensor). *)
Definition current_length (self : state) : Z :=
  (Z.of_nat (length (all_scores self)) - 1)%Z.

(** [advance] up to its call of [select_paths]: the masked tensor and the
    penalised running scores. *)
Definition prepare (self : state) (logprobs : matrix)
  : result (matrix * list lprob) :=
  lp0 <- min_length_guard self logprobs ;;
  let scores0 := match scores self with
                 | None => [Fin 0]
                 | Some s => s
                 end in
  scores1 <- penalize_eos self scores0 ;;
  lp1 <- block_all self lp0 ;;
  Ok (lp1, scores1).

Definition advance
    (select_paths : state -> matrix -> list lprob -> Z -> result selection)
    (self : state) (logprobs : matrix) : result (state * matrix) :=
  '(lp1, scores1) <- prepare self logprobs ;;
  sel <- select_paths self lp1 scores1 (current_length self) ;;
  self' <- record_step self sel ;;
  Ok (self', lp1).

(** A run of [advance] calls, one per tensor of [inputs]. *)
Definition advance_all
    (select_paths : state -> matrix -> list lprob -> Z -> result selection)
    (self : state) (inputs : list matrix) : result state :=
  foldM (fun st lp => r <- advance select_paths st lp ;; Ok (fst r))
        inputs self.

Definition is_done (self : state) : bool :=
  eos_top self && (beam_size self <=? n_best_counter self).

(** [_get_hyp_from_finished]: the tails from [timestep] down to 0. *)
Fixpoint walk_back (self : state) (i endback : nat)
  : result (list (HypothesisTail lprob)) :=
  s <- get2 (all_scores self) i endback ;;
  t <- get2 (outputs self) i endback ;;
  match i with
  | O =>
      (* [self.bookkeep[i - 1]] is [self.bookkeep[-1]] here *)
      bk <- get_last (bookkeep self) ;;
      _ <- get bk endback ;;
      Ok [mkTail 0 endback s t]
  | S i' =>
      bk <- get (bookkeep self) i' ;;
      endback' <- get bk endback ;;
      rest <- walk_back self i' endback' ;;
      Ok (mkTail i endback s t :: rest)
  end.

Definition _get_hyp_from_finished {S : Type} (self : state)
    (hypothesis_tail : HypothesisTail S)
  : result (list (HypothesisTail lprob)) :=
  walk_back self (timestep hypothesis_tail) (hypid hypothesis_tail).

Definition _get_pretty_hypothesis (list_of_hypotails : list (HypothesisTail lprob))
  : list token :=
  map (@tokenid lprob) (rev list_of_hypotails).

(** "if we never actually finished, force one" *)
Definition force_finished (self : state) : result state :=
  match finished self with
  | _ :: _ => Ok self
  | [] =>
      last <- get_last (outputs self) ;;
      last' <- set_at last 0 (eos self) ;;
      let outputs' := removelast (outputs self) ++ [last'] in
      sc <- get_last (all_scores self) ;;
      s0 <- get sc 0 ;;
      Ok {| beam_size := beam_size self;
            length_penalty := length_penalty self;
            block_ngram := block_ngram self; min_length := min_length self;
            eos := eos self; bos := bos self; pad := pad self;
            context := context self;
            context_block_ngram := context_block_ngram self;
            block_list := block_list self;
            scores := scores self;
            all_scores := all_scores self;
            bookkeep := bookkeep self;
            outputs := outputs';
            finished := [mkTail (length outputs' - 1) 0 s0 (eos self)];
            eos_top := eos_top self;
            eos_top_ts := eos_top_ts self;
            n_best_counter := n_best_counter self;
            partial_hyps := partial_hyps self |}
  end.

Definition rescore_tail (self : state) (f : HypothesisTail lprob)
  : HypothesisTail rscore :=
  let current_length := timestep f + 1 in
  mkTail (timestep f) (hypid f)
         (rescore (score f) current_length (length_penalty self))
         (tokenid f).

(** The sorted (and cut) list of rescored tails of [get_rescored_finished]. *)
Definition rescored_sorted (self : state) (n_best : option Z)
  : list (HypothesisTail rscore) :=
  let rescored_finished := map (rescore_tail self) (finished self) in
  let srted := sort_desc rleb (@score rscore) rescored_finished in
  match n_best with
  | None => srted
  | Some n => slice_to n srted
  end.

Definition get_rescored_finished (self : state) (n_best : option Z)
  : result (state * list (list token * rscore)) :=
  self1 <- force_finished self ;;
  let srted := rescored_sorted self1 n_best in
  n_best_list <- mapM (fun hyp =>
                         tails <- _get_hyp_from_finished self1 hyp ;;
                         Ok (_get_pretty_hypothesis tails, score hyp))
                      srted ;;
  _ <- assert (1 <=? length n_best_list) ;;
  _ <- foldM (fun (_ : unit) (ps : list token * rscore) =>
                assert (count_occ Nat.eq_dec (fst ps) (eos self1) =? 1))
             n_best_list tt ;;
  Ok (self1, n_best_list).

End TreeSearch.

(* ------------------------------------------------------------------ *)
(** * Selection policies *)

Definition vocab_of (logprobs : matrix) : nat :=
  match logprobs with
  | [] => 0
  | row :: _ => length row
  end.

(** [logprobs + prior_scores.unsqueeze(1).expand_as(logprobs)] *)
Definition add_prior (logprobs : matrix) (prior_scores : list lprob)
  : result matrix :=
  if length prior_scores =? length logprobs
  then Ok (map (fun rp => map (fun x => sadd x (snd rp)) (fst rp))
               (combine logprobs prior_scores))
  else match prior_scores with
       | [p] => Ok (map (map (fun x => sadd x p)) logprobs)
       | _ => Err RuntimeError
       end.

(** The score space of [BeamSearch.select_paths]: the score of the flat index
    [i] is [logprobs[row][token] + prior_scores[row]] for [row = i / vocab]
    and [token = i mod vocab]. *)
Definition flat_score (logprobs : matrix) (prior_scores : list lprob) (i : nat)
  : option lprob :=
  let v := vocab_of logprobs in
  match nth_error logprobs (i / v), nth_error prior_scores (i / v) with
  | Some row, Some p =>
      match nth_error row (i mod v) with
      | Some x => Some (sadd x p)
      | None => None
      end
  | _, _ => None
  end.

(** The rows that [BeamSearch.select_paths] looks at: one at the first step
    (a single prior score), all of them afterwards. *)
Definition beam_rows (logprobs : matrix) (prior_scores : list lprob) : nat :=
  if length prior_scores =? 1 then Nat.min 1 (length logprobs)
  else length logprobs.

Module GreedySearch.

(** [GreedySearch.__init__] *)
Definition init (beam_size : nat) (block_ngram context_block_ngram : Z)
    (padding_token bos_token eos_token : token) (min_length : Z)
    (length_penalty : Q) : result TreeSearch.state :=
  if beam_size =? 1
  then Ok (TreeSearch.init beam_size block_ngram context_block_ngram
             padding_token bos_token eos_token min_length length_penalty)
  else Err ValueError.

Definition select_paths (self : TreeSearch.state) (logprobs : matrix)
    (prior_scores : list lprob) (current_length : Z)
  : result TreeSearch.selection :=
  best <- mapM row_max logprobs ;;
  best_scores <- broadcast_add (map snd best) prior_scores ;;
  let hyp_ids := seq 0 (length logprobs) in
  Ok (hyp_ids, map fst best, best_scores).

End GreedySearch.

Module BeamSearch.

Definition select_paths (self : TreeSearch.state) (logprobs : matrix)
    (prior_scores : list lprob) (current_length : Z)
  : result TreeSearch.selection :=
  let logprobs := if length prior_scores =? 1
                  then firstn 1 logprobs else logprobs in
  beam_scores <- add_prior logprobs prior_scores ;;
  let flat_beam_scores := concat beam_scores in
  best <- topk (TreeSearch.beam_size self) flat_beam_scores ;;
  let voc_size := vocab_of logprobs in
  let hyp_ids := map (fun p => fst p / voc_size) best in
  let tok_ids := map (fun p => fst p mod voc_size) best in
  Ok (hyp_ids, tok_ids, map snd best).

End BeamSearch.

(** [_treesearch_factory(dev).set_context(...).set_block_list(...)] of
    [_generate], the context being optional. *)
Definition configure (st : TreeSearch.state) (ctx : option (list token))
    (bl : option (list (Z * list (list token)))) : TreeSearch.state :=
  TreeSearch.set_block_list
    (match ctx with
     | Some c => TreeSearch.set_context st c
     | None => st
     end) bl.

(** The two deterministic policies. *)
Inductive policy : Type :=
| Greedy
| Beam.

Definition select_of (p : policy)
  : TreeSearch.state -> matrix -> list lprob -> Z ->
    result TreeSearch.selection :=
  match p with
  | Greedy => GreedySearch.select_paths
  | Beam => BeamSearch.select_paths
  end.

(** The constructor of the class of a policy. *)
Definition init_of (p : policy) (beam_size : nat)
    (block_ngram context_block_ngram : Z)
    (padding_token bos_token eos_token : token) (min_length : Z)
    (length_penalty : Q) : result TreeSearch.state :=
  match p with
  | Greedy => GreedySearch.init beam_size block_ngram context_block_ngram
                padding_token bos_token eos_token min_length length_penalty
  | Beam => Ok (TreeSearch.init beam_size block_ngram context_block_ngram
                  padding_token bos_token eos_token min_length length_penalty)
  end.

(* ------------------------------------------------------------------ *)
(** * [LexicallyConstrainedBeamSearch] ([parlai/core/search.py]) *)

(** The contract of [ConstraintState]
    ([parlai/core/token_generation_constraints.py], which is not among the
    sources): what [search.py] calls on a constraint state. *)
Class ConstraintState (cs : Type) : Type := {
  next_tokens : cs -> list token;
  cs_advance : cs -> token -> cs;
  bank : cs -> nat;
  cs_finished : cs -> bool;
  cs_tokens : cs -> list token
}.

(** [[l[i] for i in idxs]] *)
Definition take_at {A : Type} (l : list A) (idxs : list nat)
  : result (list A) :=
  mapM (get l) idxs.

(** [torch.masked_select(t, mask)] *)
Fixpoint masked_select {A : Type} (l : list A) (mask : list bool) : list A :=
  match l, mask with
  | x :: l', b :: mask' =>
      if b then x :: masked_select l' mask' else masked_select l' mask'
  | _, _ => []
  end.

(** [t[dst] = src] for a row [dst] of [n] entries: the shapes agree, or [src]
    has one entry, which is repeated. *)
Definition assign_row {A : Type} (n : nat) (src : list A) : result (list A) :=
  if length src =? n then Ok src
  else match src with
       | [x] => Ok (repeat x n)
       | _ => Err RuntimeError
       end.

Module LexicallyConstrainedBeamSearch.
Section WithConstraints.
Context {cs : Type} `{ConstraintState cs}.

Record state : Type := mkState {
  pad : token;
  unk : token;
  eos : token;
  vocab_size : nat;
  num_cands : Z;
  constraint_states : list (list cs)
}.

Definition with_num_cands (self : state) (n : Z) : state :=
  {| pad := pad self; unk := unk self; eos := eos self;
     vocab_size := vocab_size self; num_cands := n;
     constraint_states := constraint_states self |}.

Definition with_constraint_states (self : state) (c : list (list cs))
  : state :=
  {| pad := pad self; unk := unk self; eos := eos self;
     vocab_size := vocab_size self; num_cands := num_cands self;
     constraint_states := c |}.

(** [init_constraints]: one state per beam item of every sentence.  The
    initial state of each sentence is given ([OrderedConstraintState.create]
    or [UnorderedConstraintState.create] of its packed constraints). *)
Definition init_constraints (self : state) (initial : list cs)
    (beam_size : nat) : state :=
  with_constraint_states self (map (fun c => repeat c beam_size) initial).

(** [update_constraints] *)
Definition update_constraints (self : state) (active_hypos : list (list nat))
  : result state :=
  match constraint_states self with
  | [] => Ok self
  | _ :: _ =>
      cs' <- foldM (fun acc (sa : nat * list nat) =>
                      let (sentid, act) := sa in
                      old <- get acc sentid ;;
                      new <- take_at old act ;;
                      set_at acc sentid new)
                   (enumerate active_hypos) (constraint_states self) ;;
      Ok (with_constraint_states self cs')
  end.

(** [MAX_SCORE] of [step_sentence] *)
Definition MAX_SCORE : Z := (-100)%Z.

(** [(num_constraint_tokens - banks) * MAX_SCORE + scores_buf], one entry *)
Definition sort_key (num_constraint_tokens : nat) (bnk : nat) (s : lprob)
  : lprob :=
  sadd (Fin ((Z.of_nat num_constraint_tokens - Z.of_nat bnk) * MAX_SCORE)) s.

(** [roll]: [[0, 1, 2, 3, 4]] becomes [[4, 0, 1, 2, 3]]. *)
Definition roll {A : Type} (t : list A) : result (list A) :=
  last <- get_last t ;; Ok (last :: removelast t).

(** The candidate lists that [step_sentence] carries along. *)
Record cands : Type := mkCands {
  scores_buf : list lprob;
  indices_buf : list token;
  beams_buf : list nat
}.

(** STEP 2: add the next constraint tokens of each beam item.  The result
    also holds the last value of the loop variable [state]. *)
Fixpoint add_constraints (step : nat) (lprobs : matrix)
    (states : list (nat * cs)) (c : cands) (last : option cs)
  : result (cands * option cs) :=
  match states with
  | [] => Ok (c, last)
  | (beamno, st) :: rest =>
      let nt := next_tokens st in
      c' <- match nt with
            | [] => Ok c
            | _ :: _ =>
                row <- get lprobs beamno ;;
                next_values <- take_at row nt ;;
                Ok {| scores_buf := scores_buf c ++ next_values;
                      indices_buf := indices_buf c ++ nt;
                      beams_buf := beams_buf c ++ repeat beamno (length nt) |}
            end ;;
      if step =? 0 then Ok (c', Some st)
      else add_constraints step lprobs rest c' (Some st)
  end.

(** STEP 5, the mask: position [i] is kept when its identity differs from
    the one of position [i - 1], position 0 being compared with the last. *)
Definition uniques_mask (vocab_size : nat) (c : cands) : result (list bool) :=
  let u := map (fun bi => fst bi * (vocab_size + 1) + snd bi)
               (combine (beams_buf c) (indices_buf c)) in
  r <- roll u ;;
  Ok (map (fun p => negb (fst p =? snd p)) (combine r u)).

(** STEP 5, the constraint states: [constraint_states.pop(i)] for the
    positions after the first whose mask is false. *)
Definition pop_states (states : list cs) (mask : list bool) : list cs :=
  match states, mask with
  | s0 :: states', _ :: mask' => s0 :: masked_select states' mask'
  | _, _ => states
  end.

(** STEP 6: the stripe of every candidate, in one pass. *)
Fixpoint stripes_from (num_constraint_tokens n : nat) (cur_bank : nat)
    (cur_bank_count : Z) (banks : list nat) : list Z :=
  match banks with
  | [] => []
  | b :: rest =>
      let count := if b =? cur_bank then (cur_bank_count + 1)%Z else 0%Z in
      ((Z.of_nat num_constraint_tokens - Z.of_nat b
        + count * (Z.of_nat n + 1))%Z)
        :: stripes_from num_constraint_tokens n b count rest
  end.

Definition stripes (num_constraint_tokens : nat) (banks : list nat)
  : result (list Z) :=
  cur_bank <- get banks 0 ;;
  Ok (stripes_from num_constraint_tokens (length banks) cur_bank (-1) banks).

Definition gather_cands (c : cands) (sort_indices : list nat) : result cands :=
  s <- take_at (scores_buf c) sort_indices ;;
  i <- take_at (indices_buf c) sort_indices ;;
  b <- take_at (beams_buf c) sort_indices ;;
  Ok (mkCands s i b).

(** STEPS 3 and 4: the new state and the bank of every candidate, and the
    sort by the composite key. *)
Definition rank (num_constraint_tokens : nat) (states : list cs) (c : cands)
  : result (cands * list nat * list cs) :=
  new_states <- mapM (fun bi => st <- get states (fst bi) ;;
                                Ok (cs_advance st (snd bi)))
                     (combine (beams_buf c) (indices_buf c)) ;;
  let banks := map bank new_states in
  _ <- (if length banks =? length (scores_buf c)
        then Ok tt else Err RuntimeError) ;;
  let keys := map (fun bs => sort_key num_constraint_tokens (fst bs) (snd bs))
                  (combine banks (scores_buf c)) in
  let sort_indices := map fst (sort_desc sleb snd (indexed keys)) in
  c' <- gather_cands c sort_indices ;;
  banks' <- take_at banks sort_indices ;;
  states' <- take_at new_states sort_indices ;;
  Ok (c', banks', states').

(** STEP 5: remove the duplicates. *)
Definition dedup (vocab_size : nat) (c : cands) (banks : list nat)
    (states : list cs) : result (cands * list nat * list cs) :=
  mask <- uniques_mask vocab_size c ;;
  Ok (mkCands (masked_select (scores_buf c) mask)
              (masked_select (indices_buf c) mask)
              (masked_select (beams_buf c) mask),
      masked_select banks mask,
      pop_states states mask).

Definition step_sentence (self : state) (step : nat) (sentno : nat)
    (lprobs : matrix) (states : list cs) (beams indices : list nat)
    (scores : list lprob) : result (cands * list cs) :=
  (* STEP 2 *)
  '(c2, last) <- add_constraints step lprobs (enumerate states)
                   (mkCands scores indices beams) None ;;
  (* STEPS 3 and 4 *)
  state_ <- match last with
            | Some st => Ok st
            | None => Err RuntimeError
            end ;;
  let num_constraint_tokens := length (cs_tokens state_) in
  '(c4, banks4, states4) <- rank num_constraint_tokens states c2 ;;
  (* STEP 5 *)
  '(c5, banks5, states5) <- dedup (vocab_size self) c4 banks4 states4 ;;
  (* STEPS 6 and 7 *)
  str <- stripes num_constraint_tokens banks5 ;;
  let sort_indices := map fst (sort_asc Z.leb snd (indexed str)) in
  c7 <- gather_cands c5 sort_indices ;;
  states7 <- take_at states5 sort_indices ;;
  (* STEP 8 *)
  Ok (mkCands (slice_to (num_cands self) (scores_buf c7))
              (slice_to (num_cands self) (indices_buf c7))
              (slice_to (num_cands self) (beams_buf c7)),
      states7).

(** STEP 0 of [step]: the positions, in the view of
    [batch_size * beam_size] rows, of the beam items that are not finished. *)
Definition not_finished_indices (beam_size : nat) (cstates : list (list cs))
  : list nat :=
  concat (map (fun ss : nat * list cs =>
                 let (sentno, sent_constraints) := ss in
                 concat (map (fun bs : nat * cs =>
                                let (beamno, st) := bs in
                                if cs_finished st then []
                                else [sentno * beam_size + beamno])
                             (enumerate sent_constraints)))
              (enumerate cstates)).

(** [lprobs.view(batch_size * beam_size, -1)[index, eos] = -math.inf] *)
Definition set_view_row (beam_size : nat) (eos_ : token)
    (lprobs : list matrix) (index : nat) : result (list matrix) :=
  m <- get lprobs (index / beam_size) ;;
  m' <- set2 m (index mod beam_size) eos_ NegInf ;;
  set_at lprobs (index / beam_size) m'.

Definition suppress_eos (self : state) (step : nat) (beam_size : nat)
    (lprobs : list matrix) : result (list matrix) :=
  match constraint_states self with
  | [] => Ok lprobs
  | _ :: _ =>
      if 0 <? step
      then foldM (set_view_row beam_size (eos self)) 
                 (not_finished_indices beam_size (constraint_states self))
                 lprobs
      else Ok lprobs
  end.

(** [lprobs + scores[:, :, step - 1].unsqueeze(-1)]; the sizes of the two
    tensors have to agree (broadcasting is not modelled). *)
Definition add_scores (step : nat) (lprobs : list matrix)
    (scores : list (list (list lprob))) : result (list matrix) :=
  if negb (length lprobs =? length scores) then Err RuntimeError
  else
    mapM (fun ms : matrix * list (list lprob) =>
            let (m, sc) := ms in
            if negb (length m =? length sc) then Err RuntimeError
            else mapM (fun rs : list lprob * list lprob =>
                         let (row, hist) := rs in
                         prev <- get hist (step - 1) ;;
                         Ok (map (fun x => sadd x prev) row))
                      (combine m sc))
         (combine lprobs scores).

Definition topk_z (k : Z) (l : list lprob) : result (list (nat * lprob)) :=
  if (k <? 0)%Z then Err RuntimeError else topk (Z.to_nat k) l.

(** The buffers that [step] returns, one row per sentence. *)
Record bufs : Type := mkBufs {
  b_scores : list (list lprob);
  b_indices : list (list token);
  b_beams : list (list nat)
}.

Definition step (self : state) (step_ : nat) (lprobs : list matrix)
    (scores : option (list (list (list lprob))))
  : result (state * bufs) :=
  let batch_size := length lprobs in
  let beam_size := length (hd [] lprobs) in
  let vocab_size_ := vocab_of (hd [] lprobs) in
  let num_cands_ := Z.min (Z.of_nat (beam_size * 2))
                          (Z.of_nat (beam_size * vocab_size_) - 1) in
  let self := with_num_cands self num_cands_ in
  (* STEP 0 *)
  lprobs <- suppress_eos self step_ beam_size lprobs ;;
  lprobs <- (if step_ =? 0
             then if beam_size =? 0
                  then (if batch_size =? 0 then Ok lprobs else Err ValueError)
                  else Ok (map (firstn 1) lprobs)
             else match scores with
                  | None => Err AssertionError
                  | Some sc => add_scores step_ lprobs sc
                  end) ;;
  top_prediction <- mapM (fun m => topk_z num_cands_ (concat m)) lprobs ;;
  let scores_buf_ := map (map snd) top_prediction in
  let beams_buf_ := map (map (fun p => fst p / vocab_size_)) top_prediction in
  let indices_buf_ :=
    map (map (fun p => fst p mod vocab_size_)) top_prediction in
  match constraint_states self with
  | [] => Ok (self, mkBufs scores_buf_ indices_buf_ beams_buf_)
  | _ :: _ =>
      (* STEP 1 *)
      '(scores_buf_, indices_buf_, beams_buf_) <-
        (if 0 <? step_
         then
           top1 <- mapM (fun m => mapM (fun row =>
                                          t <- topk 1 row ;; get t 0) m)
                        lprobs ;;
           Ok (map (fun p => fst p ++ map snd (snd p))
                   (combine scores_buf_ top1),
               map (fun p => fst p ++ map fst (snd p))
                   (combine indices_buf_ top1),
               map (fun b => b ++ seq 0 beam_size) beams_buf_)
         else Ok (scores_buf_, indices_buf_, beams_buf_)) ;;
      let zeros := mkBufs (repeat (repeat (Fin 0) (2 * beam_size)) batch_size)
                          (repeat (repeat 0 (2 * beam_size)) batch_size)
                          (repeat (repeat 0 (2 * beam_size)) batch_size) in
      foldM (fun (acc : state * bufs) (sentno : nat) =>
               let (self, out) := acc in
               lp <- get lprobs sentno ;;
               states <- get (constraint_states self) sentno ;;
               bb <- get beams_buf_ sentno ;;
               ib <- get indices_buf_ sentno ;;
               sb <- get scores_buf_ sentno ;;
               '(c, new_states) <-
                 step_sentence self step_ sentno lp states bb ib sb ;;
               rs <- assign_row (2 * beam_size) (scores_buf c) ;;
               ri <- assign_row (2 * beam_size) (indices_buf c) ;;
               rb <- assign_row (2 * beam_size) (beams_buf c) ;;
               ns <- set_at (b_scores out) sentno rs ;;
               ni <- set_at (b_indices out) sentno ri ;;
               nb <- set_at (b_beams out) sentno rb ;;
               cs' <- set_at (constraint_states self) sentno new_states ;;
               Ok (with_constraint_states self cs', mkBufs ns ni nb))
            (seq 0 (length (constraint_states self)))
            (self, zeros)
  end.

End WithConstraints.
End LexicallyConstrainedBeamSearch.

(* ------------------------------------------------------------------ *)
(** * [_treesearch_factory] *)

Inductive search_class : Type :=
| GreedySearch_
| BeamSearch_
| DelayedBeamSearch_ (k : nat) (delay : Z)
| ConstrainedBeamSearch_
| TopKSampling_ (k : nat)
| NucleusSampling_ (p : Q).

(** What [_treesearch_factory] reads of the agent and of its options. *)
Record agent : Type := mkAgent {
  opt_inference : option string;
  opt_beam_size : option nat;
  opt_beam_length_penalty : option Q;
  opt_topk : option nat;
  opt_beam_delay : option Z;
  opt_topp : option Q;
  beam_min_length : Z;
  beam_block_ngram : Z;
  beam_context_block_ngram : Z;
  NULL_IDX : token;
  START_IDX : token;
  END_IDX : token
}.

Definition opt_get {A : Type} (o : option A) (default : A) : A :=
  match o with
  | Some x => x
  | None => default
  end.

(** [self.opt[key]]: a [KeyError] (here [RuntimeError]) when absent. *)
Definition opt_item {A : Type} (o : option A) : result A :=
  match o with
  | Some x => Ok x
  | None => Err RuntimeError
  end.

Definition _treesearch_factory (self : agent)
  : result (search_class * TreeSearch.state) :=
  let method := opt_get (opt_inference self) "greedy"%string in
  let beam_size := opt_get (opt_beam_size self) 1 in
  let length_penalty := opt_get (opt_beam_length_penalty self) (65 # 100)%Q in
  let make (min_length : Z) :=
    TreeSearch.init beam_size (beam_block_ngram self)
      (beam_context_block_ngram self) (NULL_IDX self) (START_IDX self)
      (END_IDX self) min_length length_penalty in
  if String.eqb method "greedy" then
    st <- GreedySearch.init beam_size (beam_block_ngram self)
            (beam_context_block_ngram self) (NULL_IDX self) (START_IDX self)
            (END_IDX self) 0 length_penalty ;;
    Ok (GreedySearch_, st)
  else if String.eqb method "beam" then
    Ok (BeamSearch_, make (beam_min_length self))
  else if String.eqb method "delayedbeam" then
    k <- opt_item (opt_topk self) ;;
    delay <- opt_item (opt_beam_delay self) ;;
    Ok (DelayedBeamSearch_ k delay, make (beam_min_length self))
  else if String.eqb method "constrainedbeam" then
    Ok (ConstrainedBeamSearch_, make (beam_min_length self))
  else if String.eqb method "topk" then
    k <- opt_item (opt_topk self) ;;
    Ok (TopKSampling_ k, make (beam_min_length self))
  else if String.eqb method "nucleus" then
    p <- opt_item (opt_topp self) ;;
    Ok (NucleusSampling_ p, make (beam_min_length self))
  else Err ValueError.


(* ------------------------------------------------------------------ *)
(** * [ConstrainedBeamSearch]

    The adapter of [torch_generator_agent.py] around
    [LexicallyConstrainedBeamSearch], for its fixed batch of one sentence
    ([bsz = 1]).  The attention and alignment entries of a finalized
    hypothesis are empty tensors and are left out, as are the attributes the
    class only writes ([eos_mask], [eos_bbsz_idx], [eos_scores],
    [active_hypos_global]). *)

(** A difference of two scores. *)
Inductive xscore : Type :=
| XNaN
| XPosInf
| XNegInf
| XFin (z : Z).

Definition ssub (a b : lprob) : xscore :=
  match a, b with
  | Fin x, Fin y => XFin (x - y)
  | Fin _, NegInf => XPosInf
  | NegInf, Fin _ => XNegInf
  | NegInf, NegInf => XNaN
  end.

Definition xscore_of (a : lprob) : xscore :=
  match a with
  | Fin x => XFin x
  | NegInf => XNegInf
  end.

(** A sentence-level score divided by [(step + 1) ** len_penalty], with
    [len_penalty = 1.0]. *)
Inductive qscore : Type :=
| QNegInf
| QFin (q : Q).

Definition normalize (step : nat) (s : lprob) : qscore :=
  match s with
  | NegInf => QNegInf
  | Fin z => QFin (z # Pos.of_nat (step + 1))
  end.

Definition unnormalized (s : lprob) : qscore :=
  match s with
  | NegInf => QNegInf
  | Fin z => QFin (z # 1)
  end.

(** [pos_scores[:, 1:] = pos_scores[:, 1:] - pos_scores[:, :-1]] on one row *)
Definition positional (cumulative : list lprob) : list xscore :=
  match cumulative with
  | [] => []
  | first :: rest =>
      xscore_of first
        :: map (fun p => ssub (snd p) (fst p)) (combine cumulative rest)
  end.

Module ConstrainedBeamSearch.
Section WithConstraints.
Context {cs : Type} `{ConstraintState cs}.

Record hypo : Type := mkHypo {
  h_tokens : list token;
  h_score : qscore;
  h_positional_scores : list xscore
}.

Record state : Type := mkState {
  base : TreeSearch.state;
  search : @LexicallyConstrainedBeamSearch.state cs;
  max_len : nat;
  normalize_scores : bool;
  cbs_scores : matrix;
  tokens : list (list token);
  cands_to_ignore : list bool;
  cand_size : nat;
  cbs_finalized : list (list hypo);
  cbs_finished : list bool;
  num_remaining_sent : Z
}.

(** [ConstrainedBeamSearch.__init__]; [dict_pad], [dict_unk], [dict_eos] and
    [dict_len] are what [Search.__init__] reads of the dictionary. *)
Definition init (dict_pad dict_unk dict_eos : token) (dict_len : nat)
    (beam_size : nat) (block_ngram context_block_ngram : Z)
    (padding_token bos_token eos_token : token) (min_length : Z)
    (length_penalty : Q) : state :=
  let max_len_ := 127 in
  {| base := TreeSearch.init beam_size block_ngram context_block_ngram
               padding_token bos_token eos_token min_length length_penalty;
     search := LexicallyConstrainedBeamSearch.mkState
                 dict_pad dict_unk dict_eos dict_len 0 [];
     max_len := max_len_;
     normalize_scores := true;
     cbs_scores := repeat (repeat (Fin 0) (max_len_ + 1)) beam_size;
     tokens := repeat (bos_token :: repeat padding_token (max_len_ + 1))
                      beam_size;
     cands_to_ignore := repeat false beam_size;
     cand_size := 2 * beam_size;
     cbs_finalized := [[]];
     cbs_finished := [false];
     num_remaining_sent := 1 |}.

Definition is_done (self : state) : bool :=
  (num_remaining_sent self =? 0)%Z.

(** [is_finished]: without a [return] statement Python returns [None], which
    the caller reads as false. *)
Definition is_finished (step : nat) (unfin_idx : nat) (max_len_ : nat)
    (finalized_sent_len : nat) (beam_size : nat) : result bool :=
  _ <- assert (finalized_sent_len <=? beam_size) ;;
  if (finalized_sent_len =? beam_size) || (step =? max_len_)
  then Ok true
  else Ok false.

(** [cum_unfin] of [finalize_hypos] *)
Fixpoint cum_unfin_from (prev : nat) (finished : list bool) : list nat :=
  match finished with
  | [] => []
  | true :: rest => cum_unfin_from (S prev) rest
  | false :: rest => prev :: cum_unfin_from prev rest
  end.

(** [finalize_hypos]: the new [finalized] and [finished] lists and the list
    of the sentences that became finished. *)
Definition finalize_hypos (self : state) (step : nat) (bbsz_idx : list nat)
    (eos_scores : list lprob) (beam_size : nat)
  : result (list (list hypo) * list bool * list nat) :=
  _ <- assert (length bbsz_idx =? length eos_scores) ;;
  (* tokens_clone *)
  rows <- take_at (tokens self) bbsz_idx ;;
  tokens_clone <- mapM (fun row =>
                          set_at (firstn (step + 1) (skipn 1 row)) step
                                 (TreeSearch.eos (base self)))
                       rows ;;
  (* pos_scores *)
  srows <- take_at (cbs_scores self) bbsz_idx ;;
  pos_scores <- mapM (fun rs : list lprob * lprob =>
                        let (row, s) := rs in
                        r <- set_at (firstn (step + 1) row) step s ;;
                        Ok (positional r))
                     (combine srows eos_scores) ;;
  let eos_scores' := if normalize_scores self
                     then map (normalize step) eos_scores
                     else map unnormalized eos_scores in
  let cum_unfin := cum_unfin_from 0 (cbs_finished self) in
  (* for every finished beam item *)
  '(finalized, sents_seen) <-
    foldM (fun (acc : list (list hypo) * list (nat * nat)) (i : nat) =>
             let (finalized, sents_seen) := acc in
             idx <- get bbsz_idx i ;;
             score <- get eos_scores' i ;;
             let unfin_idx := idx / beam_size in
             cu <- get cum_unfin unfin_idx ;;
             let sent := unfin_idx + cu in
             let sents_seen' :=
               if existsb (fun p => (fst p =? sent) && (snd p =? unfin_idx))
                          sents_seen
               then sents_seen else sents_seen ++ [(sent, unfin_idx)] in
             fs <- get finalized sent ;;
             if length fs <? beam_size then
               tc <- get tokens_clone i ;;
               ps <- get pos_scores i ;;
               finalized' <- set_at finalized sent (fs ++ [mkHypo tc score ps]) ;;
               Ok (finalized', sents_seen')
             else Ok (finalized, sents_seen'))
          (seq 0 (length bbsz_idx)) (cbs_finalized self, []) ;;
  '(finished, newly_finished) <-
    foldM (fun (acc : list bool * list nat) (seen : nat * nat) =>
             let (finished, newly) := acc in
             let (sent, unfin_idx) := seen in
             f <- get finished sent ;;
             if f then Ok acc
             else
               fs <- get finalized sent ;;
               fin <- is_finished step unfin_idx (max_len self) (length fs)
                        beam_size ;;
               if fin then
                 finished' <- set_at finished sent true ;;
                 Ok (finished', newly ++ [unfin_idx])
               else Ok acc)
          sents_seen (cbs_finished self, []) ;;
  Ok (finalized, finished, newly_finished).

(** [torch.topk(t, k, largest=False)] on integers *)
Definition topk_smallest (k : nat) (l : list nat) : result (list (nat * nat)) :=
  if k <=? length l
  then Ok (firstn k (sort_asc Nat.leb snd (indexed l)))
  else Err RuntimeError.

(** The first [n] entries of [l] replaced by those of [front] (of [n]
    entries). *)
Definition set_front {A : Type} (n : nat) (front l : list A) : list A :=
  front ++ skipn n l.

Definition select_paths (self : state) (logprobs : matrix)
    (prior_scores : list lprob) (current_length : Z)
  : result (state * TreeSearch.selection) :=
  let beam_size := length logprobs in
  let step := Z.to_nat current_length in
  _ <- (if beam_size =? length (cbs_scores self)
        then Ok tt else Err RuntimeError) ;;
  '(search', out) <-
    LexicallyConstrainedBeamSearch.step (search self) step [logprobs]
      (Some [map (firstn step) (cbs_scores self)]) ;;
  cand_scores <- get (LexicallyConstrainedBeamSearch.b_scores out) 0 ;;
  cand_indices <- get (LexicallyConstrainedBeamSearch.b_indices out) 0 ;;
  cand_beams <- get (LexicallyConstrainedBeamSearch.b_beams out) 0 ;;
  let cand_bbsz_idx := cand_beams in
  (* finalize hypotheses that end in eos *)
  let eos_mask :=
    map (fun p => (fst p =? TreeSearch.eos (base self))
                  && negb (is_neginf (snd p)))
        (combine cand_indices cand_scores) in
  _ <- (if length (firstn beam_size eos_mask) =? length (cands_to_ignore self)
        then Ok tt else Err IndexError) ;;
  let eos_front :=
    map (fun p => snd p && negb (fst p))
        (combine (cands_to_ignore self) (firstn beam_size eos_mask)) in
  let eos_bbsz_idx := masked_select (firstn beam_size cand_bbsz_idx) eos_front in
  '(finalized, finished, remaining) <-
    (match eos_bbsz_idx with
     | [] => Ok (cbs_finalized self, cbs_finished self, num_remaining_sent self)
     | _ :: _ =>
         let eos_scores :=
           masked_select (firstn beam_size cand_scores) eos_front in
         '(fz, fd, finalized_sents) <-
           finalize_hypos self step eos_bbsz_idx eos_scores beam_size ;;
         Ok (fz, fd,
             (num_remaining_sent self - Z.of_nat (length finalized_sents))%Z)
     end : result (list (list hypo) * list bool * Z)) ;;
  _ <- assert (0 <=? remaining)%Z ;;
  _ <- assert (step <? max_len self) ;;
  let eos_front' :=
    map (fun p => fst p || snd p)
        (combine (cands_to_ignore self) eos_front) in
  let eos_mask' := set_front beam_size eos_front' eos_mask in
  _ <- (if length eos_mask' <=? cand_size self
        then Ok tt else Err RuntimeError) ;;
  let active_mask :=
    map (fun p : bool * nat =>
           (if fst p then cand_size self else 0) + snd p)
        (combine eos_mask' (seq 0 (length eos_mask'))) in
  top <- topk_smallest beam_size active_mask ;;
  let new_cands_to_ignore := map snd top in
  let active_hypos := map fst top in
  let cands_to_ignore' :=
    firstn beam_size (map (fun v => cand_size self <=? v) new_cands_to_ignore) in
  _ <- assert (existsb negb cands_to_ignore') ;;
  active_bbsz_idx <- take_at cand_bbsz_idx active_hypos ;;
  active_scores <- take_at cand_scores active_hypos ;;
  active_tokens <- take_at cand_indices active_hypos ;;
  (* copy tokens and scores for active hypotheses *)
  trows <- take_at (tokens self) active_bbsz_idx ;;
  tokens' <- mapM (fun p : list token * (list token * token) =>
                     let (old, nt) := p in
                     let (src, tok) := nt in
                     set_at (set_front (step + 1) (firstn (step + 1) src) old)
                            (step + 1) tok)
                  (combine (tokens self) (combine trows active_tokens)) ;;
  srows <- take_at (cbs_scores self) active_bbsz_idx ;;
  scores' <- mapM (fun p : list lprob * (list lprob * lprob) =>
                     let (old, ns) := p in
                     let (src, s) := ns in
                     set_at (if 0 <? step
                             then set_front step (firstn step src) old
                             else old)
                            step s)
                  (combine (cbs_scores self) (combine srows active_scores)) ;;
  search'' <- LexicallyConstrainedBeamSearch.update_constraints search'
                [active_hypos] ;;
  tok_ids <- mapM (fun row => get row (step + 1)) tokens' ;;
  best_scores <- mapM (fun row => get row step) scores' ;;
  Ok ({| base := base self;
         search := search'';
         max_len := max_len self;
         normalize_scores := normalize_scores self;
         cbs_scores := scores';
         tokens := tokens';
         cands_to_ignore := cands_to_ignore';
         cand_size := cand_size self;
         cbs_finalized := finalized;
         cbs_finished := finished;
         num_remaining_sent := remaining |},
      (active_bbsz_idx, tok_ids, best_scores)).

(** [advance] of [TreeSearch] with this class's [select_paths]. *)
Definition advance (self : state) (logprobs : matrix)
  : result (state * matrix) :=
  '(lp1, scores1) <- TreeSearch.prepare (base self) logprobs ;;
  '(self1, sel) <- select_paths self lp1 scores1
                     (TreeSearch.current_length (base self)) ;;
  base' <- TreeSearch.record_step (base self1) sel ;;
  Ok ({| base := base';
         search := search self1;
         max_len := max_len self1;
         normalize_scores := normalize_scores self1;
         cbs_scores := cbs_scores self1;
         tokens := tokens self1;
         cands_to_ignore := cands_to_ignore self1;
         cand_size := cand_size self1;
         cbs_finalized := cbs_finalized self1;
         cbs_finished := cbs_finished self1;
         num_remaining_sent := num_remaining_sent self1 |},
      lp1).

End WithConstraints.
End ConstrainedBeamSearch.


(* ------------------------------------------------------------------ *)
(** * A constraint state to run the stepper on *)

(** Modelled from the spec: [OrderedConstraintState] of
    [parlai/core/token_generation_constraints.py], which is not among the
    sources, for required phrases of one token each: the phrases are met in
    their order, [bank] counts the constraint tokens generated so far,
    [next_tokens] is the next required token and the state is finished when
    none remains. *)
Record OrderedConstraintState : Type := mkOrdered {
  oc_tokens : list token;
  oc_state : nat
}.

Definition oc_next_tokens (s : OrderedConstraintState) : list token :=
  match nth_error (oc_tokens s) (oc_state s) with
  | Some t => [t]
  | None => []
  end.

Definition oc_advance (s : OrderedConstraintState) (t : token)
  : OrderedConstraintState :=
  match nth_error (oc_tokens s) (oc_state s) with
  | Some t' => if t =? t' then mkOrdered (oc_tokens s) (S (oc_state s)) else s
  | None => s
  end.

#[export] Instance OrderedConstraintState_ops
  : ConstraintState OrderedConstraintState := {
  next_tokens := oc_next_tokens;
  cs_advance := oc_advance;
  bank := oc_state;
  cs_finished := fun s => length (oc_tokens s) <=? oc_state s;
  cs_tokens := oc_tokens
}.

(** [OrderedConstraintState.create] *)
Definition oc_create (constraint_tokens : list token) : OrderedConstraintState :=
  mkOrdered constraint_tokens 0.


(* ------------------------------------------------------------------ *)
(** * Predicates of the specification *)

Unset Implicit Arguments.

(** [a] comes before [b] in a list sorted largest first by [key]. *)
Definition desc (A K : Type) (leb : K -> K -> bool) (key : A -> K)
    (a b : A) : Prop :=
  leb (key b) (key a) = true.

(** What [topk k l] returns: [k] distinct positions of [l] with their values,
    largest first, and no value left out is larger than a value returned. *)
Record is_topk (k : nat) (l : list lprob) (r : list (nat * lprob)) : Prop := {
  topk_length : length r = k;
  topk_nodup : NoDup (map fst r);
  topk_values : forall i x, In (i, x) r -> nth_error l i = Some x;
  topk_sorted : StronglySorted (fun a b => sle (snd b) (snd a)) r;
  topk_maximal : forall j y, nth_error l j = Some y -> ~ In j (map fst r) ->
                 forall i x, In (i, x) r -> sle y x
}.

(** The tensor that [select_paths] flattens. *)
Definition beam_view (logprobs : matrix) (prior_scores : list lprob) : matrix :=
  if length prior_scores =? 1 then firstn 1 logprobs else logprobs.

(** [lp'] is [lp] with some entries replaced by minus infinity. *)
Definition masked_from (lp lp' : matrix) : Prop :=
  Forall2 (Forall2 (fun x x' : lprob => x' = x \/ x' = NegInf)) lp lp'.

(** A column that is minus infinity stays so. *)
Definition column_neginf (c : nat) (lp : matrix) : Prop :=
  Forall (fun row => nth_error row c = Some NegInf) lp.

(** The finished traces that one step adds: the slots below [beam_size]
    whose new token is the end token and whose score is not minus infinity. *)
Definition new_tail (self : TreeSearch.state) (toks : list token)
    (scs : list lprob) (f : TreeSearch.HypothesisTail lprob) : Prop :=
  TreeSearch.timestep f = length (TreeSearch.outputs self) /\
  TreeSearch.hypid f < TreeSearch.beam_size self /\
  TreeSearch.tokenid f = TreeSearch.eos self /\
  nth_error toks (TreeSearch.hypid f) = Some (TreeSearch.eos self) /\
  nth_error scs (TreeSearch.hypid f) = Some (TreeSearch.score f) /\
  TreeSearch.score f <> NegInf.

(** Every returned entry is a sum [logprobs[source][token] + prior[source]]. *)
Definition additive (lp : matrix) (prior : list lprob)
    (res : TreeSearch.selection) : Prop :=
  let '(hyps, toks, scs) := res in
  forall i h t, nth_error hyps i = Some h -> nth_error toks i = Some t ->
    exists x p,
      get2 lp h t = Ok x /\ nth_error prior h = Some p /\
      nth_error scs i = Some (sadd x p).

(** One entry of the list that [get_rescored_finished] returns. *)
Definition pretty_of (self : TreeSearch.state)
    (hyp : TreeSearch.HypothesisTail rscore) : result (list token * rscore) :=
  tails <- TreeSearch._get_hyp_from_finished self hyp ;;
  Ok (TreeSearch._get_pretty_hypothesis tails, TreeSearch.score hyp).

(** What the invariant of the beam needs of a selection: [beam_size]
    entries, sources below [beam_size], and a finite score only from a source
    whose prior score is finite. *)
Definition alive_sources (B : nat) (prior : list lprob)
    (res : TreeSearch.selection) : Prop :=
  let '(hyps, toks, scs) := res in
  length hyps = B /\ length toks = B /\ length scs = B /\
  forall i h, nth_error hyps i = Some h ->
    h < B /\
    forall s, nth_error scs i = Some s -> s <> NegInf ->
              exists q, nth_error prior h = Some q /\ q <> NegInf.

(** The tokens of the hypothesis of slot [h] at step [t], last token first:
    the chain of backpointers that [_get_hyp_from_finished] walks. *)
Fixpoint chain_tokens (outs : list (list token)) (bks : list (list nat))
    (t h : nat) : option (list token) :=
  match nth_error outs t with
  | None => None
  | Some row =>
      match nth_error row h with
      | None => None
      | Some tok =>
          match t with
          | O => Some [tok]
          | S t' =>
              match nth_error bks t' with
              | None => None
              | Some bk =>
                  match nth_error bk h with
                  | None => None
                  | Some p =>
                      match chain_tokens outs bks t' p with
                      | None => None
                      | Some rest => Some (tok :: rest)
                      end
                  end
              end
          end
      end
  end.

(** The invariant of a beam of [B] slots with the end token [e]: the shapes
    of the histories, and the end token only at the head of a chain with a
    finite score or of a finished trace. *)
Record beam_inv (B : nat) (e : token) (st : TreeSearch.state) : Prop := {
  inv_beam : TreeSearch.beam_size st = B;
  inv_eos : TreeSearch.eos st = e;
  inv_len_scores :
    length (TreeSearch.all_scores st) = length (TreeSearch.outputs st);
  inv_len_book :
    length (TreeSearch.outputs st) = S (length (TreeSearch.bookkeep st));
  inv_out_rows :
    Forall (fun row => length row = B) (TreeSearch.outputs st);
  inv_score_rows :
    Forall (fun row => length row = B) (TreeSearch.all_scores st);
  inv_book_rows :
    Forall (fun row => length row = B /\ Forall (fun p => p < B) row)
           (TreeSearch.bookkeep st);
  inv_scores :
    match TreeSearch.bookkeep st with
    | [] => TreeSearch.scores st = None
    | _ :: _ => exists sc, TreeSearch.scores st = Some sc /\
                           get_last (TreeSearch.all_scores st) = Ok sc
    end;
  inv_clean :
    forall t h s,
      get2 (TreeSearch.all_scores st) t h = Ok s -> s <> NegInf ->
      exists tok rest,
        chain_tokens (TreeSearch.outputs st) (TreeSearch.bookkeep st) t h
        = Some (tok :: rest) /\ ~ In e rest;
  inv_finished :
    Forall (fun f =>
              get2 (TreeSearch.outputs st) (TreeSearch.timestep f)
                   (TreeSearch.hypid f) = Ok e /\
              get2 (TreeSearch.all_scores st) (TreeSearch.timestep f)
                   (TreeSearch.hypid f) = Ok (TreeSearch.score f) /\
              TreeSearch.score f <> NegInf)
           (TreeSearch.finished st)
}.

(** The tensors of a run: [beam_size] rows of one length. *)
Definition well_shaped (B : nat) (lp : matrix) : Prop :=
  length lp = B /\ Forall (fun row => length row = vocab_of lp) lp.

(** The entry of column [c] in row [b] of sentence [s]. *)
Definition cell (t : list matrix) (s b c : nat) : option lprob :=
  match nth_error t s with
  | Some m => match nth_error m b with
              | Some row => nth_error row c
              | None => None
              end
  | None => None
  end.

(** A tensor of [n] sentences of [B] rows that all have column [e]. *)
Definition shape3 (n B e : nat) (t : list matrix) : Prop :=
  length t = n /\
  Forall (fun m => length m = B /\ Forall (fun row => e < length row) m) t.

(* ------------------------------------------------------------------ *)
(** * Sample inputs

    The vocabulary of the samples is [0 = pad], [1 = bos], [2 = eos] and the
    words 3 and 4. *)

(** A beam of two slots, minimum length 3. *)
Definition sample_beam : TreeSearch.state :=
  TreeSearch.init 2 (-1) (-1) 0 1 2 3 (65 # 100)%Q.

Definition sample_logprobs : matrix :=
  [[NegInf; Fin (-9); Fin (-1); Fin (-2); Fin (-3)];
   [NegInf; Fin (-9); Fin (-1); Fin (-2); Fin (-3)]].

(** The 2 x 3 score space: prior scores 0 and -1. *)
Definition sample_2x3 : matrix :=
  [[Fin (-1); Fin (-5); Fin (-3)];
   [Fin (-2); Fin (-4); Fin (-6)]].

Definition sample_prior : list lprob := [Fin 0; Fin (-1)].

(** A beam as wide as a vocabulary of three tokens, minimum length 3. *)
Definition wide_beam : TreeSearch.state :=
  TreeSearch.init 3 (-1) (-1) 0 1 2 3 (65 # 100)%Q.

Definition wide_logprobs : matrix :=
  [[Fin (-1); Fin (-2); Fin (-3)];
   [Fin (-1); Fin (-2); Fin (-3)];
   [Fin (-1); Fin (-2); Fin (-3)]].

(** A beam of two slots without a minimum length and without blocking. *)
Definition plain_beam : TreeSearch.state :=
  TreeSearch.init 2 (-1) (-1) 0 1 2 0 (65 # 100)%Q.

(** An agent that decodes greedily and asks for a minimum length of 5. *)
Definition greedy_agent : agent :=
  {| opt_inference := Some "greedy"%string;
     opt_beam_size := Some 1;
     opt_beam_length_penalty := None;
     opt_topk := None;
     opt_beam_delay := None;
     opt_topp := None;
     beam_min_length := 5;
     beam_block_ngram := (-1);
     beam_context_block_ngram := (-1);
     NULL_IDX := 0;
     START_IDX := 1;
     END_IDX := 2 |}.

(** A beam of one slot and the four tensors of a run that ends, at the fourth
    step, with the end token and the total score -2. *)
Definition single_beam : TreeSearch.state :=
  TreeSearch.init 1 (-1) (-1) 0 1 2 0 (65 # 100)%Q.

Definition word_step (s : Z) : matrix :=
  [[NegInf; Fin (-9); Fin (-8); Fin s; Fin (-7)]].

Definition eos_step : matrix :=
  [[NegInf; Fin (-9); Fin 0; Fin (-5); Fin (-7)]].

Definition finished_beam : TreeSearch.state :=
  Eval vm_compute in
    match TreeSearch.advance_all (select_of Beam) single_beam
            [word_step (-1); word_step (-1); word_step 0; eos_step] with
    | Ok st => st
    | Err _ => single_beam
    end.

(** A constrained beam of two slots for one sentence that has to contain the
    word 4, and two tensors for it. *)
Definition sample_adapter : @ConstrainedBeamSearch.state OrderedConstraintState :=
  let s := ConstrainedBeamSearch.init 0 3 2 5 2 (-1) (-1) 0 1 2 1 (65 # 100)%Q in
  {| ConstrainedBeamSearch.base := ConstrainedBeamSearch.base s;
     ConstrainedBeamSearch.search :=
       LexicallyConstrainedBeamSearch.init_constraints
         (ConstrainedBeamSearch.search s) [oc_create [4]] 2;
     ConstrainedBeamSearch.max_len := ConstrainedBeamSearch.max_len s;
     ConstrainedBeamSearch.normalize_scores :=
       ConstrainedBeamSearch.normalize_scores s;
     ConstrainedBeamSearch.cbs_scores := ConstrainedBeamSearch.cbs_scores s;
     ConstrainedBeamSearch.tokens := ConstrainedBeamSearch.tokens s;
     ConstrainedBeamSearch.cands_to_ignore :=
       ConstrainedBeamSearch.cands_to_ignore s;
     ConstrainedBeamSearch.cand_size := ConstrainedBeamSearch.cand_size s;
     ConstrainedBeamSearch.cbs_finalized :=
       ConstrainedBeamSearch.cbs_finalized s;
     ConstrainedBeamSearch.cbs_finished := ConstrainedBeamSearch.cbs_finished s;
     ConstrainedBeamSearch.num_remaining_sent :=
       ConstrainedBeamSearch.num_remaining_sent s |}.

Definition adapter_logprobs : matrix :=
  [[NegInf; Fin (-9); Fin (-4); Fin (-1); Fin (-3)];
   [NegInf; Fin (-9); Fin (-4); Fin (-1); Fin (-3)]].

(** A beam of one slot whose end token is the word 0, and a run of two
    tensors without a finite entry. *)
Definition starved_beam : TreeSearch.state :=
  TreeSearch.init 1 (-1) (-1) 3 1 0 0 (65 # 100)%Q.

Definition starved_step : matrix := [[NegInf; NegInf]].

Definition starved_end : TreeSearch.state :=
  Eval vm_compute in
    match TreeSearch.advance_all (select_of Beam) starved_beam
            [starved_step; starved_step] with
    | Ok st => st
    | Err _ => starved_beam
    end.

(** ** Inputs of the constrained stepper *)

(** One sentence that has to contain the word 4, a beam of one item that has
    not produced it yet, at step 1: the log-probabilities of the step and the
    score 0 of the item so far. *)
Definition pending : OrderedConstraintState := oc_create [4].

Definition pending_search : @LexicallyConstrainedBeamSearch.state OrderedConstraintState :=
  LexicallyConstrainedBeamSearch.mkState 0 3 2 5 0 [[pending]].

Definition pending_lprobs : list matrix :=
  [[[NegInf; Fin (-500); Fin (-3); Fin (-10); Fin (-150)]]].

Definition pending_scores : list (list (list lprob)) := [[[Fin 0]]].

(** The cumulative scores of that step once the end token is suppressed. *)
Definition pending_cumulative : matrix :=
  [[NegInf; Fin (-500); NegInf; Fin (-10); Fin (-150)]].

(** One sentence whose constraint (the word 4) is satisfied in both items of
    its beam, at step 1: the two items have the same score so far and the same
    distribution. *)
Definition satisfied : OrderedConstraintState := mkOrdered [4] 1.

Definition satisfied_search : @LexicallyConstrainedBeamSearch.state OrderedConstraintState :=
  LexicallyConstrainedBeamSearch.mkState 0 3 2 5 0 [[satisfied; satisfied]].

Definition tie_lprobs : list matrix :=
  [[[NegInf; Fin (-9); Fin (-8); Fin (-1); Fin (-7)];
    [NegInf; Fin (-9); Fin (-8); Fin (-1); Fin (-7)]]].

Definition tie_scores : list (list (list lprob)) := [[[Fin (-2)]; [Fin (-2)]]].

(** The same sentence with a beam of one item whose two best words have the
    same log-probability. *)
Definition single_search : @LexicallyConstrainedBeamSearch.state OrderedConstraintState :=
  LexicallyConstrainedBeamSearch.mkState 0 3 2 5 0 [[satisfied]].

Definition single_tie_lprobs : list matrix :=
  [[[NegInf; Fin (-9); Fin (-8); Fin (-1); Fin (-1)]]].


(* ================================================================== *)
(** * More of [torch_generator_agent.py] and [search.py]

    The block list of n-grams, the upgrade of old option files, the
    conversion of a prediction to text, the pieces of [_generate] that
    prepare the scores and the decoder input, the top-k sampling policy, and the
    pruning of constraint states. *)

(* ------------------------------------------------------------------ *)
(** ** Integer indices *)

(** [l[i]] for an integer [i]: a negative [i] counts from the end. *)
Definition get_z {A : Type} (l : list A) (i : Z) : result A :=
  if (0 <=? i)%Z then get l (Z.to_nat i)
  else if (- Z.of_nat (length l) <=? i)%Z
       then get l (Z.to_nat (Z.of_nat (length l) + i))
       else Err IndexError.

(** [t.expand(n)] of a vector: the vector itself when it has [n] entries,
    [n] copies of its entry when it has one. *)
Definition expand_as {A : Type} (t : list A) (n : nat) : result (list A) :=
  if length t =? n then Ok t
  else match t with
       | [x] => Ok (repeat x n)
       | _ => Err RuntimeError
       end.

(* ------------------------------------------------------------------ *)
(** ** [SearchBlocklist] *)

(** A Python string: the sequence of its code points. *)
Definition pystr : Type := list N.

Definition pystr_eqb (a b : pystr) : bool := list_eqb N.eqb a b.

Module SearchBlocklist.

(** [_phrases] is a set: the list holds every phrase once.  [_phrase_ngrams]
    is a dictionary: the list holds every key once, in the order of
    insertion. *)
Record state : Type := mkState {
  _phrases : list pystr;
  _phrase_ngrams : list (nat * list (list token))
}.

(** [SearchBlocklist.__init__] *)
Definition init : state := mkState [] [].

(** [__bool__] *)
Definition to_bool (self : state) : bool :=
  match _phrases self with
  | [] => false
  | _ :: _ => true
  end.

(** [if l not in d: d[l] = []] followed by [d[l].append(ngram)] *)
Fixpoint append_ngram (l : nat) (ngram : list token)
    (d : list (nat * list (list token))) : list (nat * list (list token)) :=
  match d with
  | [] => [(l, [ngram])]
  | (k, v) :: d' =>
      if k =? l then (k, v ++ [ngram]) :: d'
      else (k, v) :: append_ngram l ngram d'
  end.

Section WithDictionary.
(** [self.dict.txt2vec] *)
Variable txt2vec : pystr -> list token.

Definition _add_literal (self : state) (phrase_literal : pystr) : state :=
  if existsb (pystr_eqb phrase_literal) (_phrases self) then self
  else
    let ngram := txt2vec phrase_literal in
    mkState (phrase_literal :: _phrases self)
            (append_ngram (length ngram) ngram (_phrase_ngrams self)).

(** [str.strip], [str.lower], [str.upper] and [str.title] *)
Variables strip lower upper title : pystr -> pystr.

(** The twelve literals that [add] adds for a phrase, in its order. *)
Definition variants (phrase : pystr) : list pystr :=
  let s := [115%N] in
  let S_ := [83%N] in
  let head := firstn 1 phrase in
  let tail := skipn 1 phrase in
  [phrase; phrase ++ s;
   lower phrase; lower phrase ++ s;
   upper phrase; upper phrase ++ S_;
   title phrase; title phrase ++ S_;
   upper head ++ tail; upper head ++ tail ++ s;
   upper head ++ lower tail; upper head ++ lower tail ++ s].

Definition add (self : state) (phrase : pystr) : state :=
  let phrase := strip phrase in
  match phrase with
  | [] => self
  | _ :: _ => fold_left _add_literal (variants phrase) self
  end.

(** The loop of [_load_beam_block_list] over the lines of the file. *)
Definition load_lines (lines : list pystr) : state :=
  fold_left (fun bl line => add bl (strip line)) lines init.

End WithDictionary.

(** [items] *)
Definition items (self : state) : list (Z * list (list token)) :=
  map (fun kv => (Z.of_nat (fst kv), snd kv)) (_phrase_ngrams self).

End SearchBlocklist.

(* ------------------------------------------------------------------ *)
(** ** [TorchGeneratorAgent.upgrade_opt] *)

(** The values of an option file. *)
Inductive value : Type :=
| VNone
| VBool (b : bool)
| VInt (z : Z)
| VFloat (q : Q)
| VStr (s : string).

(** An [Opt]: a dictionary, in the order of insertion. *)
Definition Opt : Type := list (string * value).

(** [key in d] *)
Definition dict_mem (d : Opt) (key : string) : bool :=
  existsb (fun kv => String.eqb (fst kv) key) d.

(** [d[key]]: a [KeyError] (here [RuntimeError]) when absent. *)
Fixpoint dict_item (d : Opt) (key : string) : result value :=
  match d with
  | [] => Err RuntimeError
  | (k, v) :: d' => if String.eqb k key then Ok v else dict_item d' key
  end.

(** [d[key] = v] *)
Fixpoint dict_set (d : Opt) (key : string) (v : value) : Opt :=
  match d with
  | [] => [(key, v)]
  | (k, w) :: d' =>
      if String.eqb k key then (k, v) :: d'
      else (k, w) :: dict_set d' key v
  end.

(** [del d[key]] *)
Fixpoint dict_del (d : Opt) (key : string) : result Opt :=
  match d with
  | [] => Err RuntimeError
  | (k, w) :: d' =>
      if String.eqb k key then Ok d'
      else r <- dict_del d' key ;; Ok ((k, w) :: r)
  end.

(** [v == 1] *)
Definition eq_one (v : value) : bool :=
  match v with
  | VInt z => (z =? 1)%Z
  | VBool b => b
  | VFloat q => Qeq_bool q 1
  | VNone | VStr _ => false
  end.

(** [v is not None] *)
Definition is_not_none (v : value) : bool :=
  match v with
  | VNone => false
  | _ => true
  end.

(** [upgrade_opt], from the dictionary that the parent class returns. *)
Definition upgrade_opt (opt_from_disk : Opt) : result Opt :=
  o1 <- (if negb (dict_mem opt_from_disk "inference")
         then
           _ <- assert (dict_mem opt_from_disk "beam_size") ;;
           bs <- dict_item opt_from_disk "beam_size" ;;
           let method := if eq_one bs then "greedy"%string
                         else "beam"%string in
           Ok (dict_set opt_from_disk "inference" (VStr method))
         else Ok opt_from_disk) ;;
  o2 <- (if dict_mem o1 "beam_blacklist_filename"
         then
           old <- dict_item o1 "beam_blacklist_filename" ;;
           let o := if is_not_none old
                    then dict_set o1 "beam_block_list_filename" old
                    else o1 in
           dict_del o "beam_blacklist_filename"
         else Ok o1) ;;
  Ok (if negb (dict_mem o2 "beam_block_full_context")
      then dict_set o2 "beam_block_full_context" (VBool false)
      else o2).

(* ------------------------------------------------------------------ *)
(** ** [TorchGeneratorAgent._v2t] *)

(** The loop of [_v2t]: the tokens handed to [vec2txt]. *)
Fixpoint _v2t_tokens (START_IDX END_IDX : token) (vec : list token)
  : list token :=
  match vec with
  | [] => []
  | i :: rest =>
      if i =? END_IDX then []
      else if negb (i =? START_IDX)
           then i :: _v2t_tokens START_IDX END_IDX rest
           else _v2t_tokens START_IDX END_IDX rest
  end.

Definition _v2t {T : Type} (vec2txt : list token -> result T)
    (START_IDX END_IDX : token) (vec : list token) : result T :=
  vec2txt (_v2t_tokens START_IDX END_IDX vec).

(* ------------------------------------------------------------------ *)
(** ** Accessors of [TreeSearch] *)

Definition get_output_from_current_step (self : TreeSearch.state)
  : result (list token) :=
  get_last (TreeSearch.outputs self).

Definition get_backtrack_from_current_step (self : TreeSearch.state)
  : result (list nat) :=
  get_last (TreeSearch.bookkeep self).

(* ------------------------------------------------------------------ *)
(** ** The top-k sampling policy *)

Module TopKSampling.

(** [select_paths] for the draws [choices] of
    [torch.multinomial(probs, 1)[:, 0]]: one position among the [k] retained
    per row. *)
Definition select_paths (k : nat) (choices : list nat)
    (self : TreeSearch.state) (logprobs : matrix)
    (prior_scores : list lprob) (current_length : Z)
  : result TreeSearch.selection :=
  top <- mapM (topk k) logprobs ;;
  _ <- (if length choices =? length logprobs then Ok tt
        else Err RuntimeError) ;;
  let hyp_ids := seq 0 (length logprobs) in
  picked <- mapM (fun h => row <- get top h ;;
                           c <- get choices h ;;
                           get row c) hyp_ids ;;
  let tok_ids := map fst picked in
  let scores := map snd picked in
  prior <- expand_as prior_scores (length scores) ;;
  Ok (hyp_ids, tok_ids,
      map (fun ps => sadd (fst ps) (snd ps)) (combine prior scores)).

End TopKSampling.

(* ------------------------------------------------------------------ *)
(** ** The scores and the decoder input of [_generate] *)

(** [score[:, :, self.pad] = -math.inf] *)
Definition mask_pad (pad : token) (score : list matrix)
  : result (list matrix) :=
  mapM (mapM (fun row => set_at row pad NegInf)) score.

(** [score[:, :, self.unk] -= self.unk_penalty] with the penalty [0.0] that
    [_generate] sets: every score keeps its value. *)
Definition sub_unk_penalty (unk : token) (score : list matrix)
  : result (list matrix) :=
  mapM (mapM (fun row => x <- get row unk ;; set_at row unk x)) score.

(** [score.gather(-1, prefix_toks.unsqueeze(-1))] in one row: an index
    outside of the row is an error of torch. *)
Definition gather_row (row : list lprob) (p : token) : result lprob :=
  match nth_error row p with
  | Some x => Ok x
  | None => Err RuntimeError
  end.

(** The forcing of the prefix tokens of one time step: [prefix_toks] is
    [prefix_tokens[:, _ts]], one token per sentence, which the code repeats
    for the rows of the sentence's beam.  [gather] reads the score of the
    prefix token in every row, also where the token is [NULL_IDX], and fails
    when there are more prefix tokens than sentences; with fewer prefix
    tokens than sentences the mask of the assignment is too short. *)
Definition force_prefix (NULL_IDX : token) (prefix_toks : list token)
    (score : list matrix) : result (list matrix) :=
  if length score <? length prefix_toks then Err RuntimeError
  else
    prefix_score <-
      mapM (fun pm : token * matrix =>
              mapM (fun row => gather_row row (fst pm)) (snd pm))
           (combine prefix_toks score) ;;
    if length prefix_toks <? length score then Err IndexError
    else
      mapM (fun pms : token * matrix * list lprob =>
              let '(p, m, ps) := pms in
              if p =? NULL_IDX then Ok m
              else
                mapM (fun rs : list lprob * lprob =>
                        set_at (map (fun _ => neginf) (fst rs)) p (snd rs))
                     (combine m ps))
           (combine (combine prefix_toks score) prefix_score).

(** The scores that one time step of [_generate] hands to the beams, from
    the log-softmax on.  [prefix_toks] is [Some (prefix_tokens[:, _ts])] when
    prefix tokens are given and [_ts] is below their length, and [None]
    otherwise.  The scores of this development hold no NaN, so the
    replacement of NaN by minus infinity changes nothing. *)
Definition step_scores (pad unk NULL_IDX : token)
    (prefix_toks : option (list token)) (score : list matrix)
  : result (list matrix) :=
  score <- mask_pad pad score ;;
  score <- sub_unk_penalty unk score ;;
  match prefix_toks with
  | Some prefix_toks => force_prefix NULL_IDX prefix_toks score
  | None => Ok score
  end.

Definition _get_initial_decoder_input (START_IDX : token)
    (bsz beam_size : nat) : list (list token) :=
  repeat [START_IDX] (bsz * beam_size).

(** [torch.cat([a, b], dim=-1)] of two matrices *)
Definition cat_columns {A : Type} (a b : list (list A))
  : result (list (list A)) :=
  if length a =? length b
  then Ok (map (fun ps => fst ps ++ snd ps) (combine a b))
  else Err RuntimeError.

Definition _get_next_decoder_input (prev_input : list (list token))
    (selection : list (list token)) (incr_state_inds : list nat)
  : result (list (list token)) :=
  prev_input <- take_at prev_input incr_state_inds ;;
  cat_columns prev_input selection.

(** [torch.cat([beam_size * i + b.get_backtrack_from_current_step()
                for i, b in enumerate(beams)])] *)
Definition incr_state_inds (beam_size : nat) (beams : list TreeSearch.state)
  : result (list nat) :=
  parts <- mapM (fun ib : nat * TreeSearch.state =>
                   bk <- get_backtrack_from_current_step (snd ib) ;;
                   Ok (map (fun h => beam_size * fst ib + h) bk))
                (enumerate beams) ;;
  Ok (concat parts).

(** [torch.cat([b.get_output_from_current_step() for b in beams])
      .unsqueeze(-1)] *)
Definition selection_of (beams : list TreeSearch.state)
  : result (list (list token)) :=
  outs <- mapM get_output_from_current_step beams ;;
  Ok (map (fun t => [t]) (concat outs)).

(** The decoder input of the next time step of [_generate]. *)
Definition next_decoder_input (beam_size : nat)
    (beams : list TreeSearch.state) (decoder_input : list (list token))
  : result (list (list token)) :=
  inds <- incr_state_inds beam_size beams ;;
  selection <- selection_of beams ;;
  _get_next_decoder_input decoder_input selection inds.

(* ------------------------------------------------------------------ *)
(** ** [LexicallyConstrainedBeamSearch.prune_sentences] *)

Definition prune_sentences {cs : Type}
    (self : @LexicallyConstrainedBeamSearch.state cs) (batch_idxs : list Z)
  : result (@LexicallyConstrainedBeamSearch.state cs) :=
  kept <- mapM (get_z (LexicallyConstrainedBeamSearch.constraint_states self))
               batch_idxs ;;
  Ok (LexicallyConstrainedBeamSearch.with_constraint_states self kept).

(* ------------------------------------------------------------------ *)
(** ** Predicates of the properties *)

(** The test of [_block_ngrams] and [_block_block_list] on an n-gram [g]:
    [ngram_size == 1 or prefix == list(ngram[:-1])]. *)
Definition blocks (n : Z) (prefix g : list token) : Prop :=
  n = 1%Z \/ removelast g = prefix.

(* ------------------------------------------------------------------ *)
(** ** More sample inputs *)

(** A beam of one slot that blocks the words of its hypothesis. *)
Definition unigram_beam : TreeSearch.state :=
  TreeSearch.init 1 1 (-1) 0 1 2 0 (65 # 100)%Q.

(** A beam of one slot whose block list holds the start token followed by
    the word 3. *)
Definition listed_beam : TreeSearch.state :=
  configure (TreeSearch.init 1 (-1) (-1) 0 1 2 0 (65 # 100)%Q) None
    (Some [(2%Z, [[1; 3]])]).

(** The invariant of a block list: a dictionary with one entry per size,
    under each size n-grams of that size, and the n-gram of every phrase of
    the set. *)
Definition wf_blocklist (txt2vec : pystr -> list token)
    (bl : SearchBlocklist.state) : Prop :=
  NoDup (map fst (SearchBlocklist._phrase_ngrams bl)) /\
  Forall (fun kv : nat * list (list token) =>
            snd kv <> [] /\ Forall (fun g => length g = fst kv) (snd kv))
         (SearchBlocklist._phrase_ngrams bl) /\
  forall p, In p (SearchBlocklist._phrases bl) ->
            exists ngrams,
              In (length (txt2vec p), ngrams)
                 (SearchBlocklist._phrase_ngrams bl) /\
              In (txt2vec p) ngrams.

(** What one [advance] call does to a beam of [B] slots, as far as the
    decoder input is concerned: the last backpointers and tokens, and the
    partial hypotheses extended along them. *)
Definition advanced (B : nat) (b b' : TreeSearch.state) : Prop :=
  exists hyps toks,
    get_backtrack_from_current_step b' = Ok hyps /\
    get_output_from_current_step b' = Ok toks /\
    length hyps = B /\ length toks = B /\
    length (TreeSearch.partial_hyps b) = B /\
    length (TreeSearch.partial_hyps b') = B /\
    forall j h t,
      nth_error hyps j = Some h -> nth_error toks j = Some t ->
      exists ph,
        nth_error (TreeSearch.partial_hyps b) h = Some ph /\
        nth_error (TreeSearch.partial_hyps b') j = Some (ph ++ [t]).

(** The last backpointers and the last tokens of a beam. *)
Definition hyps_of (b : TreeSearch.state) : list nat :=
  last (TreeSearch.bookkeep b) [].

Definition toks_of (b : TreeSearch.state) : list token :=
  last (TreeSearch.outputs b) [].

(** The beam of one slot after the word 3. *)
Definition repeat_beam : TreeSearch.state :=
  Eval vm_compute in
    match TreeSearch.advance_all (select_of Beam) single_beam
            [word_step (-1)] with
    | Ok st => st
    | Err _ => single_beam
    end.



(* ================================================================== *)
(** * Proofs *)

(** ** The exception monad *)

Lemma bind_Ok {A B : Type} (m : result A) (k : A -> result B) (b : B) :
  bind m k = Ok b -> exists a, m = Ok a /\ k a = Ok b.
Proof.
  destruct m as [a|e]; simpl; intros Hk.
  - exists a. split; [reflexivity | exact Hk].
  - discriminate.
Qed.

Lemma assert_Ok (b : bool) (u : unit) : assert b = Ok u -> b = true.
Proof. destruct b; simpl; [reflexivity | discriminate]. Qed.

(** Inversion of a successful monadic computation, one [bind] at a time. *)
Ltac inv_bind H :=
  let a := fresh "a" in
  let Ha := fresh "Ha" in
  apply bind_Ok in H; destruct H as [a [Ha H]].

Tactic Notation "bind_inv" hyp(H) "as" ident(a) ident(Ha) :=
  apply bind_Ok in H; destruct H as [a [Ha H]].

Lemma get_Ok {A : Type} (l : list A) (i : nat) (x : A) :
  get l i = Ok x <-> nth_error l i = Some x.
Proof.
  unfold get. destruct (nth_error l i); split; intros E;
    try discriminate; inversion E; reflexivity.
Qed.

Lemma get_lt {A : Type} (l : list A) (i : nat) (x : A) :
  get l i = Ok x -> i < length l.
Proof.
  intros E. apply get_Ok in E. apply nth_error_Some. congruence.
Qed.

Lemma get_of_lt {A : Type} (l : list A) (i : nat) :
  i < length l -> exists x, get l i = Ok x.
Proof.
  intros Hi. unfold get. destruct (nth_error l i) eqn:E.
  - eexists; reflexivity.
  - apply nth_error_None in E. lia.
Qed.

Lemma set_at_Ok {A : Type} (l : list A) (i : nat) (x : A) (l' : list A) :
  set_at l i x = Ok l' ->
  i < length l /\ length l' = length l /\
  nth_error l' i = Some x /\
  forall j, j <> i -> nth_error l' j = nth_error l j.
Proof.
  revert i l'. induction l as [|y l IH]; intros i l' E; simpl in E.
  - discriminate.
  - destruct i as [|i].
    + inversion E; subst. simpl. repeat split; try lia.
      intros [|j] Hj; [congruence | reflexivity].
    + inv_bind E. inversion E; subst.
      destruct (IH _ _ Ha) as (Hlt & Hlen & Hnth & Hoth).
      simpl. repeat split; try lia; auto.
      intros [|j] Hj; simpl; [reflexivity | apply Hoth; congruence].
Qed.

Lemma set_at_of_lt {A : Type} (l : list A) (i : nat) (x : A) :
  i < length l -> exists l', set_at l i x = Ok l'.
Proof.
  revert i. induction l as [|y l IH]; intros i Hi; simpl in *.
  - lia.
  - destruct i as [|i].
    + eexists; reflexivity.
    + destruct (IH i) as [l' E]; [lia|]. rewrite E. simpl.
      eexists; reflexivity.
Qed.

Lemma mapM_Ok_length {A B : Type} (f : A -> result B) (l : list A)
    (r : list B) :
  mapM f l = Ok r -> length r = length l.
Proof.
  revert r. induction l as [|x l IH]; intros r E; simpl in E.
  - inversion E; reflexivity.
  - inv_bind E. inv_bind E. inversion E; subst. simpl.
    f_equal. apply IH. assumption.
Qed.

Lemma mapM_Ok_nth {A B : Type} (f : A -> result B) (l : list A)
    (r : list B) :
  mapM f l = Ok r ->
  forall i x, nth_error l i = Some x ->
              exists y, nth_error r i = Some y /\ f x = Ok y.
Proof.
  revert r. induction l as [|x0 l IH]; intros r E i x Hx; simpl in E.
  - destruct i; discriminate.
  - inv_bind E. inv_bind E. inversion E; subst.
    destruct i as [|i]; simpl in *.
    + inversion Hx; subst. eexists; split; [reflexivity | assumption].
    + eapply IH; eassumption.
Qed.

Lemma mapM_Ok_In {A B : Type} (f : A -> result B) (l : list A)
    (r : list B) :
  mapM f l = Ok r ->
  forall y, In y r -> exists x, In x l /\ f x = Ok y.
Proof.
  revert r. induction l as [|x0 l IH]; intros r E y Hy; simpl in E.
  - inversion E; subst. destruct Hy.
  - inv_bind E. inv_bind E. inversion E; subst.
    destruct Hy as [Hy|Hy].
    + subst. exists x0. split; [left; reflexivity | assumption].
    + destruct (IH _ Ha0 _ Hy) as [x [Hin Hf]].
      exists x. split; [right; assumption | assumption].
Qed.

Lemma mapM_total {A B : Type} (f : A -> result B) (l : list A) :
  (forall x, In x l -> exists y, f x = Ok y) ->
  exists r, mapM f l = Ok r.
Proof.
  induction l as [|x l IH]; intros Hf; simpl.
  - eexists; reflexivity.
  - destruct (Hf x) as [y Hy]; [left; reflexivity|].
    destruct IH as [r Hr]; [intros; apply Hf; right; assumption|].
    rewrite Hy, Hr. simpl. eexists; reflexivity.
Qed.

(** An invariant of a [for] loop. *)
Lemma foldM_inv {A B : Type} (P : B -> Prop) (f : B -> A -> result B)
    (l : list A) :
  (forall acc x acc', In x l -> P acc -> f acc x = Ok acc' -> P acc') ->
  forall acc r, P acc -> foldM f l acc = Ok r -> P r.
Proof.
  induction l as [|x l IH]; intros Hstep acc r Hacc E; simpl in E.
  - inversion E; subst; assumption.
  - inv_bind E. eapply IH; [| |eassumption].
    + intros; eapply Hstep; eauto. right; assumption.
    + eapply Hstep; eauto. left; reflexivity.
Qed.

(** ** Scores *)

Lemma sleb_refl (a : lprob) : sleb a a = true.
Proof. destruct a; simpl; [reflexivity | apply Z.leb_refl]. Qed.

Lemma sleb_total (a b : lprob) : sleb a b = true \/ sleb b a = true.
Proof.
  destruct a, b; simpl; auto.
  destruct (Z.leb_spec z z0); [left; reflexivity | right].
  apply Z.leb_le. lia.
Qed.

Lemma sleb_trans (a b c : lprob) :
  sleb a b = true -> sleb b c = true -> sleb a c = true.
Proof.
  destruct a, b, c; simpl; intros H1 H2; try reflexivity; try discriminate.
  apply Z.leb_le in H1, H2. apply Z.leb_le. lia.
Qed.

Lemma sleb_false_lt (a b : lprob) : sleb a b = false -> sleb b a = true.
Proof.
  intros E. destruct (sleb_total a b) as [H|H]; [congruence | exact H].
Qed.

Lemma sadd_neginf_r (a : lprob) : sadd a NegInf = NegInf.
Proof. destruct a; reflexivity. Qed.

Lemma sadd_neginf_l (a : lprob) : sadd NegInf a = NegInf.
Proof. reflexivity. Qed.

Lemma sleb_neginf (a : lprob) : sleb a neginf = true <-> a = NegInf.
Proof.
  destruct a; simpl; split; intros E; try reflexivity; discriminate.
Qed.

(** ** Lists *)

Lemma In_firstn {A : Type} (n : nat) (l : list A) (x : A) :
  In x (firstn n l) -> In x l.
Proof.
  intros Hx. rewrite <- (firstn_skipn n l). apply in_or_app. left. exact Hx.
Qed.

Lemma In_skipn {A : Type} (n : nat) (l : list A) (x : A) :
  In x (skipn n l) -> In x l.
Proof.
  intros Hx. rewrite <- (firstn_skipn n l). apply in_or_app. right. exact Hx.
Qed.

(** ** Sorting *)

Section SortFacts.
Variables (A K : Type).
Variable leb : K -> K -> bool.
Variable key : A -> K.

Lemma insert_desc_perm (x : A) (l : list A) :
  Permutation (x :: l) (insert_desc leb key x l).
Proof.
  induction l as [|y l IH]; simpl.
  - apply Permutation_refl.
  - destruct (leb (key y) (key x)).
    + apply Permutation_refl.
    + eapply perm_trans; [apply perm_swap|]. apply perm_skip. exact IH.
Qed.

Lemma sort_desc_perm (l : list A) : Permutation l (sort_desc leb key l).
Proof.
  induction l as [|x l IH]; simpl.
  - apply perm_nil.
  - eapply perm_trans; [apply perm_skip; exact IH|].
    apply insert_desc_perm.
Qed.

Lemma sort_desc_length (l : list A) :
  length (sort_desc leb key l) = length l.
Proof. symmetry. apply Permutation_length, sort_desc_perm. Qed.

Lemma insert_asc_perm (x : A) (l : list A) :
  Permutation (x :: l) (insert_asc leb key x l).
Proof.
  induction l as [|y l IH]; simpl.
  - apply Permutation_refl.
  - destruct (leb (key x) (key y)).
    + apply Permutation_refl.
    + eapply perm_trans; [apply perm_swap|]. apply perm_skip. exact IH.
Qed.

Lemma sort_asc_perm (l : list A) : Permutation l (sort_asc leb key l).
Proof.
  induction l as [|x l IH]; simpl.
  - apply perm_nil.
  - eapply perm_trans; [apply perm_skip; exact IH|].
    apply insert_asc_perm.
Qed.

Hypothesis leb_total : forall a b, leb a b = true \/ leb b a = true.
Hypothesis leb_trans :
  forall a b c, leb a b = true -> leb b c = true -> leb a c = true.

Lemma insert_desc_sorted (x : A) (l : list A) :
  StronglySorted (desc A K leb key) l -> StronglySorted (desc A K leb key) (insert_desc leb key x l).
Proof.
  induction l as [|y l IH]; intros Hs; simpl.
  - constructor; [constructor | constructor].
  - inversion Hs as [|? ? Hs' Hall]; subst.
    destruct (leb (key y) (key x)) eqn:E.
    + constructor; [exact Hs|]. constructor; [exact E|].
      eapply Forall_impl; [|exact Hall].
      intros z Hz. unfold desc in *. eapply leb_trans; eassumption.
    + constructor; [apply IH; exact Hs'|].
      assert (Hxy : desc A K leb key y x).
      { unfold desc. destruct (leb_total (key x) (key y)); congruence. }
      eapply Permutation_Forall; [apply insert_desc_perm|].
      constructor; assumption.
Qed.

Lemma sort_desc_sorted (l : list A) :
  StronglySorted (desc A K leb key) (sort_desc leb key l).
Proof.
  induction l as [|x l IH]; simpl.
  - constructor.
  - apply insert_desc_sorted. exact IH.
Qed.

Lemma sorted_firstn (n : nat) (l : list A) :
  StronglySorted (desc A K leb key) l -> StronglySorted (desc A K leb key) (firstn n l).
Proof.
  revert n. induction l as [|x l IH]; intros n Hs.
  - rewrite firstn_nil. constructor.
  - destruct n as [|n]; simpl; [constructor|].
    inversion Hs as [|? ? Hs' Hall]; subst.
    constructor; [apply IH; exact Hs'|].
    apply Forall_forall. intros y Hy.
    rewrite Forall_forall in Hall. apply Hall.
    eapply In_firstn. exact Hy.
Qed.

End SortFacts.

(** ** Positions *)

Lemma indexed_from_spec {A : Type} (l : list A) (k i : nat) (x : A) :
  In (i, x) (combine (seq k (length l)) l) <->
  k <= i /\ nth_error l (i - k) = Some x.
Proof.
  revert k. induction l as [|y l IH]; intros k; simpl.
  - split; [intros [] | intros [_ E]]. destruct (i - k); discriminate.
  - split.
    + intros [E|Hin].
      * inversion E; subst. split; [lia|]. rewrite Nat.sub_diag. reflexivity.
      * apply IH in Hin. destruct Hin as [Hle E]. split; [lia|].
        replace (i - k) with (S (i - S k)) by lia. exact E.
    + intros [Hle E]. destruct (i - k) as [|d] eqn:Hd.
      * left. inversion E; subst. f_equal. lia.
      * right. apply IH. split; [lia|].
        replace (i - S k) with d by lia. exact E.
Qed.

Lemma indexed_spec {A : Type} (l : list A) (i : nat) (x : A) :
  In (i, x) (indexed l) <-> nth_error l i = Some x.
Proof.
  unfold indexed. rewrite indexed_from_spec, Nat.sub_0_r.
  split; [intros [_ E]; exact E | intros E; split; [lia | exact E]].
Qed.

Lemma indexed_fst {A : Type} (l : list A) :
  map fst (indexed l) = seq 0 (length l).
Proof.
  unfold indexed. generalize 0.
  induction l as [|y l IH]; intros k; simpl; [reflexivity|].
  f_equal. apply IH.
Qed.

Lemma indexed_length {A : Type} (l : list A) :
  length (indexed l) = length l.
Proof.
  rewrite <- (length_map fst), indexed_fst, length_seq. reflexivity.
Qed.

Lemma NoDup_firstn {A : Type} (n : nat) (l : list A) :
  NoDup l -> NoDup (firstn n l).
Proof.
  revert n. induction l as [|x l IH]; intros n Hnd.
  - rewrite firstn_nil. constructor.
  - destruct n as [|n]; simpl; [constructor|].
    inversion Hnd; subst. constructor; [|apply IH; assumption].
    intros Hin. apply In_firstn in Hin. contradiction.
Qed.

(** ** [torch.topk] *)

Lemma topk_spec (k : nat) (l : list lprob) (r : list (nat * lprob)) :
  topk k l = Ok r -> is_topk k l r.
Proof.
  unfold topk. destruct (k <=? length l) eqn:Hk; [|discriminate].
  apply Nat.leb_le in Hk. intros E. inversion E; subst; clear E.
  set (s := sort_desc sleb snd (indexed l)).
  assert (Hperm : Permutation (indexed l) s) by apply sort_desc_perm.
  assert (Hsorted : StronglySorted (desc _ _ sleb snd) s).
  { apply sort_desc_sorted; [apply sleb_total | apply sleb_trans]. }
  assert (Hnd : NoDup (map fst s)).
  { eapply Permutation_NoDup; [apply Permutation_map; exact Hperm|].
    rewrite indexed_fst. apply seq_NoDup. }
  constructor.
  - rewrite length_firstn. unfold s. rewrite sort_desc_length, indexed_length.
    lia.
  - rewrite <- firstn_map. apply NoDup_firstn. exact Hnd.
  - intros i x Hin. apply In_firstn in Hin.
    apply indexed_spec. eapply Permutation_in; [|exact Hin].
    apply Permutation_sym. exact Hperm.
  - apply sorted_firstn. exact Hsorted.
  - intros j y Hj Hout i x Hin.
    assert (Hjs : In (j, y) s).
    { eapply Permutation_in; [exact Hperm|]. apply indexed_spec. exact Hj. }
    rewrite <- (firstn_skipn k s) in Hjs. apply in_app_or in Hjs.
    destruct Hjs as [Hjs|Hjs].
    + exfalso. apply Hout. apply (in_map fst) in Hjs. exact Hjs.
    + rewrite <- (firstn_skipn k s) in Hsorted.
      clear - Hsorted Hin Hjs. revert Hsorted Hin.
      generalize (firstn k s) as front. intros front.
      induction front as [|a front IH]; intros Hs Hin; [destruct Hin|].
      simpl in Hs. inversion Hs as [|? ? Hs' Hall]; subst.
      destruct Hin as [Ha|Hin].
      * subst a. rewrite Forall_forall in Hall.
        apply (Hall (j, y)). apply in_or_app. right. exact Hjs.
      * apply IH; assumption.
Qed.

Lemma topk_total (k : nat) (l : list lprob) :
  k <= length l -> exists r, topk k l = Ok r.
Proof.
  intros Hk. unfold topk. apply Nat.leb_le in Hk. rewrite Hk.
  eexists; reflexivity.
Qed.

(** ** Flattening a matrix *)

Lemma concat_rect_length (m : matrix) (V : nat) :
  Forall (fun row => length row = V) m ->
  length (concat m) = length m * V.
Proof.
  induction 1 as [|row m Hrow _ IH]; simpl; [reflexivity|].
  rewrite length_app, IH, Hrow. reflexivity.
Qed.

Lemma nth_error_concat_rect (m : matrix) (V : nat) (i : nat) :
  0 < V ->
  Forall (fun row => length row = V) m ->
  nth_error (concat m) i =
  match nth_error m (i / V) with
  | Some row => nth_error row (i mod V)
  | None => None
  end.
Proof.
  intros HV Hrect. revert i.
  induction Hrect as [|row m Hrow _ IH]; intros i; simpl.
  - destruct i, (_ / V); reflexivity.
  - destruct (Nat.lt_ge_cases i V) as [Hlt|Hge].
    + rewrite Nat.div_small, Nat.mod_small by exact Hlt. simpl.
      apply nth_error_app1. lia.
    + rewrite nth_error_app2 by lia. rewrite Hrow, IH.
      assert (Hd : i / V = S ((i - V) / V)).
      { replace i with ((i - V) + 1 * V) at 1 by lia.
        rewrite Nat.div_add by lia. lia. }
      assert (Hm : i mod V = (i - V) mod V).
      { replace i with ((i - V) + 1 * V) at 1 by lia.
        apply Nat.Div0.mod_add. }
      rewrite Hd, Hm. reflexivity.
Qed.

(** ** [BeamSearch.select_paths] *)

Lemma nth_error_combine {A B : Type} (l1 : list A) (l2 : list B) (i : nat) :
  nth_error (combine l1 l2) i =
  match nth_error l1 i, nth_error l2 i with
  | Some a, Some b => Some (a, b)
  | _, _ => None
  end.
Proof.
  revert l2 i. induction l1 as [|a l1 IH]; intros l2 i; simpl.
  - destruct i; reflexivity.
  - destruct l2 as [|b l2]; simpl.
    + destruct i; simpl; [reflexivity|]. destruct (nth_error l1 i); reflexivity.
    + destruct i; simpl; [reflexivity | apply IH].
Qed.

(** The rows of [add_prior]: row [r] of the tensor plus the prior score of
    slot [r]. *)
Lemma add_prior_rows (lp : matrix) (prior : list lprob) (bs : matrix) :
  length prior = length lp \/ (length prior = 1 /\ length lp <= 1) ->
  add_prior lp prior = Ok bs ->
  forall r,
    nth_error bs r =
    match nth_error lp r, nth_error prior r with
    | Some row, Some p => Some (map (fun x => sadd x p) row)
    | _, _ => None
    end.
Proof.
  intros Hlen E r. unfold add_prior in E.
  destruct (length prior =? length lp) eqn:Heq.
  - inversion E; subst; clear E.
    rewrite nth_error_map, nth_error_combine.
    destruct (nth_error lp r), (nth_error prior r); reflexivity.
  - apply Nat.eqb_neq in Heq.
    destruct Hlen as [Hlen|[H1 Hle]]; [contradiction|].
    assert (lp = []) by (destruct lp; [reflexivity | simpl in *; lia]).
    subst lp. destruct prior as [|p [|q prior]]; try discriminate.
    inversion E; subst. destruct r; reflexivity.
Qed.

Lemma add_prior_total (lp : matrix) (prior : list lprob) :
  length prior = length lp \/ (length prior = 1 /\ length lp <= 1) ->
  exists bs, add_prior lp prior = Ok bs /\ length bs = length lp.
Proof.
  intros Hlen. unfold add_prior.
  destruct (length prior =? length lp) eqn:Heq.
  - eexists; split; [reflexivity|].
    apply Nat.eqb_eq in Heq. rewrite length_map, length_combine. lia.
  - apply Nat.eqb_neq in Heq.
    destruct Hlen as [Hlen|[H1 Hle]]; [contradiction|].
    destruct prior as [|p [|q prior]]; try discriminate.
    eexists; split; [reflexivity|]. apply length_map.
Qed.

Lemma add_prior_rect (lp : matrix) (prior : list lprob) (bs : matrix)
    (V : nat) :
  Forall (fun row => length row = V) lp ->
  add_prior lp prior = Ok bs ->
  Forall (fun row => length row = V) bs.
Proof.
  intros Hrect E. unfold add_prior in E.
  destruct (length prior =? length lp).
  - inversion E; subst; clear E. apply Forall_forall.
    intros row Hin. apply in_map_iff in Hin.
    destruct Hin as [[row0 p] [Hrow Hin]]. subst row. simpl.
    rewrite length_map. apply in_combine_l in Hin.
    rewrite Forall_forall in Hrect. apply Hrect. exact Hin.
  - destruct prior as [|p [|q prior]]; try discriminate.
    inversion E; subst; clear E. apply Forall_forall.
    intros row Hin. apply in_map_iff in Hin.
    destruct Hin as [row0 [Hrow Hin]]. subst row.
    rewrite length_map. rewrite Forall_forall in Hrect. apply Hrect. exact Hin.
Qed.

Lemma vocab_of_rect (lp : matrix) (V : nat) :
  Forall (fun row => length row = V) lp -> lp <> [] -> vocab_of lp = V.
Proof.
  intros Hrect Hne. destruct lp as [|row lp]; [congruence|].
  inversion Hrect; subst. reflexivity.
Qed.

Lemma beam_view_length (lp : matrix) (prior : list lprob) :
  length (beam_view lp prior) = beam_rows lp prior.
Proof.
  unfold beam_view, beam_rows. destruct (length prior =? 1).
  - apply length_firstn.
  - reflexivity.
Qed.

Lemma beam_view_nth (lp : matrix) (prior : list lprob) (r : nat) :
  r < beam_rows lp prior ->
  nth_error (beam_view lp prior) r = nth_error lp r.
Proof.
  unfold beam_view, beam_rows. destruct (length prior =? 1); [|reflexivity].
  intros Hr. rewrite nth_error_firstn.
  destruct (Nat.ltb_spec r 1); [reflexivity | lia].
Qed.

Lemma beam_view_rect (lp : matrix) (prior : list lprob) (V : nat) :
  Forall (fun row => length row = V) lp ->
  Forall (fun row => length row = V) (beam_view lp prior).
Proof.
  intros Hrect. apply Forall_forall. intros row Hin.
  rewrite Forall_forall in Hrect. apply Hrect.
  unfold beam_view in Hin. destruct (length prior =? 1); [|exact Hin].
  eapply In_firstn. exact Hin.
Qed.

Lemma beam_view_prior (lp : matrix) (prior : list lprob) :
  length prior = length lp \/ length prior = 1 ->
  length prior = length (beam_view lp prior) \/
  (length prior = 1 /\ length (beam_view lp prior) <= 1).
Proof.
  intros Hlen. unfold beam_view.
  destruct (length prior =? 1) eqn:E.
  - apply Nat.eqb_eq in E. right. split; [exact E|].
    rewrite length_firstn. lia.
  - apply Nat.eqb_neq in E. left. destruct Hlen; [assumption | contradiction].
Qed.

Lemma beam_view_vocab (lp : matrix) (prior : list lprob) :
  0 < beam_rows lp prior -> vocab_of (beam_view lp prior) = vocab_of lp.
Proof.
  unfold beam_view, beam_rows. destruct (length prior =? 1); [|reflexivity].
  destruct lp; simpl; [lia | reflexivity].
Qed.

(** The flattened scores are the score space. *)
Lemma flat_beam_scores_spec (lp : matrix) (prior : list lprob) (bs : matrix)
    (i : nat) :
  0 < vocab_of lp ->
  Forall (fun row => length row = vocab_of lp) lp ->
  length prior = length lp \/ length prior = 1 ->
  add_prior (beam_view lp prior) prior = Ok bs ->
  i < beam_rows lp prior * vocab_of lp ->
  nth_error (concat bs) i = flat_score lp prior i.
Proof.
  intros HV Hrect Hlen E Hi.
  assert (Hr : i / vocab_of lp < beam_rows lp prior).
  { apply Nat.Div0.div_lt_upper_bound. lia. }
  rewrite (nth_error_concat_rect bs (vocab_of lp)); [|exact HV|].
  2:{ eapply add_prior_rect; [|exact E]. apply beam_view_rect. exact Hrect. }
  rewrite (add_prior_rows _ _ _ (beam_view_prior _ _ Hlen) E).
  rewrite beam_view_nth by exact Hr. unfold flat_score.
  destruct (nth_error lp (i / vocab_of lp)) as [row|]; [|reflexivity].
  destruct (nth_error prior (i / vocab_of lp)) as [p|]; [|reflexivity].
  rewrite nth_error_map.
  destruct (nth_error row (i mod vocab_of lp)); reflexivity.
Qed.

Lemma beam_select_paths_unfold (self : TreeSearch.state) (lp : matrix)
    (prior : list lprob) (len : Z) :
  BeamSearch.select_paths self lp prior len =
  (beam_scores <- add_prior (beam_view lp prior) prior ;;
   best <- topk (TreeSearch.beam_size self) (concat beam_scores) ;;
   Ok (map (fun p => fst p / vocab_of (beam_view lp prior)) best,
       map (fun p => fst p mod vocab_of (beam_view lp prior)) best,
       map snd best)).
Proof. reflexivity. Qed.

(** ** Maskings of the log-probability tensor *)

Lemma Forall2_refl_on {A : Type} (R : A -> A -> Prop) (l : list A) :
  (forall x, R x x) -> Forall2 R l l.
Proof. intros HR. induction l; constructor; auto. Qed.

Lemma Forall2_trans_on {A : Type} (R : A -> A -> Prop) (l1 l2 l3 : list A) :
  (forall x y z, R x y -> R y z -> R x z) ->
  Forall2 R l1 l2 -> Forall2 R l2 l3 -> Forall2 R l1 l3.
Proof.
  intros HR H12. revert l3. induction H12; intros l3 H23; inversion H23; subst;
    constructor; eauto.
Qed.

Lemma masked_row_refl (row : list lprob) :
  Forall2 (fun x x' : lprob => x' = x \/ x' = NegInf) row row.
Proof. apply Forall2_refl_on. intros x. left. reflexivity. Qed.

Lemma masked_from_refl (lp : matrix) : masked_from lp lp.
Proof. apply Forall2_refl_on. apply masked_row_refl. Qed.

Lemma masked_from_trans (lp1 lp2 lp3 : matrix) :
  masked_from lp1 lp2 -> masked_from lp2 lp3 -> masked_from lp1 lp3.
Proof.
  apply Forall2_trans_on. intros r1 r2 r3.
  apply Forall2_trans_on. intros x y z [Hy|Hy] [Hz|Hz]; subst; auto.
Qed.

Lemma set_at_Forall2 {A : Type} (R : A -> A -> Prop) (l : list A) (i : nat)
    (x : A) (l' : list A) :
  (forall a, R a a) ->
  (forall a, nth_error l i = Some a -> R a x) ->
  set_at l i x = Ok l' -> Forall2 R l l'.
Proof.
  intros Hrefl. revert i l'.
  induction l as [|y l IH]; intros i l' Hx E; simpl in E; [discriminate|].
  destruct i as [|i].
  - inversion E; subst. constructor; [apply Hx; reflexivity|].
    apply Forall2_refl_on. exact Hrefl.
  - inv_bind E. inversion E; subst. constructor; [apply Hrefl|].
    eapply IH; [|exact Ha]. intros b Hb. apply Hx. exact Hb.
Qed.

Lemma set2_masked (lp : matrix) (r c : nat) (lp' : matrix) :
  set2 lp r c neginf = Ok lp' -> masked_from lp lp'.
Proof.
  unfold set2. intros E. inv_bind E. inv_bind E.
  eapply set_at_Forall2; [apply masked_row_refl| |exact E].
  intros row Hrow. apply get_Ok in Ha. rewrite Ha in Hrow.
  inversion Hrow; subst.
  eapply set_at_Forall2; [| |exact Ha0].
  - intros x. left. reflexivity.
  - intros x _. right. reflexivity.
Qed.

Lemma foldM_masked {A : Type} (f : matrix -> A -> result matrix)
    (l : list A) :
  (forall lp x lp', f lp x = Ok lp' -> masked_from lp lp') ->
  forall lp lp', foldM f l lp = Ok lp' -> masked_from lp lp'.
Proof.
  intros Hf lp lp' E.
  refine (foldM_inv (fun m => masked_from lp m) f l _ lp lp' _ E).
  - intros acc x acc' _ Hacc Hx. eapply masked_from_trans; [exact Hacc|].
    eapply Hf. exact Hx.
  - apply masked_from_refl.
Qed.

Lemma block_one_masked (n : Z) (beam_id : nat) (prefix : list token)
    (lp : matrix) (ngram : list token) (lp' : matrix) :
  TreeSearch.block_one n beam_id prefix lp ngram = Ok lp' ->
  masked_from lp lp'.
Proof.
  unfold TreeSearch.block_one.
  destruct (_ || _); intros E.
  - inv_bind E. eapply set2_masked. exact E.
  - inversion E; subst. apply masked_from_refl.
Qed.

Lemma block_ngrams_masked (self : TreeSearch.state) (n : Z) (lp : matrix)
    (source : option (list token)) (lp' : matrix) :
  TreeSearch._block_ngrams self n lp source = Ok lp' -> masked_from lp lp'.
Proof.
  unfold TreeSearch._block_ngrams. apply foldM_masked.
  intros m [beam_id hyp] m'. destruct (_ <? _)%Z; intros E.
  - inversion E; subst. apply masked_from_refl.
  - revert E. apply foldM_masked. intros ? ? ?. apply block_one_masked.
Qed.

Lemma block_block_list_masked (self : TreeSearch.state) (lp lp' : matrix) :
  TreeSearch._block_block_list self lp = Ok lp' -> masked_from lp lp'.
Proof.
  unfold TreeSearch._block_block_list.
  destruct (TreeSearch.block_list self) as [items|]; intros E.
  - revert E. apply foldM_masked. intros m [beam_id hyp] m'.
    apply foldM_masked. intros m1 [n bad] m1'.
    apply foldM_masked. intros ? ? ?. apply block_one_masked.
  - inversion E; subst. apply masked_from_refl.
Qed.

Lemma block_all_masked (self : TreeSearch.state) (lp lp' : matrix) :
  TreeSearch.block_all self lp = Ok lp' -> masked_from lp lp'.
Proof.
  unfold TreeSearch.block_all. intros E. inv_bind E. inv_bind E.
  assert (H1 : masked_from lp a).
  { destruct (0 <? TreeSearch.block_ngram self)%Z.
    - eapply block_ngrams_masked. exact Ha.
    - inversion Ha; subst. apply masked_from_refl. }
  assert (H2 : masked_from a a0) by (eapply block_block_list_masked; exact Ha0).
  eapply masked_from_trans; [exact H1|].
  eapply masked_from_trans; [exact H2|].
  destruct (0 <? TreeSearch.context_block_ngram self)%Z.
  - destruct (TreeSearch.context self); [|discriminate].
    eapply block_ngrams_masked. exact E.
  - inversion E; subst. apply masked_from_refl.
Qed.

Lemma min_length_guard_masked (self : TreeSearch.state) (lp lp' : matrix) :
  TreeSearch.min_length_guard self lp = Ok lp' -> masked_from lp lp'.
Proof.
  unfold TreeSearch.min_length_guard. destruct (_ <? _)%Z; intros E.
  - revert E. apply foldM_masked. intros ? ? ?. apply set2_masked.
  - inversion E; subst. apply masked_from_refl.
Qed.

Lemma masked_from_length (lp lp' : matrix) :
  masked_from lp lp' -> length lp' = length lp.
Proof. intros H. symmetry. eapply Forall2_length. exact H. Qed.

Lemma Forall2_nth_error {A B : Type} (R : A -> B -> Prop) (l : list A)
    (l' : list B) (i : nat) :
  Forall2 R l l' ->
  match nth_error l i, nth_error l' i with
  | Some a, Some b => R a b
  | None, None => True
  | _, _ => False
  end.
Proof.
  intros H. revert i. induction H; intros [|i]; simpl; auto. apply IHForall2.
Qed.

Lemma masked_from_entry (lp lp' : matrix) (r c : nat) (x' : lprob) :
  masked_from lp lp' ->
  get2 lp' r c = Ok x' ->
  x' = NegInf \/ get2 lp r c = Ok x'.
Proof.
  intros Hm E. unfold get2 in *. inv_bind E. apply get_Ok in Ha, E.
  pose proof (Forall2_nth_error _ _ _ r Hm) as Hr. rewrite Ha in Hr.
  destruct (nth_error lp r) as [row|] eqn:Erow; [|contradiction].
  pose proof (Forall2_nth_error _ _ _ c Hr) as Hc. rewrite E in Hc.
  destruct (nth_error row c) as [x|] eqn:Ex; [|contradiction].
  destruct Hc as [Hc|Hc]; [right | left; exact Hc].
  subst x'. unfold get. rewrite Erow. simpl. unfold get. rewrite Ex.
  reflexivity.
Qed.

Lemma masked_from_rect (lp lp' : matrix) (V : nat) :
  masked_from lp lp' ->
  Forall (fun row => length row = V) lp ->
  Forall (fun row => length row = V) lp'.
Proof.
  induction 1 as [|row row' lp lp' Hrow _ IH]; intros Hrect; constructor;
    inversion Hrect; subst.
  - symmetry. eapply Forall2_length. exact Hrow.
  - apply IH. assumption.
Qed.

Lemma masked_from_vocab (lp lp' : matrix) :
  masked_from lp lp' -> vocab_of lp' = vocab_of lp.
Proof.
  destruct 1 as [|row row' lp lp' Hrow _]; simpl; [reflexivity|].
  symmetry. eapply Forall2_length. exact Hrow.
Qed.

Lemma masked_from_column (lp lp' : matrix) (c : nat) :
  masked_from lp lp' -> column_neginf c lp -> column_neginf c lp'.
Proof.
  unfold column_neginf.
  induction 1 as [|row row' lp lp' Hrow _ IH]; intros Hcol; constructor;
    inversion Hcol; subst.
  - pose proof (Forall2_nth_error _ _ _ c Hrow) as Hc.
    rewrite H1 in Hc. destruct (nth_error row' c); [|contradiction].
    destruct Hc; subst; reflexivity.
  - apply IH. assumption.
Qed.

(** The loop of the minimum-length guard writes the end-token column of
    every row. *)
Lemma guard_loop_spec (e : token) (rest pre : matrix) (lp' : matrix) :
  foldM (fun lp hyp_id => set2 lp hyp_id e neginf)
        (seq (length pre) (length rest)) (pre ++ rest) = Ok lp' ->
  exists rest', lp' = pre ++ rest' /\ column_neginf e rest'.
Proof.
  revert pre lp'. induction rest as [|row rest IH]; intros pre lp' E;
    simpl in E.
  - inversion E; subst. exists []. split; [reflexivity | constructor].
  - inv_bind E. unfold set2 in Ha. inv_bind Ha. inv_bind Ha.
    apply get_Ok in Ha0. rewrite nth_error_app2 in Ha0 by lia.
    rewrite Nat.sub_diag in Ha0. simpl in Ha0. inversion Ha0; subst a0.
    destruct (set_at_Ok _ _ _ _ Ha1) as (_ & _ & Hnth & _).
    assert (Ea : a = (pre ++ [a1]) ++ rest).
    { clear - Ha. revert a Ha. induction pre as [|p pre IHp]; intros a Ha;
        simpl in *.
      - inversion Ha; reflexivity.
      - inv_bind Ha. inversion Ha; subst. f_equal. apply IHp. exact Ha0. }
    subst a. replace (S (length pre)) with (length (pre ++ [a1])) in E
      by (rewrite length_app; simpl; lia).
    destruct (IH _ _ E) as [rest' [Hlp Hcol]].
    exists (a1 :: rest'). split.
    + rewrite Hlp, <- app_assoc. reflexivity.
    + constructor; assumption.
Qed.

Lemma min_length_guard_active (self : TreeSearch.state) (lp lp' : matrix) :
  (TreeSearch.current_length self < TreeSearch.min_length self)%Z ->
  TreeSearch.min_length_guard self lp = Ok lp' ->
  column_neginf (TreeSearch.eos self) lp'.
Proof.
  unfold TreeSearch.min_length_guard, TreeSearch.current_length.
  intros Hlt E. apply Z.ltb_lt in Hlt. rewrite Hlt in E.
  destruct (guard_loop_spec (TreeSearch.eos self) lp [] lp' E)
    as [rest' [Hlp Hcol]].
  subst lp'. exact Hcol.
Qed.

Lemma min_length_guard_inactive (self : TreeSearch.state) (lp : matrix) :
  (TreeSearch.min_length self <= TreeSearch.current_length self)%Z ->
  TreeSearch.min_length_guard self lp = Ok lp.
Proof.
  unfold TreeSearch.min_length_guard, TreeSearch.current_length.
  intros Hle. apply Z.ltb_ge in Hle. rewrite Hle. reflexivity.
Qed.

(** ** Inversion of [advance] *)

Lemma prepare_Ok (self : TreeSearch.state) (lp lp1 : matrix)
    (sc1 : list lprob) :
  TreeSearch.prepare self lp = Ok (lp1, sc1) ->
  exists lp0,
    TreeSearch.min_length_guard self lp = Ok lp0 /\
    TreeSearch.penalize_eos self
      (match TreeSearch.scores self with None => [Fin 0] | Some s => s end)
    = Ok sc1 /\
    TreeSearch.block_all self lp0 = Ok lp1.
Proof.
  unfold TreeSearch.prepare. intros E. inv_bind E. inv_bind E. inv_bind E.
  inversion E; subst. eauto.
Qed.

Lemma advance_Ok
    (sel : TreeSearch.state -> matrix -> list lprob -> Z ->
           result TreeSearch.selection)
    (self : TreeSearch.state) (lp : matrix) (self' : TreeSearch.state)
    (lp' : matrix) :
  TreeSearch.advance sel self lp = Ok (self', lp') ->
  exists sc1 res,
    TreeSearch.prepare self lp = Ok (lp', sc1) /\
    sel self lp' sc1 (TreeSearch.current_length self) = Ok res /\
    TreeSearch.record_step self res = Ok self'.
Proof.
  unfold TreeSearch.advance. intros E. inv_bind E. destruct a as [lp1 sc1].
  simpl in E. inv_bind E. inv_bind E. inversion E; subst. eauto.
Qed.

Lemma prepare_masked (self : TreeSearch.state) (lp lp1 : matrix)
    (sc1 : list lprob) :
  TreeSearch.prepare self lp = Ok (lp1, sc1) -> masked_from lp lp1.
Proof.
  intros E. destruct (prepare_Ok _ _ _ _ E) as (lp0 & Hg & _ & Hb).
  eapply masked_from_trans.
  - eapply min_length_guard_masked. exact Hg.
  - eapply block_all_masked. exact Hb.
Qed.

Lemma prepare_eos_column (self : TreeSearch.state) (lp lp1 : matrix)
    (sc1 : list lprob) :
  (TreeSearch.current_length self < TreeSearch.min_length self)%Z ->
  TreeSearch.prepare self lp = Ok (lp1, sc1) ->
  column_neginf (TreeSearch.eos self) lp1.
Proof.
  intros Hlt E. destruct (prepare_Ok _ _ _ _ E) as (lp0 & Hg & _ & Hb).
  eapply masked_from_column.
  - eapply block_all_masked. exact Hb.
  - eapply min_length_guard_active; eassumption.
Qed.

(** ** [record_step] *)

Lemma record_step_Ok (self : TreeSearch.state) (hyps : list nat)
    (toks : list token) (scs : list lprob) (self' : TreeSearch.state) :
  TreeSearch.record_step self (hyps, toks, scs) = Ok self' ->
  TreeSearch.beam_size self' = TreeSearch.beam_size self /\
  TreeSearch.min_length self' = TreeSearch.min_length self /\
  TreeSearch.eos self' = TreeSearch.eos self /\
  TreeSearch.bos self' = TreeSearch.bos self /\
  TreeSearch.length_penalty self' = TreeSearch.length_penalty self /\
  TreeSearch.scores self' = Some scs /\
  TreeSearch.all_scores self' = TreeSearch.all_scores self ++ [scs] /\
  TreeSearch.outputs self' = TreeSearch.outputs self ++ [toks] /\
  TreeSearch.bookkeep self' = TreeSearch.bookkeep self ++ [hyps] /\
  (exists extra,
      TreeSearch.finished self' = TreeSearch.finished self ++ extra /\
      Forall (new_tail self toks scs) extra) /\
  (forall i, i < TreeSearch.beam_size self ->
             exists h t, nth_error hyps i = Some h /\
                         nth_error toks i = Some t /\
                         h < length (TreeSearch.partial_hyps self)).
Proof.
  unfold TreeSearch.record_step. intros E.
  inv_bind E. rename a into partial', Ha into Hpartial.
  inv_bind E. rename a into fin, Ha into Hfin.
  inv_bind E. inversion E; subst; clear E. simpl.
  repeat split; try reflexivity.
  - (* the finished traces *)
    revert Hfin.
    set (f := fun (acc : list (TreeSearch.HypothesisTail lprob) * nat) hypid => _).
    intros Hfin.
    refine (foldM_inv
              (fun acc => exists extra,
                   fst acc = TreeSearch.finished self ++ extra /\
                   Forall (new_tail self toks scs) extra)
              f (seq 0 (TreeSearch.beam_size self)) _ _ fin _ Hfin).
    + intros acc i acc' Hi [extra [Hacc Hextra]] Hstep.
      apply in_seq in Hi. unfold f in Hstep. bind_inv Hstep as t Ht.
      destruct (Nat.eqb_spec t (TreeSearch.eos self)) as [Heos|Hne].
      * bind_inv Hstep as s Hsc. destruct (sleb s neginf) eqn:Hs.
        -- inversion Hstep; subst. exists extra. split; assumption.
        -- inversion Hstep; subst; clear Hstep. simpl.
           eexists (extra ++ [_]). split.
           ++ rewrite Hacc, <- app_assoc. reflexivity.
           ++ apply Forall_app. split; [exact Hextra|].
              constructor; [|constructor].
              apply get_Ok in Ht, Hsc.
              unfold new_tail. simpl. rewrite length_app. simpl.
              repeat split; try lia; try assumption.
              intros Hn. subst s. simpl in Hs. discriminate.
      * inversion Hstep; subst. exists extra. split; assumption.
    + exists []. split; [rewrite app_nil_r; reflexivity | constructor].
  - (* the sources of the new partial hypotheses *)
    intros i Hi.
    assert (Hin : In i (seq 0 (TreeSearch.beam_size self))).
    { apply in_seq. lia. }
    destruct (nth_error (seq 0 (TreeSearch.beam_size self)) i) as [i'|] eqn:Ei.
    2:{ apply nth_error_None in Ei. rewrite length_seq in Ei. lia. }
    assert (i' = i).
    { apply nth_error_nth with (d := 0) in Ei. rewrite seq_nth in Ei by lia.
      simpl in Ei. congruence. }
    subst i'.
    destruct (mapM_Ok_nth _ _ _ Hpartial _ _ Ei) as [y [_ Hy]].
    bind_inv Hy as h Hh. bind_inv Hy as ph Hph. bind_inv Hy as t Ht.
    apply get_Ok in Hh. apply get_lt in Hph. apply get_Ok in Ht.
    eauto.
Qed.

(** ** The scores that the policies return *)

Lemma add_prior_Ok_length (lp : matrix) (prior : list lprob) (bs : matrix) :
  add_prior (beam_view lp prior) prior = Ok bs ->
  length prior = length lp \/ length prior = 1.
Proof.
  unfold add_prior, beam_view.
  destruct (length prior =? 1) eqn:E1.
  - intros _. right. apply Nat.eqb_eq. exact E1.
  - destruct (length prior =? length lp) eqn:E2.
    + intros _. left. apply Nat.eqb_eq. exact E2.
    + destruct prior as [|p [|q prior]]; try discriminate.
Qed.

Lemma flat_score_Some (lp : matrix) (prior : list lprob) (i : nat)
    (s : lprob) :
  flat_score lp prior i = Some s ->
  exists x p,
    get2 lp (i / vocab_of lp) (i mod vocab_of lp) = Ok x /\
    nth_error prior (i / vocab_of lp) = Some p /\
    s = sadd x p.
Proof.
  unfold flat_score, get2, get.
  destruct (nth_error lp _) as [row|]; [|discriminate].
  destruct (nth_error prior _) as [p|]; [|discriminate].
  simpl. destruct (nth_error row _) as [x|]; [|discriminate].
  intros E. inversion E; subst. eauto.
Qed.

(** What [BeamSearch.select_paths] returns, when it returns. *)
Lemma beam_select_paths_sound (self : TreeSearch.state) (lp : matrix)
    (prior : list lprob) (len : Z) (res : TreeSearch.selection) :
  Forall (fun row => length row = vocab_of lp) lp ->
  BeamSearch.select_paths self lp prior len = Ok res ->
  exists idxs scs,
    res = (map (fun i => i / vocab_of lp) idxs,
           map (fun i => i mod vocab_of lp) idxs, scs) /\
    length idxs = TreeSearch.beam_size self /\
    length scs = TreeSearch.beam_size self /\
    NoDup idxs /\
    Forall (fun i => i < beam_rows lp prior * vocab_of lp) idxs /\
    map (flat_score lp prior) idxs = map Some scs /\
    StronglySorted (fun a b => sle b a) scs /\
    (forall j y, j < beam_rows lp prior * vocab_of lp -> ~ In j idxs ->
                 flat_score lp prior j = Some y ->
                 Forall (fun s => sle y s) scs).
Proof.
  intros Hrect E. rewrite beam_select_paths_unfold in E.
  inv_bind E. rename a into bs, Ha into Ebs.
  inv_bind E. rename a into best, Ha into Ebest.
  inversion E; subst res; clear E.
  pose proof (add_prior_Ok_length _ _ _ Ebs) as Hlen.
  set (V := vocab_of lp) in *. set (rows := beam_rows lp prior) in *.
  assert (Hbs : length bs = length (beam_view lp prior)).
  { destruct (add_prior_total _ _ (beam_view_prior _ _ Hlen)) as [bs' [E' Hl]].
    congruence. }
  assert (Hflat : length (concat bs) = rows * V).
  { rewrite (concat_rect_length bs V).
    - rewrite Hbs, beam_view_length. reflexivity.
    - eapply add_prior_rect; [|exact Ebs]. apply beam_view_rect. exact Hrect. }
  destruct (topk_spec _ _ _ Ebest) as [Hlen_b Hnd Hval Hsort Hmax].
  exists (map fst best), (map snd best).
  assert (Hin_lt : forall i x, In (i, x) best -> i < rows * V).
  { intros i x Hin. rewrite <- Hflat. apply nth_error_Some.
    rewrite (Hval _ _ Hin). discriminate. }
  assert (Hpos : forall i, i < rows * V -> 0 < V /\ 0 < rows).
  { intros i Hi. split.
    - destruct (Nat.eq_dec V 0) as [E0|]; [|lia].
      rewrite E0, Nat.mul_0_r in Hi. lia.
    - destruct (Nat.eq_dec rows 0) as [E0|]; [|lia].
      rewrite E0 in Hi. simpl in Hi. lia. }
  assert (HVpos : forall i x, In (i, x) best -> 0 < V /\ 0 < rows).
  { intros i x Hin. apply (Hpos i). eapply Hin_lt. exact Hin. }
  assert (Hspace : forall i, i < rows * V ->
                   nth_error (concat bs) i = flat_score lp prior i).
  { intros i Hi. apply flat_beam_scores_spec; try assumption.
    apply (Hpos i Hi). }
  repeat split.
  - assert (Ediv : map (fun p : nat * lprob =>
                          fst p / vocab_of (beam_view lp prior)) best
                   = map (fun i => i / V) (map fst best)).
    { rewrite map_map. apply map_ext_in. intros [i x] Hin. simpl.
      rewrite beam_view_vocab; [reflexivity|]. apply (HVpos _ _ Hin). }
    assert (Emod : map (fun p : nat * lprob =>
                          fst p mod vocab_of (beam_view lp prior)) best
                   = map (fun i => i mod V) (map fst best)).
    { rewrite map_map. apply map_ext_in. intros [i x] Hin. simpl.
      rewrite beam_view_vocab; [reflexivity|]. apply (HVpos _ _ Hin). }
    rewrite Ediv, Emod. reflexivity.
  - rewrite length_map. exact Hlen_b.
  - rewrite length_map. exact Hlen_b.
  - exact Hnd.
  - apply Forall_forall. intros i Hi. apply in_map_iff in Hi.
    destruct Hi as [[i' x] [Hi Hin]]. simpl in Hi. subst i'.
    eapply Hin_lt. exact Hin.
  - rewrite !map_map. apply map_ext_in. intros [i x] Hin. simpl.
    rewrite <- Hspace by (eapply Hin_lt; exact Hin).
    apply Hval. exact Hin.
  - clear - Hsort. induction Hsort as [|a l Hs IH Hall]; simpl; constructor.
    + exact IH.
    + apply Forall_forall. intros s Hs'. apply in_map_iff in Hs'.
      destruct Hs' as [b [Hb Hin]]. subst s.
      rewrite Forall_forall in Hall. apply Hall. exact Hin.
  - intros j y Hj Hout Hy. apply Forall_forall. intros s Hs.
    apply in_map_iff in Hs. destruct Hs as [[i x] [Hx Hin]].
    simpl in Hx. subst x.
    eapply Hmax; [|exact Hout|exact Hin].
    rewrite Hspace by exact Hj. exact Hy.
Qed.

Lemma beam_select_paths_total (self : TreeSearch.state) (lp : matrix)
    (prior : list lprob) (len : Z) :
  Forall (fun row => length row = vocab_of lp) lp ->
  length prior = length lp \/ length prior = 1 ->
  TreeSearch.beam_size self <= beam_rows lp prior * vocab_of lp ->
  exists res, BeamSearch.select_paths self lp prior len = Ok res.
Proof.
  intros Hrect Hlen HB. rewrite beam_select_paths_unfold.
  destruct (add_prior_total _ _ (beam_view_prior _ _ Hlen)) as [bs [Ebs Hbs]].
  rewrite Ebs. simpl.
  destruct (topk_total (TreeSearch.beam_size self) (concat bs)) as [best Eb].
  - rewrite (concat_rect_length bs (vocab_of lp)).
    + rewrite Hbs, beam_view_length. exact HB.
    + eapply add_prior_rect; [|exact Ebs]. apply beam_view_rect. exact Hrect.
  - rewrite Eb. simpl. eexists. reflexivity.
Qed.

Lemma map_eq_nth {A B : Type} (f : A -> B) (l : list A) (l' : list B)
    (i : nat) (a : A) :
  map f l = l' -> nth_error l i = Some a -> nth_error l' i = Some (f a).
Proof.
  intros E Ha. subst l'. rewrite nth_error_map, Ha. reflexivity.
Qed.

Lemma beam_additive (self : TreeSearch.state) (lp : matrix)
    (prior : list lprob) (len : Z) (res : TreeSearch.selection) :
  Forall (fun row => length row = vocab_of lp) lp ->
  BeamSearch.select_paths self lp prior len = Ok res ->
  additive lp prior res.
Proof.
  intros Hrect E.
  destruct (beam_select_paths_sound _ _ _ _ _ Hrect E)
    as (idxs & scs & Hres & _ & _ & _ & _ & Hsc & _).
  subst res. unfold additive. intros i h t Hh Ht.
  rewrite nth_error_map in Hh, Ht.
  destruct (nth_error idxs i) as [idx|] eqn:Ei; [|discriminate].
  simpl in Hh, Ht. inversion Hh; inversion Ht; subst h t.
  pose proof (map_eq_nth _ _ _ _ _ Hsc Ei) as Hs.
  rewrite nth_error_map in Hs.
  destruct (nth_error scs i) as [s|] eqn:Es; [|discriminate].
  simpl in Hs. inversion Hs as [Hflat]. symmetry in Hflat.
  destruct (flat_score_Some _ _ _ _ Hflat) as (x & p & Hx & Hp & Hsum).
  exists x, p. subst s. auto.
Qed.

(** ** [GreedySearch.select_paths] *)

Lemma row_max_Ok (row : list lprob) (p : nat * lprob) :
  row_max row = Ok p -> nth_error row (fst p) = Some (snd p).
Proof.
  unfold row_max.
  destruct (sort_desc sleb snd (indexed row)) as [|q s] eqn:Es; [discriminate|].
  intros E. inversion E; subst q; clear E.
  destruct p as [i x]. simpl. apply indexed_spec.
  eapply Permutation_in.
  - apply Permutation_sym. apply sort_desc_perm.
  - rewrite Es. left. reflexivity.
Qed.

Lemma broadcast_add_Ok (a b scs : list lprob) (i : nat) (s : lprob) :
  broadcast_add a b = Ok scs ->
  nth_error scs i = Some s ->
  (nth_error a i = Some NegInf -> s = NegInf) /\
  (nth_error b i = Some NegInf -> s = NegInf).
Proof.
  unfold broadcast_add. intros E Hs.
  assert (Hzip : length a = length b ->
                 scs = map (fun p => sadd (fst p) (snd p)) (combine a b) ->
                 (nth_error a i = Some NegInf -> s = NegInf) /\
                 (nth_error b i = Some NegInf -> s = NegInf)).
  { intros _ Hscs. subst scs. rewrite nth_error_map, nth_error_combine in Hs.
    destruct (nth_error a i) as [x|]; [|discriminate].
    destruct (nth_error b i) as [y|]; [|discriminate].
    simpl in Hs. inversion Hs; subst s.
    split; intros Hn; inversion Hn; subst; [reflexivity | apply sadd_neginf_r]. }
  assert (Hleft : forall x, a = [x] -> scs = map (sadd x) b ->
                 (nth_error a i = Some NegInf -> s = NegInf) /\
                 (nth_error b i = Some NegInf -> s = NegInf)).
  { intros x Ha Hscs. subst a scs. rewrite nth_error_map in Hs.
    destruct (nth_error b i) as [y|] eqn:Eb; [|discriminate].
    simpl in Hs. inversion Hs; subst s. split; intros Hn.
    - destruct i as [|i]; simpl in Hn; [|destruct i; discriminate].
      inversion Hn; subst. reflexivity.
    - inversion Hn; subst. apply sadd_neginf_r. }
  assert (Hright : forall y, b = [y] ->
                 scs = map (fun x => sadd x y) a ->
                 (nth_error a i = Some NegInf -> s = NegInf) /\
                 (nth_error b i = Some NegInf -> s = NegInf)).
  { intros y Hb Hscs. subst b scs. rewrite nth_error_map in Hs.
    destruct (nth_error a i) as [x|] eqn:Ea; [|discriminate].
    simpl in Hs. inversion Hs; subst s. split; intros Hn.
    - inversion Hn; subst. reflexivity.
    - destruct i as [|i]; simpl in Hn; [|destruct i; discriminate].
      inversion Hn; subst. apply sadd_neginf_r. }
  destruct a as [|x [|x' a]].
  - destruct b as [|y [|y' b]].
    + simpl in E. inversion E; subst. destruct i; discriminate.
    + inversion E; subst. eapply Hright; reflexivity.
    + simpl in E. discriminate.
  - inversion E; subst. eapply Hleft; reflexivity.
  - destruct b as [|y [|y' b]].
    + simpl in E. discriminate.
    + inversion E; subst. eapply Hright; reflexivity.
    + destruct (length (x :: x' :: a) =? length (y :: y' :: b)) eqn:El;
        [|discriminate].
      inversion E; subst. apply Hzip; [|reflexivity].
      apply Nat.eqb_eq. exact El.
Qed.

Lemma greedy_select_paths_Ok (self : TreeSearch.state) (lp : matrix)
    (prior : list lprob) (len : Z) (hyps : list nat) (toks : list token)
    (scs : list lprob) :
  GreedySearch.select_paths self lp prior len = Ok (hyps, toks, scs) ->
  exists best,
    mapM row_max lp = Ok best /\
    hyps = seq 0 (length lp) /\ toks = map fst best /\
    broadcast_add (map snd best) prior = Ok scs.
Proof.
  unfold GreedySearch.select_paths. intros E.
  bind_inv E as best Hbest. bind_inv E as sc Hsc.
  inversion E; subst. exists best. auto.
Qed.

(** ** The end token under a masked column *)

Lemma select_eos_neginf (p : policy) (self : TreeSearch.state) (lp : matrix)
    (prior : list lprob) (len : Z) (hyps : list nat) (toks : list token)
    (scs : list lprob) (e : token) :
  Forall (fun row => length row = vocab_of lp) lp ->
  column_neginf e lp ->
  select_of p self lp prior len = Ok (hyps, toks, scs) ->
  forall i s, nth_error toks i = Some e -> nth_error scs i = Some s ->
              s = NegInf.
Proof.
  intros Hrect Hcol E i s Ht Hs. destruct p; simpl in E.
  - (* greedy *)
    destruct (greedy_select_paths_Ok _ _ _ _ _ _ _ E)
      as (best & Hbest & _ & Htoks & Hadd).
    subst toks. rewrite nth_error_map in Ht.
    destruct (nth_error best i) as [[j x]|] eqn:Eb; [|discriminate].
    simpl in Ht. inversion Ht; subst j.
    assert (Hlen : i < length lp).
    { rewrite <- (mapM_Ok_length _ _ _ Hbest). apply nth_error_Some. congruence. }
    destruct (nth_error lp i) as [row|] eqn:Erow.
    2:{ apply nth_error_None in Erow. lia. }
    destruct (mapM_Ok_nth _ _ _ Hbest _ _ Erow) as [y [Hy Hmax]].
    rewrite Eb in Hy. inversion Hy; subst y.
    apply row_max_Ok in Hmax. simpl in Hmax.
    unfold column_neginf in Hcol. rewrite Forall_forall in Hcol.
    rewrite (Hcol row) in Hmax by (eapply nth_error_In; exact Erow).
    inversion Hmax; subst x.
    destruct (broadcast_add_Ok _ _ _ i s Hadd Hs) as [Hleft _].
    apply Hleft. rewrite nth_error_map, Eb. reflexivity.
  - (* beam *)
    pose proof (beam_additive _ _ _ _ _ Hrect E) as Hadd.
    destruct (beam_select_paths_sound _ _ _ _ _ Hrect E)
      as (idxs & scs' & Hres & _).
    inversion Hres; subst hyps toks scs'. unfold additive in Hadd.
    rewrite nth_error_map in Ht.
    destruct (nth_error idxs i) as [idx|] eqn:Ei; [|discriminate].
    simpl in Ht.
    destruct (Hadd i (idx / vocab_of lp) e) as (x & q & Hx & _ & Hsum).
    + rewrite nth_error_map, Ei. reflexivity.
    + rewrite nth_error_map, Ei. simpl. exact Ht.
    + rewrite Hs in Hsum. inversion Hsum; subst s.
      unfold get2 in Hx. bind_inv Hx as row Hrow. apply get_Ok in Hrow, Hx.
      unfold column_neginf in Hcol. rewrite Forall_forall in Hcol.
      rewrite (Hcol row) in Hx by (eapply nth_error_In; exact Hrow).
      inversion Hx; subst x. reflexivity.
Qed.

(** No trace is recorded at a step whose end tokens all have the score
    minus infinity. *)
Lemma record_step_no_eos (self : TreeSearch.state) (hyps : list nat)
    (toks : list token) (scs : list lprob) (self' : TreeSearch.state) :
  (forall i s, nth_error toks i = Some (TreeSearch.eos self) ->
               nth_error scs i = Some s -> s = NegInf) ->
  TreeSearch.record_step self (hyps, toks, scs) = Ok self' ->
  TreeSearch.finished self' = TreeSearch.finished self.
Proof.
  intros Hdead E.
  destruct (record_step_Ok _ _ _ _ _ E)
    as (_ & _ & _ & _ & _ & _ & _ & _ & _ & [extra [Hfin Hextra]] & _).
  destruct extra as [|f extra]; [rewrite app_nil_r in Hfin; exact Hfin|].
  exfalso. inversion Hextra as [|? ? Hf _]; subst.
  destruct Hf as (_ & _ & _ & Ht & Hs & Hne).
  apply Hne. eapply Hdead; eassumption.
Qed.

(** ** Runs of [advance] *)

Lemma advance_all_inv (P : TreeSearch.state -> Prop)
    (sel : TreeSearch.state -> matrix -> list lprob -> Z ->
           result TreeSearch.selection)
    (inputs : list matrix) :
  (forall st lp st' lp', In lp inputs -> P st ->
                         TreeSearch.advance sel st lp = Ok (st', lp') ->
                         P st') ->
  forall st st', P st -> TreeSearch.advance_all sel st inputs = Ok st' ->
                 P st'.
Proof.
  intros Hstep st st' Hst E. unfold TreeSearch.advance_all in E.
  refine (foldM_inv P _ inputs _ st st' Hst E).
  intros acc lp acc' Hin Hacc Hadv. bind_inv Hadv as r Hr.
  inversion Hadv; subst. destruct r as [st1 lp1]. simpl.
  eapply Hstep; eassumption.
Qed.

Lemma advance_fields
    (sel : TreeSearch.state -> matrix -> list lprob -> Z ->
           result TreeSearch.selection)
    (st : TreeSearch.state) (lp : matrix) (st' : TreeSearch.state)
    (lp' : matrix) :
  TreeSearch.advance sel st lp = Ok (st', lp') ->
  TreeSearch.min_length st' = TreeSearch.min_length st /\
  TreeSearch.all_scores st' <> [].
Proof.
  intros E. destruct (advance_Ok _ _ _ _ _ E) as (sc1 & [[hyps toks] scs] & _ & _ & Hrec).
  destruct (record_step_Ok _ _ _ _ _ Hrec)
    as (_ & Hmin & _ & _ & _ & _ & Hall & _).
  split; [exact Hmin|]. rewrite Hall. intros Hnil.
  apply app_eq_nil in Hnil. destruct Hnil as [_ Hnil]. discriminate.
Qed.

(** ** Adjusted scores *)

Lemma rleb_total (a b : rscore) : rleb a b = true \/ rleb b a = true.
Proof.
  destruct a as [|x], b as [|y]; simpl; auto.
  destruct (Rle_dec x y); [left; reflexivity|].
  destruct (Rle_dec y x); [right; reflexivity | lra].
Qed.

Lemma rleb_trans (a b c : rscore) :
  rleb a b = true -> rleb b c = true -> rleb a c = true.
Proof.
  destruct a as [|x], b as [|y], c as [|z]; simpl; intros H1 H2;
    try reflexivity; try discriminate.
  destruct (Rle_dec x y); [|discriminate].
  destruct (Rle_dec y z); [|discriminate].
  destruct (Rle_dec x z); [reflexivity | lra].
Qed.

Lemma length_penalty_of_5 (lp : Q) : length_penalty_of 5 lp = 1%R.
Proof.
  unfold length_penalty_of, Rpower.
  replace ((1 + INR 5) / 6)%R with 1%R by (simpl; lra).
  rewrite ln_1, Rmult_0_r. apply exp_0.
Qed.

Lemma rescore_length_5 (z : Z) (lp : Q) : rescore (Fin z) 5 lp = RFin (IZR z).
Proof.
  unfold rescore. rewrite length_penalty_of_5. f_equal. lra.
Qed.

(** ** Sorting the image of a list *)

Lemma insert_desc_map {A B K : Type} (leb : K -> K -> bool) (key : B -> K)
    (f : A -> B) (x : A) (l : list A) :
  insert_desc leb key (f x) (map f l)
  = map f (insert_desc leb (fun a => key (f a)) x l).
Proof.
  induction l as [|y l IH]; simpl; [reflexivity|].
  destruct (leb (key (f y)) (key (f x))); simpl; [reflexivity|].
  rewrite IH. reflexivity.
Qed.

Lemma sort_desc_map {A B K : Type} (leb : K -> K -> bool) (key : B -> K)
    (f : A -> B) (l : list A) :
  sort_desc leb key (map f l)
  = map f (sort_desc leb (fun a => key (f a)) l).
Proof.
  induction l as [|x l IH]; simpl; [reflexivity|].
  rewrite IH. apply insert_desc_map.
Qed.

Lemma mapM_Forall2 {A B : Type} (f : A -> result B) (l : list A)
    (r : list B) :
  mapM f l = Ok r -> Forall2 (fun x y => f x = Ok y) l r.
Proof.
  revert r. induction l as [|x l IH]; intros r E; simpl in E.
  - inversion E. constructor.
  - bind_inv E as y Hy. bind_inv E as ys Hys. inversion E; subst.
    constructor; [exact Hy | apply IH; exact Hys].
Qed.

Lemma slice_to_nonneg {A : Type} (n : Z) (l : list A) :
  (0 <= n)%Z -> slice_to n l = firstn (Z.to_nat n) l.
Proof.
  intros Hn. unfold slice_to. apply Z.leb_le in Hn. rewrite Hn. reflexivity.
Qed.

(** ** Walking the backpointers *)

Lemma walk_back_length (self : TreeSearch.state) (i endback : nat)
    (tails : list (TreeSearch.HypothesisTail lprob)) :
  TreeSearch.walk_back self i endback = Ok tails -> length tails = i + 1.
Proof.
  revert endback tails. induction i as [|i IH]; intros endback tails E;
    simpl in E.
  - bind_inv E as s Hs. bind_inv E as t Ht. bind_inv E as bk Hbk.
    bind_inv E as eb Heb. inversion E. reflexivity.
  - bind_inv E as s Hs. bind_inv E as t Ht. bind_inv E as bk Hbk.
    bind_inv E as eb Heb. bind_inv E as rest Hrest. inversion E; subst.
    simpl. f_equal. eapply IH. exact Hrest.
Qed.

Lemma force_finished_Ok (self self' : TreeSearch.state) :
  TreeSearch.force_finished self = Ok self' ->
  TreeSearch.length_penalty self' = TreeSearch.length_penalty self /\
  TreeSearch.eos self' = TreeSearch.eos self /\
  TreeSearch.all_scores self' = TreeSearch.all_scores self /\
  TreeSearch.bookkeep self' = TreeSearch.bookkeep self /\
  (TreeSearch.finished self <> [] -> self' = self) /\
  (TreeSearch.finished self = [] ->
   exists last last' sc s0,
     get_last (TreeSearch.outputs self) = Ok last /\
     set_at last 0 (TreeSearch.eos self) = Ok last' /\
     TreeSearch.outputs self'
     = removelast (TreeSearch.outputs self) ++ [last'] /\
     get_last (TreeSearch.all_scores self) = Ok sc /\
     nth_error sc 0 = Some s0 /\
     TreeSearch.finished self'
     = [TreeSearch.mkTail (length (TreeSearch.outputs self') - 1) 0 s0
          (TreeSearch.eos self)]).
Proof.
  unfold TreeSearch.force_finished.
  destruct (TreeSearch.finished self) as [|f fs] eqn:Efin; intros E.
  - bind_inv E as last Hlast. bind_inv E as last' Hlast'.
    bind_inv E as sc Hsc. bind_inv E as s0 Hs0. inversion E; subst; clear E.
    simpl. repeat split; try reflexivity; try congruence.
    intros _. exists last, last', sc, s0. apply get_Ok in Hs0.
    repeat split; assumption.
  - inversion E; subst. repeat split; try reflexivity.
    intros Hnil. discriminate.
Qed.

(** ** Inversion of [get_rescored_finished] *)

Lemma foldM_assert_Forall {A : Type} (test : A -> bool) (l : list A) :
  foldM (fun (_ : unit) (x : A) => assert (test x)) l tt = Ok tt <->
  Forall (fun x => test x = true) l.
Proof.
  induction l as [|x l IH]; simpl.
  - split; [constructor | reflexivity].
  - split.
    + intros E. bind_inv E as u Hu. destruct u.
      constructor; [eapply assert_Ok; exact Hu | apply IH; exact E].
    + intros Hall. inversion Hall as [|? ? Hx Hl]; subst.
      rewrite Hx. simpl. apply IH. exact Hl.
Qed.

Lemma get_rescored_finished_Ok (self : TreeSearch.state) (n_best : option Z)
    (self' : TreeSearch.state) (res : list (list token * rscore)) :
  TreeSearch.get_rescored_finished self n_best = Ok (self', res) <->
  TreeSearch.force_finished self = Ok self' /\
  mapM (pretty_of self') (TreeSearch.rescored_sorted self' n_best) = Ok res /\
  1 <= length res /\
  Forall (fun ps => count_occ Nat.eq_dec (fst ps) (TreeSearch.eos self') = 1)
         res.
Proof.
  unfold TreeSearch.get_rescored_finished. fold (pretty_of).
  split.
  - intros E. bind_inv E as self1 Hforce. bind_inv E as l Hl.
    bind_inv E as u Hu. bind_inv E as u' Hu'. inversion E; subst; clear E.
    apply assert_Ok in Hu. apply Nat.leb_le in Hu. destruct u'.
    apply (foldM_assert_Forall
             (fun ps : list token * rscore =>
                count_occ Nat.eq_dec (fst ps) (TreeSearch.eos self') =? 1)) in Hu'.
    repeat split; try assumption.
    eapply Forall_impl; [|exact Hu']. intros ps Hps. apply Nat.eqb_eq. exact Hps.
  - intros (Hforce & Hl & Hlen & Hall). rewrite Hforce. cbn [bind].
    change (fun hyp : TreeSearch.HypothesisTail rscore =>
              tails <- TreeSearch._get_hyp_from_finished self' hyp ;;
              Ok (TreeSearch._get_pretty_hypothesis tails, TreeSearch.score hyp))
      with (pretty_of self').
    rewrite Hl. cbn [bind]. apply Nat.leb_le in Hlen. rewrite Hlen.
    cbn [bind assert].
    assert (Hf : foldM (fun (_ : unit) (ps : list token * rscore) =>
                          assert (count_occ Nat.eq_dec (fst ps)
                                    (TreeSearch.eos self') =? 1)) res tt = Ok tt).
    { apply (foldM_assert_Forall
               (fun ps : list token * rscore =>
                  count_occ Nat.eq_dec (fst ps) (TreeSearch.eos self') =? 1)).
      eapply Forall_impl; [|exact Hall]. intros ps Hps.
      apply Nat.eqb_eq. exact Hps. }
    rewrite Hf. reflexivity.
Qed.

Lemma pretty_of_Ok (self : TreeSearch.state)
    (hyp : TreeSearch.HypothesisTail rscore) (ps : list token * rscore) :
  pretty_of self hyp = Ok ps ->
  snd ps = TreeSearch.score hyp /\
  length (fst ps) = TreeSearch.timestep hyp + 1.
Proof.
  unfold pretty_of, TreeSearch._get_hyp_from_finished. intros E.
  bind_inv E as tails Htails. inversion E; subst; clear E. simpl.
  split; [reflexivity|].
  unfold TreeSearch._get_pretty_hypothesis.
  rewrite length_map, length_rev. eapply walk_back_length. exact Htails.
Qed.

Lemma Forall2_of_map {A B C : Type} (f : A -> B) (R : B -> C -> Prop)
    (l : list A) (r : list C) :
  Forall2 R (map f l) r -> Forall2 (fun a c => R (f a) c) l r.
Proof.
  revert r. induction l as [|a l IH]; intros r H; inversion H; subst;
    constructor; auto.
Qed.

(** ** [ConstrainedBeamSearch] *)

Section AdapterFacts.
Context {cs : Type} `{ConstraintState cs}.

Lemma adapter_select_paths_asserts
    (self : @ConstrainedBeamSearch.state cs) (logprobs : matrix)
    (prior_scores : list lprob) (current_length : Z)
    (r : @ConstrainedBeamSearch.state cs * TreeSearch.selection) :
  ConstrainedBeamSearch.select_paths self logprobs prior_scores current_length
  = Ok r ->
  Z.to_nat current_length < ConstrainedBeamSearch.max_len self /\
  (0 <= ConstrainedBeamSearch.num_remaining_sent (fst r))%Z.
Proof.
  unfold ConstrainedBeamSearch.select_paths. intros E.
  bind_inv E as u0 Hshape. bind_inv E as so Hsearch.
  destruct so as [search' out]. cbn zeta beta iota in E.
  bind_inv E as cand_scores Hcs. bind_inv E as cand_indices Hci.
  bind_inv E as cand_beams Hcb. bind_inv E as u3 Hmask.
  bind_inv E as fin Hfin.
  destruct fin as [[finalized finished] remaining]. cbn zeta beta iota in E.
  bind_inv E as u1 Hrem. bind_inv E as u2 Hstep.
  apply assert_Ok in Hrem, Hstep.
  apply Nat.ltb_lt in Hstep. apply Z.leb_le in Hrem.
  split; [exact Hstep|].
  repeat (let x := fresh "x" in let Hx := fresh "Hx" in
          apply bind_Ok in E; destruct E as [x [Hx E]]).
  inversion E; subst. simpl. exact Hrem.
Qed.

Lemma is_finished_spec (step unfin_idx max_len_ n beam_size : nat) :
  (n <= beam_size ->
   @ConstrainedBeamSearch.is_finished step unfin_idx max_len_ n beam_size
   = Ok ((n =? beam_size) || (step =? max_len_))) /\
  (beam_size < n ->
   @ConstrainedBeamSearch.is_finished step unfin_idx max_len_ n beam_size
   = Err AssertionError).
Proof.
  unfold ConstrainedBeamSearch.is_finished. split; intros Hn.
  - apply Nat.leb_le in Hn. rewrite Hn. simpl.
    destruct ((n =? beam_size) || (step =? max_len_)); reflexivity.
  - apply Nat.leb_gt in Hn. rewrite Hn. reflexivity.
Qed.

(** [finalize_hypos] on the one sentence of the adapter, not finished yet:
    the sentence is marked finished exactly when [is_finished] says so of the
    hypotheses collected. *)
Lemma finalize_hypos_single (self : @ConstrainedBeamSearch.state cs)
    (step : nat) (bbsz_idx : list nat) (eos_scores : list lprob)
    (beam_size : nat) (fz0 : list (@ConstrainedBeamSearch.hypo))
    (finalized : list (list (@ConstrainedBeamSearch.hypo)))
    (finished : list bool) (newly : list nat) :
  ConstrainedBeamSearch.cbs_finished self = [false] ->
  ConstrainedBeamSearch.cbs_finalized self = [fz0] ->
  length fz0 <= beam_size ->
  bbsz_idx <> [] ->
  Forall (fun idx => idx < beam_size) bbsz_idx ->
  ConstrainedBeamSearch.finalize_hypos self step bbsz_idx eos_scores beam_size
  = Ok (finalized, finished, newly) ->
  exists fz,
    finalized = [fz] /\ length fz0 <= length fz <= beam_size /\
    finished = [(length fz =? beam_size)
                || (step =? ConstrainedBeamSearch.max_len self)] /\
    newly = if (length fz =? beam_size)
               || (step =? ConstrainedBeamSearch.max_len self)
            then [0] else [].
Proof.
  intros Hfin0 Hfz0 Hlen0 Hne Hidx E.
  unfold ConstrainedBeamSearch.finalize_hypos in E.
  bind_inv E as u0 Hassert. bind_inv E as rows Hrows.
  bind_inv E as tokens_clone Htc. bind_inv E as srows Hsrows.
  bind_inv E as pos_scores Hps. bind_inv E as acc1 Hloop1.
  destruct acc1 as [fzs seen]. cbn zeta beta iota in E.
  bind_inv E as acc2 Hloop2. destruct acc2 as [fin2 newly2].
  cbn zeta beta iota in E. inversion E; subst finalized finished newly; clear E.
  rewrite Hfin0 in *. rewrite Hfz0 in *. cbn [ConstrainedBeamSearch.cum_unfin_from] in *.
  (* the loop over the finished beam items *)
  assert (Hinv : exists fz, fzs = [fz] /\ length fz0 <= length fz <= beam_size
                            /\ seen = [(0, 0)]).
  { destruct bbsz_idx as [|b0 rest]; [congruence|].
    cbn [length seq foldM] in Hloop1. bind_inv Hloop1 as acc Hfirst.
    assert (Hacc : exists fz, fst acc = [fz]
                              /\ length fz0 <= length fz <= beam_size
                              /\ snd acc = [(0, 0)]).
    { bind_inv Hfirst as idx Hi. bind_inv Hfirst as sc Hsc.
      simpl in Hi. inversion Hi; subst idx.
      inversion Hidx as [|? ? Hb0 _]; subst.
      rewrite (Nat.div_small _ _ Hb0) in Hfirst.
      cbn [ConstrainedBeamSearch.cum_unfin_from get nth_error bind
           existsb app Nat.add] in Hfirst.
      destruct (length fz0 <? beam_size) eqn:Hlt.
      - bind_inv Hfirst as tc Htc0. bind_inv Hfirst as ps Hps0.
        cbn [set_at bind] in Hfirst. inversion Hfirst; subst acc; clear Hfirst.
        simpl. eexists. split; [reflexivity|].
        apply Nat.ltb_lt in Hlt. rewrite length_app. simpl.
        split; [lia | reflexivity].
      - inversion Hfirst; subst acc. simpl. exists fz0.
        split; [reflexivity|]. split; [lia | reflexivity]. }
    revert Hloop1. destruct acc as [fzs1 seen1]. simpl in Hacc. intros Hloop1.
    refine (foldM_inv
              (fun a : list (list ConstrainedBeamSearch.hypo) * list (nat * nat) =>
                 exists fz, fst a = [fz]
                            /\ length fz0 <= length fz <= beam_size
                            /\ snd a = [(0, 0)])
              _ _ _ (fzs1, seen1) (fzs, seen) Hacc Hloop1).
    intros [fa sa] i [fa' sa'] Hi (fz & Hfa & Hlen & Hsa) Hstep.
    simpl in Hfa, Hsa. subst fa sa.
    bind_inv Hstep as idx Hidx'. bind_inv Hstep as sc Hsc.
    assert (Hlt : idx < beam_size).
    { apply get_Ok in Hidx'. apply nth_error_In in Hidx'.
      rewrite Forall_forall in Hidx. apply Hidx. exact Hidx'. }
    rewrite (Nat.div_small _ _ Hlt) in Hstep.
    cbn [ConstrainedBeamSearch.cum_unfin_from get nth_error bind
         existsb app Nat.add fst snd Nat.eqb andb orb] in Hstep.
    destruct (length fz <? beam_size) eqn:Hfz.
    - bind_inv Hstep as tc Htc0. bind_inv Hstep as ps Hps0.
      cbn [set_at bind] in Hstep. inversion Hstep; subst fa' sa'; clear Hstep.
      simpl. eexists. split; [reflexivity|].
      apply Nat.ltb_lt in Hfz. rewrite length_app. simpl.
      split; [lia | reflexivity].
    - inversion Hstep; subst fa' sa'. simpl. exists fz.
      split; [reflexivity|]. split; [lia | reflexivity]. }
  destruct Hinv as (fz & Hfzs & Hlen & Hseen). subst fzs seen.
  exists fz. split; [reflexivity|]. split; [exact Hlen|].
  (* the loop over the sentences seen *)
  cbn [foldM bind get nth_error] in Hloop2.
  destruct (is_finished_spec step 0 (ConstrainedBeamSearch.max_len self)
              (length fz) beam_size) as [Hspec _].
  rewrite (Hspec (proj2 Hlen)) in Hloop2. cbn [bind] in Hloop2.
  destruct ((length fz =? beam_size)
            || (step =? ConstrainedBeamSearch.max_len self)).
  - cbn [set_at bind app] in Hloop2. inversion Hloop2. split; reflexivity.
  - inversion Hloop2. split; reflexivity.
Qed.

End AdapterFacts.

(** ** The penalty on the slots that ended *)

Lemma penalize_loop (e : token) (l : list token) (k : nat)
    (sc sc' : list lprob) :
  foldM (fun s (ht : nat * token) =>
           let (hyp_id, tok) := ht in
           if Nat.eqb tok e then set_at s hyp_id neginf else Ok s)
        (combine (seq k (length l)) l) sc = Ok sc' ->
  length sc' = length sc /\
  forall i x, nth_error sc' i = Some x -> x <> NegInf ->
              nth_error sc i = Some x /\
              (k <= i -> nth_error l (i - k) <> Some e).
Proof.
  revert k sc sc'. induction l as [|tok l IH]; intros k sc sc' E; simpl in E.
  - inversion E; subst. split; [reflexivity|]. intros i x Hx _.
    split; [exact Hx|]. intros _. destruct (i - k); discriminate.
  - bind_inv E as mid Hmid. destruct (IH _ _ _ E) as [Hlen Hrest].
    destruct (Nat.eqb_spec tok e) as [Heq|Hne].
    + destruct (set_at_Ok _ _ _ _ Hmid) as (_ & Hl & Hk & Hoth).
      split; [congruence|]. intros i x Hx Hfin.
      destruct (Hrest i x Hx Hfin) as [Hmidx Hl'].
      destruct (Nat.eq_dec i k) as [->|Hik].
      * rewrite Hk in Hmidx. inversion Hmidx. subst x. contradiction.
      * rewrite Hoth in Hmidx by exact Hik. split; [exact Hmidx|].
        intros Hle. replace (i - k) with (S (i - S k)) by lia. simpl.
        apply Hl'. lia.
    + inversion Hmid; subst mid. split; [exact Hlen|]. intros i x Hx Hfin.
      destruct (Hrest i x Hx Hfin) as [Hmidx Hl'].
      split; [exact Hmidx|]. intros Hle.
      destruct (Nat.eq_dec i k) as [->|Hik].
      * rewrite Nat.sub_diag. simpl. congruence.
      * replace (i - k) with (S (i - S k)) by lia. simpl. apply Hl'. lia.
Qed.

Lemma penalize_eos_Ok (self : TreeSearch.state) (sc sc' : list lprob) :
  TreeSearch.penalize_eos self sc = Ok sc' ->
  exists last,
    get_last (TreeSearch.outputs self) = Ok last /\
    length sc' = length sc /\
    forall i x, nth_error sc' i = Some x -> x <> NegInf ->
                nth_error sc i = Some x /\
                nth_error last i <> Some (TreeSearch.eos self).
Proof.
  unfold TreeSearch.penalize_eos. intros E. bind_inv E as last Hlast.
  exists last. split; [exact Hlast|].
  unfold enumerate, indexed in E.
  destruct (penalize_loop _ _ _ _ _ E) as [Hlen Hall].
  split; [exact Hlen|]. intros i x Hx Hfin.
  destruct (Hall i x Hx Hfin) as [H1 H2]. split; [exact H1|].
  rewrite Nat.sub_0_r in H2. apply H2. lia.
Qed.

(** ** The sources of the scores that are not minus infinity *)

Lemma beam_rows_le (lp : matrix) (prior : list lprob) :
  beam_rows lp prior <= length lp.
Proof. unfold beam_rows. destruct (length prior =? 1); lia. Qed.

Lemma sadd_finite (x q : lprob) : sadd x q <> NegInf -> q <> NegInf.
Proof. intros H Hq. subst q. apply H. apply sadd_neginf_r. Qed.

Lemma select_alive (p : policy) (self : TreeSearch.state) (lp : matrix)
    (prior : list lprob) (len : Z) (res : TreeSearch.selection) :
  Forall (fun row => length row = vocab_of lp) lp ->
  length lp = TreeSearch.beam_size self ->
  length prior = 1 \/ length prior = TreeSearch.beam_size self ->
  (p = Greedy -> TreeSearch.beam_size self = 1) ->
  select_of p self lp prior len = Ok res ->
  alive_sources (TreeSearch.beam_size self) prior res.
Proof.
  intros Hrect Hrows Hprior Hgreedy E. destruct p; simpl in E.
  - (* greedy: one row, one prior score *)
    specialize (Hgreedy eq_refl). rewrite Hgreedy in *.
    destruct res as [[hyps toks] scs].
    destruct (greedy_select_paths_Ok _ _ _ _ _ _ _ E)
      as (best & Hbest & Hhyps & Htoks & Hadd).
    destruct lp as [|row [|row' lp]]; try discriminate.
    simpl in Hbest. bind_inv Hbest as b Hb. inversion Hbest; subst best.
    assert (Hp : exists q, prior = [q]).
    { destruct prior as [|q [|q' prior]]; try (destruct Hprior; discriminate).
      exists q. reflexivity. }
    destruct Hp as [q ->]. simpl in Hadd. inversion Hadd; subst scs.
    subst hyps toks. simpl.
    repeat split; try reflexivity.
    + destruct i as [|i]; simpl in H; [|destruct i; discriminate].
      inversion H; subst. lia.
    + intros s Hs Hfin. destruct i as [|i]; simpl in H, Hs;
        [|destruct i; discriminate].
      inversion H; inversion Hs; subst. exists q. split; [reflexivity|].
      eapply sadd_finite. exact Hfin.
  - (* beam *)
    pose proof (beam_additive _ _ _ _ _ Hrect E) as Hadd.
    destruct (beam_select_paths_sound _ _ _ _ _ Hrect E)
      as (idxs & scs & Hres & Hli & Hls & _ & Hlt & _).
    subst res. unfold alive_sources, additive in *.
    rewrite !length_map. repeat split; try assumption.
    + rewrite nth_error_map in H.
      destruct (nth_error idxs i) as [idx|] eqn:Ei; [|discriminate].
      simpl in H. inversion H; subst h.
      rewrite Forall_forall in Hlt.
      specialize (Hlt idx (nth_error_In _ _ Ei)).
      assert (idx / vocab_of lp < beam_rows lp prior).
      { apply Nat.Div0.div_lt_upper_bound. lia. }
      pose proof (beam_rows_le lp prior). lia.
    + intros s Hs Hfin.
      rewrite nth_error_map in H.
      destruct (nth_error idxs i) as [idx|] eqn:Ei; [|discriminate].
      simpl in H. inversion H; subst h.
      destruct (Hadd i (idx / vocab_of lp) (idx mod vocab_of lp))
        as (x & q & _ & Hq & Hsum).
      * rewrite nth_error_map, Ei. reflexivity.
      * rewrite nth_error_map, Ei. reflexivity.
      * rewrite Hs in Hsum. inversion Hsum; subst s.
        exists q. split; [exact Hq|]. eapply sadd_finite. exact Hfin.
Qed.

(** ** The hypothesis behind a slot *)

Lemma chain_tokens_agree (outs outs' : list (list token))
    (bks bks' : list (list nat)) (t h : nat) :
  (forall i, i <= t -> nth_error outs' i = nth_error outs i) ->
  (forall i, i < t -> nth_error bks' i = nth_error bks i) ->
  chain_tokens outs' bks' t h = chain_tokens outs bks t h.
Proof.
  revert h. induction t as [|t IH]; intros h Ho Hb; cbn [chain_tokens].
  - rewrite (Ho 0) by lia. reflexivity.
  - rewrite (Ho (S t)) by lia. rewrite (Hb t) by lia.
    destruct (nth_error outs (S t)) as [row|]; [|reflexivity].
    destruct (nth_error row h) as [tok|]; [|reflexivity].
    destruct (nth_error bks t) as [bk|]; [|reflexivity].
    destruct (nth_error bk h) as [p|]; [|reflexivity].
    rewrite IH; [reflexivity | |]; intros i Hi; [apply Ho | apply Hb]; lia.
Qed.

Lemma chain_tokens_app (outs : list (list token)) (bks : list (list nat))
    (toks : list token) (hyps : list nat) (t h : nat) :
  t < length outs -> length outs = S (length bks) ->
  chain_tokens (outs ++ [toks]) (bks ++ [hyps]) t h = chain_tokens outs bks t h.
Proof.
  intros Ht Hlen. apply chain_tokens_agree; intros i Hi;
    apply nth_error_app1; lia.
Qed.

(** ** The invariant of the beam *)

Lemma get_last_app {A : Type} (l : list A) (x : A) :
  get_last (l ++ [x]) = Ok x.
Proof. unfold get_last. rewrite rev_app_distr. reflexivity. Qed.

Lemma get_last_nth {A : Type} (l : list A) (x : A) :
  get_last l = Ok x -> nth_error l (length l - 1) = Some x.
Proof.
  unfold get_last. intros E. destruct (rev l) as [|y r] eqn:Er; [discriminate|].
  inversion E; subst y.
  assert (Hl : l = rev r ++ [x]).
  { rewrite <- (rev_involutive l), Er. reflexivity. }
  rewrite Hl, length_app, length_rev. simpl.
  rewrite nth_error_app2 by (rewrite length_rev; lia).
  rewrite length_rev. replace (length r + 1 - 1 - length r) with 0 by lia.
  reflexivity.
Qed.

Lemma get2_app_old {A : Type} (m : list (list A)) (row : list A) (t h : nat)
    (x : A) :
  get2 m t h = Ok x -> get2 (m ++ [row]) t h = Ok x.
Proof.
  unfold get2. intros E. bind_inv E as r Hr. apply get_Ok in Hr.
  unfold get at 1. rewrite nth_error_app1 by (apply nth_error_Some; congruence).
  rewrite Hr. exact E.
Qed.

Lemma get2_app_inv {A : Type} (m : list (list A)) (row : list A) (t h : nat)
    (x : A) :
  get2 (m ++ [row]) t h = Ok x ->
  (t < length m /\ get2 m t h = Ok x) \/
  (t = length m /\ nth_error row h = Some x).
Proof.
  unfold get2. intros E. bind_inv E as r Hr. apply get_Ok in Hr, E.
  destruct (Nat.lt_ge_cases t (length m)) as [Hlt|Hge].
  - left. split; [exact Hlt|]. rewrite nth_error_app1 in Hr by exact Hlt.
    unfold get. rewrite Hr. simpl. unfold get. rewrite E. reflexivity.
  - right. rewrite nth_error_app2 in Hr by exact Hge.
    destruct (t - length m) as [|d] eqn:Hd; simpl in Hr.
    + inversion Hr; subst r. split; [lia | exact E].
    + destruct d; discriminate.
Qed.

Lemma get2_last {A : Type} (m : list (list A)) (row : list A) (h : nat) (x : A) :
  nth_error row h = Some x -> get2 (m ++ [row]) (length m) h = Ok x.
Proof.
  intros E. unfold get2, get. rewrite nth_error_app2 by lia.
  rewrite Nat.sub_diag. simpl. rewrite E. reflexivity.
Qed.

Lemma get2_row {A : Type} (m : list (list A)) (t h : nat) (x : A) (B : nat) :
  Forall (fun row => length row = B) m ->
  get2 m t h = Ok x -> t < length m /\ h < B.
Proof.
  unfold get2. intros Hrows E. bind_inv E as r Hr.
  pose proof (get_lt _ _ _ Hr) as Ht. apply get_Ok in Hr.
  rewrite Forall_forall in Hrows.
  rewrite <- (Hrows r (nth_error_In _ _ Hr)).
  split; [exact Ht | eapply get_lt; exact E].
Qed.

Lemma chain_tokens_head (outs : list (list token)) (bks : list (list nat))
    (t h : nat) (tok : token) (rest : list token) :
  chain_tokens outs bks t h = Some (tok :: rest) -> get2 outs t h = Ok tok.
Proof.
  destruct t; cbn [chain_tokens]; unfold get2, get;
    destruct (nth_error outs _) as [row|]; try discriminate;
    cbn [bind]; destruct (nth_error row h) as [tk|]; try discriminate.
  - intros E. inversion E. reflexivity.
  - destruct (nth_error bks t) as [bk|]; [|discriminate].
    destruct (nth_error bk h) as [p|]; [|discriminate].
    destruct (chain_tokens outs bks t p); [|discriminate].
    intros E. inversion E. reflexivity.
Qed.

Lemma Forall_nth_error {A : Type} (P : A -> Prop) (l : list A) :
  (forall i x, nth_error l i = Some x -> P x) -> Forall P l.
Proof.
  intros Hall. apply Forall_forall. intros x Hx.
  destruct (In_nth_error _ _ Hx) as [i Hi]. eapply Hall. exact Hi.
Qed.

Lemma nth_error_of_lt {A : Type} (l : list A) (i : nat) :
  i < length l -> exists x, nth_error l i = Some x.
Proof.
  intros Hi. destruct (nth_error l i) eqn:E; [eauto|].
  apply nth_error_None in E. lia.
Qed.

(** One [advance] keeps the invariant. *)
Lemma advance_preserves_inv (p : policy) (B : nat) (e : token)
    (st : TreeSearch.state) (lp : matrix) (st' : TreeSearch.state)
    (lp' : matrix) :
  beam_inv B e st ->
  (p = Greedy -> B = 1) ->
  length lp = B ->
  Forall (fun row => length row = vocab_of lp) lp ->
  TreeSearch.advance (select_of p) st lp = Ok (st', lp') ->
  beam_inv B e st'.
Proof.
  intros [Hbeam Heos Hls Hlb Hor Hsr Hbr Hsc Hclean Hfin] Hgreedy Hrows Hrect E.
  destruct (advance_Ok _ _ _ _ _ E)
    as (sc1 & [[hyps toks] scs] & Hprep & Hsel & Hrec).
  destruct (prepare_Ok _ _ _ _ Hprep) as (lp0 & _ & Hpen & _).
  pose proof (prepare_masked _ _ _ _ Hprep) as Hmask.
  assert (Hrect' : Forall (fun row => length row = vocab_of lp') lp').
  { rewrite (masked_from_vocab _ _ Hmask). eapply masked_from_rect; eassumption. }
  assert (Hrows' : length lp' = TreeSearch.beam_size st).
  { rewrite (masked_from_length _ _ Hmask). congruence. }
  destruct (penalize_eos_Ok _ _ _ Hpen) as (last & Hlast & Hlen1 & Hpenal).
  (* the prior scores *)
  set (sc0 := match TreeSearch.scores st with
              | Some s => s
              | None => [Fin 0]
              end) in *.
  assert (Hsc0 : (TreeSearch.bookkeep st = [] /\ sc0 = [Fin 0]) \/
                 (TreeSearch.bookkeep st <> [] /\
                  get_last (TreeSearch.all_scores st) = Ok sc0 /\
                  length sc0 = B)).
  { unfold sc0. destruct (TreeSearch.bookkeep st) as [|b bs] eqn:Eb.
    - left. rewrite Hsc. auto.
    - right. destruct Hsc as [sc [Hs Hl]]. rewrite Hs.
      split; [discriminate|]. split; [exact Hl|].
      apply get_last_nth in Hl. rewrite Forall_forall in Hsr.
      apply Hsr. eapply nth_error_In. exact Hl. }
  assert (Hprior : length sc1 = 1 \/ length sc1 = TreeSearch.beam_size st).
  { rewrite Hlen1. destruct Hsc0 as [[_ ->]|(_ & _ & Hl)];
      [left; reflexivity | right; congruence]. }
  assert (Hg : p = Greedy -> TreeSearch.beam_size st = 1).
  { intros Hp. rewrite Hbeam. auto. }
  pose proof (select_alive p st lp' sc1 _ _ Hrect' Hrows' Hprior Hg Hsel)
    as Halive.
  unfold alive_sources in Halive. rewrite Hbeam in Halive.
  destruct Halive as (Hlh & Hlt & Hlsc & Hsrc).
  destruct (record_step_Ok _ _ _ _ _ Hrec)
    as (Hb' & _ & He' & _ & _ & Hsc' & Hall' & Hout' & Hbk'
        & [extra [Hfin' Hextra]] & _).
  assert (HlastT : nth_error (TreeSearch.outputs st)
                             (length (TreeSearch.bookkeep st)) = Some last).
  { apply get_last_nth in Hlast. rewrite Hlb in Hlast. simpl in Hlast.
    rewrite Nat.sub_0_r in Hlast. exact Hlast. }
  constructor.
  - congruence.
  - congruence.
  - rewrite Hall', Hout', !length_app. simpl. lia.
  - rewrite Hout', Hbk', !length_app. simpl. lia.
  - rewrite Hout'. apply Forall_app. split; [exact Hor|]. repeat constructor.
    exact Hlt.
  - rewrite Hall'. apply Forall_app. split; [exact Hsr|]. repeat constructor.
    exact Hlsc.
  - rewrite Hbk'. apply Forall_app. split; [exact Hbr|].
    constructor; [|constructor]. split; [exact Hlh|].
    apply Forall_nth_error. intros i h Hh. apply (Hsrc i h Hh).
  - rewrite Hbk'. destruct (TreeSearch.bookkeep st); simpl;
      (exists scs; split; [exact Hsc' | rewrite Hall'; apply get_last_app]).
  - (* the chains *)
    intros t h s Hget Hs. rewrite Hall' in Hget. rewrite Hout', Hbk'.
    destruct (get2_app_inv _ _ _ _ _ Hget) as [[Ht Hold]|[Ht Hnew]].
    + rewrite chain_tokens_app by lia. apply Hclean with (s := s); assumption.
    + (* a new slot *)
      assert (Hh : h < B).
      { rewrite <- Hlsc. apply nth_error_Some. congruence. }
      destruct (nth_error_of_lt hyps h) as [src Hsrc_h]; [lia|].
      destruct (nth_error_of_lt toks h) as [tok Htok]; [lia|].
      destruct (Hsrc h src Hsrc_h) as [Hsrc_lt Hq].
      destruct (Hq s Hnew Hs) as (q & Hq1 & Hqfin).
      destruct (Hpenal src q Hq1 Hqfin) as [Hq0 Hlast_src].
      (* the chain of the source *)
      assert (Hchain : exists tok0 rest0,
                 chain_tokens (TreeSearch.outputs st) (TreeSearch.bookkeep st)
                   (length (TreeSearch.bookkeep st)) src
                 = Some (tok0 :: rest0) /\ ~ In e (tok0 :: rest0)).
      { assert (Htok0 : exists tok0, nth_error last src = Some tok0).
        { apply nth_error_of_lt. rewrite Forall_forall in Hor.
          rewrite (Hor last (nth_error_In _ _ HlastT)). exact Hsrc_lt. }
        destruct Htok0 as [tok0 Htok0].
        assert (Hne : tok0 <> e).
        { intros ->. apply Hlast_src. rewrite Htok0, Heos. reflexivity. }
        destruct Hsc0 as [[Hnil Hsc0]|(Hnn & Hl0 & _)].
        - exists tok0, []. rewrite Hnil in *. cbn [length chain_tokens].
          cbn [length] in HlastT. rewrite HlastT, Htok0. split; [reflexivity|].
          intros [Hin|[]]. congruence.
        - assert (Hget0 : get2 (TreeSearch.all_scores st)
                            (length (TreeSearch.bookkeep st)) src = Ok q).
          { apply get_last_nth in Hl0. rewrite Hls, Hlb in Hl0. simpl in Hl0.
            rewrite Nat.sub_0_r in Hl0. unfold get2, get. rewrite Hl0.
            cbn [bind]. rewrite Hq0. reflexivity. }
          destruct (Hclean _ _ _ Hget0 Hqfin) as (tk & rest0 & Hch & Hnot).
          pose proof (chain_tokens_head _ _ _ _ _ _ Hch) as Hhead.
          unfold get2, get in Hhead. rewrite HlastT in Hhead.
          cbn [bind] in Hhead. rewrite Htok0 in Hhead.
          inversion Hhead; subst tk.
          exists tok0, rest0. split; [exact Hch|].
          intros [Hin|Hin]; [congruence | contradiction]. }
      destruct Hchain as (tok0 & rest0 & Hch & Hnot).
      exists tok, (tok0 :: rest0). split; [|exact Hnot].
      subst t. rewrite Hls, Hlb. cbn [chain_tokens].
      rewrite nth_error_app2 by lia.
      replace (S (length (TreeSearch.bookkeep st))
               - length (TreeSearch.outputs st)) with 0 by lia.
      cbn [nth_error]. rewrite Htok.
      rewrite nth_error_app2 by lia. rewrite Nat.sub_diag.
      cbn [nth_error]. rewrite Hsrc_h.
      rewrite chain_tokens_app by lia. rewrite Hch. reflexivity.
  - (* the finished traces *)
    rewrite Hfin'. apply Forall_app. split.
    + eapply Forall_impl; [|exact Hfin]. intros f (H1 & H2 & H3).
      rewrite Hout', Hall'. repeat split; try assumption;
        apply get2_app_old; assumption.
    + eapply Forall_impl; [|exact Hextra].
      intros f (Hts & Hid & _ & Htk & Hscf & Hne).
      rewrite Hout', Hall', Hts. rewrite Heos in Htk.
      split; [apply get2_last; exact Htk|].
      split; [|exact Hne]. rewrite <- Hls. apply get2_last. exact Hscf.
Qed.

(** ** The invariant along a run *)

Lemma nth_error_repeat_Some {A : Type} (x y : A) (n i : nat) :
  nth_error (repeat x n) i = Some y -> y = x /\ i < n.
Proof.
  intros E. split.
  - apply nth_error_In in E. apply repeat_spec in E. exact E.
  - rewrite <- (repeat_length x n). apply nth_error_Some. congruence.
Qed.

Lemma beam_inv_fresh (B : nat) (bn cbn : Z) (pad bos e : token) (minl : Z)
    (lpen : Q) (ctx : option (list token))
    (bl : option (list (Z * list (list token)))) :
  beam_inv B e (configure (TreeSearch.init B bn cbn pad bos e minl lpen) ctx bl).
Proof.
  constructor; destruct ctx; simpl; try reflexivity;
    try (repeat constructor; apply repeat_length).
  - intros t h s Hget _. unfold get2, get in Hget.
    destruct t as [|t]; simpl in Hget; [|destruct t; discriminate].
    destruct (nth_error (repeat (Fin 0) B) h) as [x|] eqn:Ex; [|discriminate].
    destruct (nth_error_repeat_Some _ _ _ _ Ex) as [_ Hh].
    destruct (nth_error_of_lt (repeat bos B) h) as [tok Htok];
      [rewrite repeat_length; exact Hh|].
    exists tok, []. cbn [chain_tokens nth_error]. rewrite Htok.
    split; [reflexivity | intros []].
  - intros t h s Hget _. unfold get2, get in Hget.
    destruct t as [|t]; simpl in Hget; [|destruct t; discriminate].
    destruct (nth_error (repeat (Fin 0) B) h) as [x|] eqn:Ex; [|discriminate].
    destruct (nth_error_repeat_Some _ _ _ _ Ex) as [_ Hh].
    destruct (nth_error_of_lt (repeat bos B) h) as [tok Htok];
      [rewrite repeat_length; exact Hh|].
    exists tok, []. cbn [chain_tokens nth_error]. rewrite Htok.
    split; [reflexivity | intros []].
Qed.

Lemma advance_all_preserves_inv (p : policy) (B : nat) (e : token)
    (inputs : list matrix) (st st' : TreeSearch.state) :
  (p = Greedy -> B = 1) ->
  Forall (well_shaped B) inputs ->
  beam_inv B e st ->
  TreeSearch.advance_all (select_of p) st inputs = Ok st' ->
  beam_inv B e st' /\
  (inputs <> [] \/ TreeSearch.bookkeep st <> [] ->
   TreeSearch.bookkeep st' <> []).
Proof.
  intros Hg Hshape Hinv E.
  assert (Hboth : beam_inv B e st' /\
                  (TreeSearch.bookkeep st <> [] ->
                   TreeSearch.bookkeep st' <> [])).
  { refine (advance_all_inv
              (fun s => beam_inv B e s /\
                        (TreeSearch.bookkeep st <> [] ->
                         TreeSearch.bookkeep s <> []))
              _ inputs _ st st' _ E).
    - intros s lp s' lp' Hin [Hs Hb] Hadv.
      rewrite Forall_forall in Hshape. destruct (Hshape lp Hin) as [Hr Hrect].
      split; [eapply advance_preserves_inv; eassumption|].
      intros _.
      destruct (advance_Ok _ _ _ _ _ Hadv)
        as (sc1 & [[hyps toks] scs] & _ & _ & Hrec).
      destruct (record_step_Ok _ _ _ _ _ Hrec)
        as (_ & _ & _ & _ & _ & _ & _ & _ & Hbk & _).
      rewrite Hbk. intros Hnil. apply app_eq_nil in Hnil.
      destruct Hnil; discriminate.
    - split; [exact Hinv | tauto]. }
  destruct Hboth as [Hinv' Hb]. split; [exact Hinv'|].
  intros [Hne|Hne]; [|apply Hb; exact Hne].
  destruct inputs as [|lp rest]; [congruence|].
  unfold TreeSearch.advance_all in E. cbn [foldM] in E.
  bind_inv E as s1 Hs1. bind_inv Hs1 as r Hr. inversion Hs1; subst s1.
  destruct r as [s1 lp1]. simpl in E.
  assert (Hb1 : TreeSearch.bookkeep s1 <> []).
  { destruct (advance_Ok _ _ _ _ _ Hr)
      as (sc1 & [[hyps toks] scs] & _ & _ & Hrec).
    destruct (record_step_Ok _ _ _ _ _ Hrec)
      as (_ & _ & _ & _ & _ & _ & _ & _ & Hbk & _).
    rewrite Hbk. intros Hnil. apply app_eq_nil in Hnil.
    destruct Hnil; discriminate. }
  refine (advance_all_inv (fun s => TreeSearch.bookkeep s <> [])
            _ rest _ s1 st' Hb1 E).
  intros s lp0 s' lp0' _ _ Hadv.
  destruct (advance_Ok _ _ _ _ _ Hadv)
    as (sc1 & [[hyps toks] scs] & _ & _ & Hrec).
  destruct (record_step_Ok _ _ _ _ _ Hrec)
    as (_ & _ & _ & _ & _ & _ & _ & _ & Hbk & _).
  rewrite Hbk. intros Hnil. apply app_eq_nil in Hnil.
  destruct Hnil; discriminate.
Qed.

(** ** [_get_hyp_from_finished] walks the chain *)

Lemma walk_back_chain (st : TreeSearch.state) (B : nat) (t h : nat) :
  length (TreeSearch.all_scores st) = length (TreeSearch.outputs st) ->
  length (TreeSearch.outputs st) = S (length (TreeSearch.bookkeep st)) ->
  Forall (fun row => length row = B) (TreeSearch.outputs st) ->
  Forall (fun row => length row = B) (TreeSearch.all_scores st) ->
  Forall (fun row => length row = B /\ Forall (fun p => p < B) row)
         (TreeSearch.bookkeep st) ->
  TreeSearch.bookkeep st <> [] ->
  t < length (TreeSearch.outputs st) -> h < B ->
  exists tails,
    TreeSearch.walk_back st t h = Ok tails /\
    chain_tokens (TreeSearch.outputs st) (TreeSearch.bookkeep st) t h
    = Some (map (@TreeSearch.tokenid lprob) tails).
Proof.
  intros Hls Hlb Hor Hsr Hbr Hne. revert h.
  assert (Hcell : forall (A : Type) (m : list (list A)) i j,
             Forall (fun row => length row = B) m ->
             i < length m -> j < B ->
             exists row x, nth_error m i = Some row /\ nth_error row j = Some x).
  { intros A m i j Hrows Hi Hj.
    destruct (nth_error_of_lt m i Hi) as [row Hrow].
    rewrite Forall_forall in Hrows.
    destruct (nth_error_of_lt row j) as [x Hx].
    - rewrite (Hrows row (nth_error_In _ _ Hrow)). exact Hj.
    - eauto. }
  induction t as [|t IH]; intros h Ht Hh.
  - destruct (Hcell _ (TreeSearch.all_scores st) 0 h Hsr) as (srow & s & Hs1 & Hs2);
      [lia | exact Hh |].
    destruct (Hcell _ (TreeSearch.outputs st) 0 h Hor) as (orow & tok & Ho1 & Ho2);
      [lia | exact Hh |].
    cbn [TreeSearch.walk_back chain_tokens]. unfold get2, get.
    rewrite Hs1, Ho1. cbn [bind]. rewrite Hs2, Ho2. cbn [bind].
    unfold get_last.
    destruct (rev (TreeSearch.bookkeep st)) as [|bk r] eqn:Er.
    { exfalso. apply Hne. rewrite <- (rev_involutive (TreeSearch.bookkeep st)), Er.
      reflexivity. }
    cbn [bind].
    assert (Hin : In bk (TreeSearch.bookkeep st)).
    { apply in_rev. rewrite Er. left. reflexivity. }
    rewrite Forall_forall in Hbr. destruct (Hbr bk Hin) as [Hlen _].
    destruct (nth_error_of_lt bk h) as [p Hp]; [lia|].
    rewrite Hp. cbn [bind]. eexists. split; reflexivity.
  - destruct (Hcell _ (TreeSearch.all_scores st) (S t) h Hsr)
      as (srow & s & Hs1 & Hs2); [lia | exact Hh |].
    destruct (Hcell _ (TreeSearch.outputs st) (S t) h Hor)
      as (orow & tok & Ho1 & Ho2); [lia | exact Hh |].
    destruct (nth_error_of_lt (TreeSearch.bookkeep st) t) as [bk Hbk]; [lia|].
    pose proof Hbr as Hbr'. rewrite Forall_forall in Hbr'.
    destruct (Hbr' bk (nth_error_In _ _ Hbk)) as [Hlen Hsrc].
    destruct (nth_error_of_lt bk h) as [p Hp]; [lia|].
    assert (Hplt : p < B).
    { rewrite Forall_forall in Hsrc. apply Hsrc. eapply nth_error_In. exact Hp. }
    destruct (IH p) as (rest & Hrest & Hchain); [lia | exact Hplt |].
    cbn [TreeSearch.walk_back chain_tokens]. unfold get2, get.
    rewrite Hs1, Ho1. cbn [bind]. rewrite Hs2, Ho2. cbn [bind].
    rewrite Hbk. cbn [bind]. rewrite Hp. cbn [bind].
    rewrite Hrest, Hchain. cbn [bind]. eexists. split; reflexivity.
Qed.

(** ** The hypotheses returned contain the end token once *)

Lemma count_one (e : token) (rest : list token) :
  ~ In e rest -> count_occ Nat.eq_dec (rev (e :: rest)) e = 1.
Proof.
  intros Hnot. rewrite count_occ_rev. simpl.
  destruct (Nat.eq_dec e e) as [_|Hne]; [|congruence].
  f_equal. apply count_occ_not_In. exact Hnot.
Qed.

(** The hypothesis of a slot that holds the end token, when the tokens before
    it are known to be free of it. *)
Lemma pretty_of_clean (st : TreeSearch.state) (B : nat) (e : token)
    (f : TreeSearch.HypothesisTail lprob) (rest : list token) :
  length (TreeSearch.all_scores st) = length (TreeSearch.outputs st) ->
  length (TreeSearch.outputs st) = S (length (TreeSearch.bookkeep st)) ->
  Forall (fun row => length row = B) (TreeSearch.outputs st) ->
  Forall (fun row => length row = B) (TreeSearch.all_scores st) ->
  Forall (fun row => length row = B /\ Forall (fun p => p < B) row)
         (TreeSearch.bookkeep st) ->
  TreeSearch.bookkeep st <> [] ->
  chain_tokens (TreeSearch.outputs st) (TreeSearch.bookkeep st)
    (TreeSearch.timestep f) (TreeSearch.hypid f) = Some (e :: rest) ->
  ~ In e rest ->
  exists ps,
    pretty_of st (TreeSearch.rescore_tail st f) = Ok ps /\
    count_occ Nat.eq_dec (fst ps) e = 1.
Proof.
  intros Hls Hlb Hor Hsr Hbr Hne Hchain Hnot.
  pose proof (chain_tokens_head _ _ _ _ _ _ Hchain) as Hhead.
  destruct (get2_row _ _ _ _ B Hor Hhead) as [Ht Hh].
  destruct (walk_back_chain st B _ _ Hls Hlb Hor Hsr Hbr Hne Ht Hh)
    as (tails & Hwalk & Hch).
  rewrite Hchain in Hch. inversion Hch as [Htoks].
  unfold pretty_of, TreeSearch._get_hyp_from_finished.
  cbn [TreeSearch.rescore_tail TreeSearch.timestep TreeSearch.hypid].
  rewrite Hwalk. cbn [bind]. eexists. split; [reflexivity|].
  cbn [fst]. unfold TreeSearch._get_pretty_hypothesis.
  rewrite map_rev, <- Htoks. apply count_one. exact Hnot.
Qed.

Lemma pretty_of_finished (st : TreeSearch.state) (B : nat) (e : token)
    (f : TreeSearch.HypothesisTail lprob) :
  beam_inv B e st ->
  TreeSearch.bookkeep st <> [] ->
  In f (TreeSearch.finished st) ->
  exists ps,
    pretty_of st (TreeSearch.rescore_tail st f) = Ok ps /\
    count_occ Nat.eq_dec (fst ps) e = 1.
Proof.
  intros [Hbeam Heos Hls Hlb Hor Hsr Hbr Hsc Hclean Hfin] Hne Hin.
  rewrite Forall_forall in Hfin. destruct (Hfin f Hin) as (Hout & Hscore & Hs).
  destruct (Hclean _ _ _ Hscore Hs) as (tok & rest & Hchain & Hnot).
  pose proof (chain_tokens_head _ _ _ _ _ _ Hchain) as Hhead.
  rewrite Hout in Hhead. inversion Hhead; subst tok.
  eapply pretty_of_clean; eassumption.
Qed.

Lemma nth_error_removelast_app {A : Type} (l : list A) (x : A) (i : nat) :
  i < length l - 1 -> nth_error (removelast l ++ [x]) i = nth_error l i.
Proof.
  intros Hi. rewrite removelast_firstn_len.
  rewrite nth_error_app1 by (rewrite length_firstn; lia).
  rewrite nth_error_firstn.
  destruct (Nat.ltb_spec i (pred (length l))); [reflexivity | lia].
Qed.

Lemma length_removelast_app {A : Type} (l : list A) (x : A) :
  l <> [] -> length (removelast l ++ [x]) = length l.
Proof.
  intros Hne. rewrite length_app, removelast_firstn_len, length_firstn.
  destruct l; [congruence | simpl; lia].
Qed.

Lemma nth_error_removelast_last {A : Type} (l : list A) (x : A) :
  l <> [] -> nth_error (removelast l ++ [x]) (length l - 1) = Some x.
Proof.
  intros Hne. rewrite nth_error_app2.
  - rewrite removelast_firstn_len, length_firstn.
    replace (length l - 1 - Nat.min (pred (length l)) (length l)) with 0 by lia.
    reflexivity.
  - rewrite removelast_firstn_len, length_firstn. lia.
Qed.

(** The hypothesis that [get_rescored_finished] forces for slot 0. *)
Lemma pretty_of_forced (st : TreeSearch.state) (B : nat) (e : token)
    (s0 : Z) (sc : list lprob) :
  beam_inv B e st ->
  TreeSearch.bookkeep st <> [] ->
  TreeSearch.finished st = [] ->
  get_last (TreeSearch.all_scores st) = Ok sc ->
  nth_error sc 0 = Some (Fin s0) ->
  exists st' f,
    TreeSearch.force_finished st = Ok st' /\
    TreeSearch.finished st' = [f] /\
    TreeSearch.eos st' = e /\
    exists ps,
      pretty_of st' (TreeSearch.rescore_tail st' f) = Ok ps /\
      count_occ Nat.eq_dec (fst ps) e = 1.
Proof.
  intros [Hbeam Heos Hls Hlb Hor Hsr Hbr Hsc Hclean Hfin] Hne Hnofin Hlast Hs0.
  assert (Hout_ne : TreeSearch.outputs st <> []).
  { intros Hnil. rewrite Hnil in Hlb. discriminate. }
  set (T := length (TreeSearch.bookkeep st)).
  assert (HT : length (TreeSearch.outputs st) - 1 = T) by (unfold T; lia).
  destruct (nth_error_of_lt (TreeSearch.outputs st) T) as [last Hl];
    [unfold T; lia|].
  assert (Hgl : get_last (TreeSearch.outputs st) = Ok last).
  { unfold get_last.
    destruct (rev (TreeSearch.outputs st)) as [|y r] eqn:Er.
    - exfalso. apply Hout_ne.
      rewrite <- (rev_involutive (TreeSearch.outputs st)), Er. reflexivity.
    - assert (Hy : get_last (TreeSearch.outputs st) = Ok y).
      { unfold get_last. rewrite Er. reflexivity. }
      apply get_last_nth in Hy. rewrite HT, Hl in Hy. congruence. }
  assert (HB : 0 < B).
  { apply get_last_nth in Hlast. rewrite Forall_forall in Hsr.
    rewrite <- (Hsr sc (nth_error_In _ _ Hlast)).
    apply nth_error_Some. congruence. }
  assert (Hlast_len : length last = B).
  { rewrite Forall_forall in Hor. apply Hor. eapply nth_error_In. exact Hl. }
  destruct (set_at_of_lt last 0 e) as [last' Hset]; [lia|].
  destruct (set_at_Ok _ _ _ _ Hset) as (_ & Hlen' & H0 & _).
  (* the chain of slot 0 before the end token is forced *)
  assert (Hget : get2 (TreeSearch.all_scores st) T 0 = Ok (Fin s0)).
  { apply get_last_nth in Hlast. rewrite Hls, HT in Hlast.
    unfold get2, get. rewrite Hlast. cbn [bind]. rewrite Hs0. reflexivity. }
  destruct (Hclean _ _ _ Hget) as (tok & rest & Hchain & Hnot); [discriminate|].
  eexists. eexists. split.
  { unfold TreeSearch.force_finished. rewrite Hnofin, Hgl. cbn [bind].
    rewrite Heos, Hset. cbn [bind]. rewrite Hlast. cbn [bind].
    unfold get. rewrite Hs0. cbn [bind]. reflexivity. }
  cbn [TreeSearch.finished TreeSearch.eos]. split; [reflexivity|].
  split; [reflexivity|].
  eapply pretty_of_clean with (B := B) (rest := rest);
    cbn [TreeSearch.all_scores TreeSearch.outputs TreeSearch.bookkeep
         TreeSearch.timestep TreeSearch.hypid];
    try assumption.
  - rewrite length_removelast_app by exact Hout_ne. exact Hls.
  - rewrite length_removelast_app by exact Hout_ne. exact Hlb.
  - apply Forall_app. split; [|repeat constructor; congruence].
    apply Forall_forall. intros row Hrow. rewrite Forall_forall in Hor.
    apply Hor. rewrite removelast_firstn_len in Hrow.
    eapply In_firstn. exact Hrow.
  - (* the chain with the forced token *)
    rewrite length_removelast_app by exact Hout_ne. rewrite HT.
    destruct (TreeSearch.bookkeep st) as [|b bs] eqn:Eb; [congruence|].
    unfold T in *. cbn [length] in *.
    cbn [chain_tokens] in Hchain |- *.
    rewrite Hl in Hchain.
    replace (S (length bs)) with (length (TreeSearch.outputs st) - 1) at 1 by lia.
    rewrite nth_error_removelast_last by exact Hout_ne. rewrite H0.
    destruct (nth_error last 0) as [tk|]; [|discriminate].
    destruct (nth_error (b :: bs) (length bs)) as [bk|]; [|discriminate].
    destruct (nth_error bk 0) as [p|]; [|discriminate].
    rewrite (chain_tokens_agree (TreeSearch.outputs st) _ (b :: bs) (b :: bs)).
    + destruct (chain_tokens (TreeSearch.outputs st) (b :: bs) (length bs) p);
        [|discriminate].
      inversion Hchain; subst. reflexivity.
    + intros i Hi. apply nth_error_removelast_app. lia.
    + intros i Hi. reflexivity.
Qed.

(* ------------------------------------------------------------------ *)
(** * The suppression of the end token in the constrained stepper *)

Lemma view_index (B s b : nat) :
  b < B -> (s * B + b) / B = s /\ (s * B + b) mod B = b.
Proof.
  intros Hb. split.
  - rewrite Nat.div_add_l by lia. rewrite Nat.div_small by lia. lia.
  - rewrite Nat.add_comm, Nat.Div0.mod_add. apply Nat.mod_small. lia.
Qed.

Lemma set_view_row_Ok (n B e : nat) (t : list matrix) (s b : nat) :
  shape3 n B e t -> b < B -> s < n ->
  exists t', LexicallyConstrainedBeamSearch.set_view_row B e t (s * B + b) = Ok t' /\
             shape3 n B e t' /\
             cell t' s b e = Some NegInf /\
             forall s' b', cell t s' b' e = Some NegInf ->
                           cell t' s' b' e = Some NegInf.
Proof.
  intros [Hn Hall] Hb Hs.
  destruct (view_index B s b Hb) as [Hdiv Hmod].
  unfold LexicallyConstrainedBeamSearch.set_view_row. rewrite Hdiv, Hmod.
  destruct (get_of_lt t s) as [m Hm]; [lia|].
  rewrite Hm. cbn [bind].
  pose proof Hm as Hm'. apply get_Ok in Hm'.
  assert (Hshape : length m = B /\ Forall (fun row => e < length row) m).
  { rewrite Forall_forall in Hall. apply Hall.
    eapply nth_error_In. exact Hm'. }
  destruct Hshape as [HmB Hrows].
  unfold set2.
  destruct (get_of_lt m b) as [row Hrow]; [lia|].
  rewrite Hrow. cbn [bind].
  pose proof Hrow as Hrow'. apply get_Ok in Hrow'.
  assert (He : e < length row).
  { rewrite Forall_forall in Hrows. apply Hrows.
    eapply nth_error_In. exact Hrow'. }
  destruct (set_at_of_lt row e NegInf He) as [row' Erow'].
  rewrite Erow'. cbn [bind].
  destruct (set_at_Ok _ _ _ _ Erow') as (_ & Hlen_row' & Hnth_row' & _).
  destruct (set_at_of_lt m b row') as [m' Em']; [lia|].
  rewrite Em'. cbn [bind].
  destruct (set_at_Ok _ _ _ _ Em') as (_ & Hlen_m' & Hnth_m' & Hoth_m').
  destruct (set_at_of_lt t s m') as [t' Et']; [lia|].
  rewrite Et'.
  destruct (set_at_Ok _ _ _ _ Et') as (_ & Hlen_t' & Hnth_t' & Hoth_t').
  exists t'. split; [reflexivity|].
  assert (Hm'shape : length m' = B /\ Forall (fun r => e < length r) m').
  { split; [lia|]. apply Forall_forall. intros r Hr.
    apply In_nth_error in Hr. destruct Hr as [j Hj].
    destruct (Nat.eq_dec j b) as [->|Hjb].
    - rewrite Hnth_m' in Hj. inversion Hj; subst. lia.
    - rewrite (Hoth_m' _ Hjb) in Hj.
      rewrite Forall_forall in Hrows. apply Hrows.
      eapply nth_error_In. exact Hj. }
  split; [|split].
  - split; [lia|]. apply Forall_forall. intros m0 Hm0.
    apply In_nth_error in Hm0. destruct Hm0 as [j Hj].
    destruct (Nat.eq_dec j s) as [->|Hjs].
    + pose proof (eq_trans (eq_sym Hj) Hnth_t') as Heq.
      inversion Heq; subst. exact Hm'shape.
    + pose proof (eq_trans (eq_sym Hj) (Hoth_t' _ Hjs)) as Heq.
      rewrite Forall_forall in Hall. apply Hall.
      eapply nth_error_In. symmetry. exact Heq.
  - unfold cell. rewrite Hnth_t', Hnth_m'. exact Hnth_row'.
  - intros s' b'. unfold cell.
    destruct (Nat.eq_dec s' s) as [->|Hs'].
    + rewrite Hnth_t', Hm'.
      destruct (Nat.eq_dec b' b) as [->|Hb'].
      * intros _. rewrite Hnth_m'. exact Hnth_row'.
      * rewrite (Hoth_m' _ Hb'). auto.
    + rewrite (Hoth_t' _ Hs'). auto.
Qed.

(** The loop over the positions of the unfinished items. *)
Lemma suppress_loop (n B e : nat) (idxs : list nat) :
  forall t,
  shape3 n B e t ->
  (forall i, In i idxs -> exists s b, i = s * B + b /\ b < B /\ s < n) ->
  exists t', foldM (LexicallyConstrainedBeamSearch.set_view_row B e) idxs t = Ok t' /\
             shape3 n B e t' /\
             (forall s b, b < B -> In (s * B + b) idxs ->
                          cell t' s b e = Some NegInf) /\
             forall s b, cell t s b e = Some NegInf ->
                         cell t' s b e = Some NegInf.
Proof.
  induction idxs as [|i idxs IH]; intros t Ht Hidx.
  - exists t. cbn [foldM]. repeat split; auto.
    + apply Ht.
    + apply Ht.
    + intros s b _ [].
  - destruct (Hidx i) as (s & b & -> & Hb & Hs); [left; reflexivity|].
    destruct (set_view_row_Ok n B e t s b Ht Hb Hs)
      as (t1 & E1 & Ht1 & Hcell1 & Hkeep1).
    destruct (IH t1 Ht1) as (t' & E' & Ht' & Hcells & Hkeep).
    { intros j Hj. apply Hidx. right. exact Hj. }
    exists t'. cbn [foldM]. rewrite E1. cbn [bind].
    split; [exact E'|]. split; [exact Ht'|]. split.
    + intros s' b' Hb' [Heq|Hin].
      * assert (s' = s /\ b' = b) as [-> ->].
        { destruct (view_index B s b Hb) as [D1 M1].
          destruct (view_index B s' b' Hb') as [D2 M2].
          rewrite <- Heq in D2, M2. split; congruence. }
        apply Hkeep. exact Hcell1.
      * apply Hcells; assumption.
    + intros s' b' Hc. apply Hkeep, Hkeep1, Hc.
Qed.

Section SuppressFacts.
Context {cs : Type} `{ConstraintState cs}.

Lemma not_finished_indices_spec (B : nat) (css : list (list cs)) (i : nat) :
  In i (LexicallyConstrainedBeamSearch.not_finished_indices B css) <->
  exists s b sts st,
    nth_error css s = Some sts /\ nth_error sts b = Some st /\
    cs_finished st = false /\ i = s * B + b.
Proof.
  unfold LexicallyConstrainedBeamSearch.not_finished_indices, enumerate.
  rewrite in_concat. split.
  - intros (l & Hl & Hi). apply in_map_iff in Hl.
    destruct Hl as ([s sts] & <- & Hs). apply indexed_spec in Hs.
    apply in_concat in Hi. destruct Hi as (l' & Hl' & Hi).
    apply in_map_iff in Hl'. destruct Hl' as ([b st] & <- & Hb).
    apply indexed_spec in Hb.
    destruct (cs_finished st) eqn:Ef; [destruct Hi|].
    destruct Hi as [<-|[]].
    exists s, b, sts, st. auto.
  - intros (s & b & sts & st & Hs & Hb & Ef & ->).
    eexists. split.
    + apply in_map_iff. exists (s, sts). split; [reflexivity|].
      apply indexed_spec. exact Hs.
    + apply in_concat. eexists. split.
      * apply in_map_iff. exists (b, st). split; [reflexivity|].
        apply indexed_spec. exact Hb.
      * rewrite Ef. left. reflexivity.
Qed.

(** At step 0 nothing is suppressed. *)
Lemma suppress_eos_first_step (self : LexicallyConstrainedBeamSearch.state)
    (B : nat) (lprobs : list matrix) :
  LexicallyConstrainedBeamSearch.suppress_eos self 0 B lprobs = Ok lprobs.
Proof.
  unfold LexicallyConstrainedBeamSearch.suppress_eos.
  destruct (LexicallyConstrainedBeamSearch.constraint_states self);
    reflexivity.
Qed.

Lemma suppress_eos_Ok (self : LexicallyConstrainedBeamSearch.state)
    (step_ B : nat) (lprobs : list matrix) :
  0 < step_ ->
  length lprobs
  = length (LexicallyConstrainedBeamSearch.constraint_states self) ->
  Forall (fun sts : list cs => length sts = B)
         (LexicallyConstrainedBeamSearch.constraint_states self) ->
  Forall (fun m : matrix =>
            length m = B /\
            Forall (fun row => LexicallyConstrainedBeamSearch.eos self
                               < length row) m) lprobs ->
  exists lprobs',
    LexicallyConstrainedBeamSearch.suppress_eos self step_ B lprobs
    = Ok lprobs' /\
    shape3 (length lprobs) B (LexicallyConstrainedBeamSearch.eos self)
           lprobs' /\
    (forall s b sts st,
       nth_error (LexicallyConstrainedBeamSearch.constraint_states self) s
       = Some sts ->
       nth_error sts b = Some st ->
       cs_finished st = false ->
       cell lprobs' s b (LexicallyConstrainedBeamSearch.eos self)
       = Some NegInf) /\
    forall s b,
      cell lprobs s b (LexicallyConstrainedBeamSearch.eos self) = Some NegInf ->
      cell lprobs' s b (LexicallyConstrainedBeamSearch.eos self) = Some NegInf.
Proof.
  intros Hstep Hlen Hcs Hlp.
  unfold LexicallyConstrainedBeamSearch.suppress_eos.
  destruct (LexicallyConstrainedBeamSearch.constraint_states self)
    as [|c0 crest] eqn:Ecs.
  - exists lprobs. split; [reflexivity|]. split; [split; auto|].
    split; [|auto]. intros s b sts st Hs. destruct s; discriminate.
  - apply Nat.ltb_lt in Hstep. rewrite Hstep. rewrite <- Ecs in *.
    assert (Hbound : forall s b sts st,
              nth_error (LexicallyConstrainedBeamSearch.constraint_states self) s
              = Some sts ->
              nth_error sts b = Some st -> b < B /\ s < length lprobs).
    { intros s b sts st Hs Hb. split.
      - rewrite Forall_forall in Hcs.
        rewrite <- (Hcs sts) by (eapply nth_error_In; exact Hs).
        apply nth_error_Some. congruence.
      - rewrite Hlen. apply nth_error_Some. congruence. }
    destruct (suppress_loop (length lprobs) B
                (LexicallyConstrainedBeamSearch.eos self)
                (LexicallyConstrainedBeamSearch.not_finished_indices B
                   (LexicallyConstrainedBeamSearch.constraint_states self))
                lprobs)
      as (t' & E & Ht' & Hcells & Hkeep).
    + split; [reflexivity | exact Hlp].
    + intros i Hi. apply not_finished_indices_spec in Hi.
      destruct Hi as (s & b & sts & st & Hs & Hb & _ & ->).
      destruct (Hbound s b sts st Hs Hb). exists s, b. auto.
    + exists t'. split; [exact E|]. split; [exact Ht'|].
      split; [|exact Hkeep].
      intros s b sts st Hs Hb Ef.
      destruct (Hbound s b sts st Hs Hb) as [HbB _].
      apply Hcells; [exact HbB|].
      apply not_finished_indices_spec. exists s, b, sts, st. auto.
Qed.

End SuppressFacts.

(* ------------------------------------------------------------------ *)
(** * The composite key of the ranking *)

Lemma sort_key_Fin (n b : nat) (z : Z) :
  LexicallyConstrainedBeamSearch.sort_key n b (Fin z)
  = Fin ((Z.of_nat n - Z.of_nat b) * (-100) + z).
Proof. reflexivity. Qed.

(** The key of a candidate is at most the key of another one exactly when
    the score of the other one makes up for 100 units per bank. *)
Lemma sort_key_le (n b1 b2 : nat) (z1 z2 : Z) :
  sleb (LexicallyConstrainedBeamSearch.sort_key n b1 (Fin z1))
       (LexicallyConstrainedBeamSearch.sort_key n b2 (Fin z2)) = true <->
  (100 * (Z.of_nat b1 - Z.of_nat b2) <= z2 - z1)%Z.
Proof.
  rewrite !sort_key_Fin. cbn [sleb]. rewrite Z.leb_le. lia.
Qed.

(* ================================================================== *)
(** * The claims *)

(** ** C1: the Beam policy *)

(** C1. [BeamSearch.select_paths] on a [rows x vocab] tensor with one prior
    score per row (or a single one at the first step, when only row 0 is
    looked at) returns [beam_size] source slots, tokens and scores: they are
    [i / vocab], [i mod vocab] and the score
    [logprobs[row][token] + prior[row]] of [beam_size] distinct flat indices
    [i], the scores come largest first, and no entry of the score space that
    was left out has a larger score than an entry returned. *)
Theorem beam_select_paths_topk (self : TreeSearch.state) (logprobs : matrix)
    (prior_scores : list lprob) (current_length : Z) :
  let V := vocab_of logprobs in
  let rows := beam_rows logprobs prior_scores in
  Forall (fun row => length row = V) logprobs ->
  length prior_scores = length logprobs \/ length prior_scores = 1 ->
  TreeSearch.beam_size self <= rows * V ->
  exists idxs scs,
    BeamSearch.select_paths self logprobs prior_scores current_length
    = Ok (map (fun i => i / V) idxs, map (fun i => i mod V) idxs, scs) /\
    length idxs = TreeSearch.beam_size self /\
    length scs = TreeSearch.beam_size self /\
    NoDup idxs /\
    Forall (fun i => i < rows * V) idxs /\
    map (flat_score logprobs prior_scores) idxs = map Some scs /\
    StronglySorted (fun a b => sle b a) scs /\
    (forall j y, j < rows * V -> ~ In j idxs ->
                 flat_score logprobs prior_scores j = Some y ->
                 Forall (fun s => sle y s) scs).
Proof.
  intros V rows Hrect Hlen HB.
  destruct (beam_select_paths_total self logprobs prior_scores current_length
              Hrect Hlen HB) as [res E].
  destruct (beam_select_paths_sound _ _ _ _ _ Hrect E)
    as (idxs & scs & Hres & Hrest).
  exists idxs, scs. split; [|exact Hrest].
  rewrite E, Hres. reflexivity.
Qed.

Lemma beam_select_paths_topk_witness :
  exists idxs scs,
    BeamSearch.select_paths sample_beam sample_2x3 sample_prior 1
    = Ok (map (fun i => i / 3) idxs, map (fun i => i mod 3) idxs, scs) /\
    length idxs = 2 /\
    length scs = 2 /\
    NoDup idxs /\
    Forall (fun i => i < 2 * 3) idxs /\
    map (flat_score sample_2x3 sample_prior) idxs = map Some scs /\
    StronglySorted (fun a b => sle b a) scs /\
    (forall j y, j < 2 * 3 -> ~ In j idxs ->
                 flat_score sample_2x3 sample_prior j = Some y ->
                 Forall (fun s => sle y s) scs).
Proof.
  apply (beam_select_paths_topk sample_beam sample_2x3 sample_prior 1).
  - repeat constructor.
  - left. reflexivity.
  - vm_compute. lia.
Defined.

(** The 2 x 3 case of the spec against the enumeration of its six sums
    [-1, -5, -3, -3, -5, -7]: the two best are [-1] (slot 0, token 0) and
    [-3] (slot 0, token 2). *)
Example beam_select_paths_2x3 :
  BeamSearch.select_paths sample_beam sample_2x3 sample_prior 1
  = Ok ([0; 0], [0; 2], [Fin (-1); Fin (-3)]).
Proof. reflexivity. Qed.

(** ** C7: the minimum-length guard *)

(** C7 (amended). In an [advance] call made while the current length is
    below the minimum length, the tensor that [select_paths] receives has
    minus infinity in the end-token column of every row; under the greedy
    and the beam policy a slot that still takes the end token has the score
    minus infinity, and the call records no finished trace. *)
Theorem min_length_guard_masks_eos (p : policy) (self : TreeSearch.state)
    (logprobs : matrix) (self' : TreeSearch.state) (logprobs' : matrix) :
  (TreeSearch.current_length self < TreeSearch.min_length self)%Z ->
  Forall (fun row => length row = vocab_of logprobs) logprobs ->
  TreeSearch.advance (select_of p) self logprobs = Ok (self', logprobs') ->
  exists scores1 hyp_ids tok_ids new_scores,
    TreeSearch.prepare self logprobs = Ok (logprobs', scores1) /\
    select_of p self logprobs' scores1 (TreeSearch.current_length self)
    = Ok (hyp_ids, tok_ids, new_scores) /\
    Forall (fun row => nth_error row (TreeSearch.eos self) = Some neginf)
           logprobs' /\
    (forall i s, nth_error tok_ids i = Some (TreeSearch.eos self) ->
                 nth_error new_scores i = Some s -> s = neginf) /\
    TreeSearch.outputs self' = TreeSearch.outputs self ++ [tok_ids] /\
    TreeSearch.all_scores self' = TreeSearch.all_scores self ++ [new_scores] /\
    TreeSearch.finished self' = TreeSearch.finished self.
Proof.
  intros Hlt Hrect E.
  destruct (advance_Ok _ _ _ _ _ E) as (sc1 & [[hyps toks] scs] & Hprep & Hsel & Hrec).
  exists sc1, hyps, toks, scs.
  pose proof (prepare_eos_column _ _ _ _ Hlt Hprep) as Hcol.
  pose proof (prepare_masked _ _ _ _ Hprep) as Hmask.
  assert (Hrect' : Forall (fun row => length row = vocab_of logprobs') logprobs').
  { rewrite (masked_from_vocab _ _ Hmask).
    eapply masked_from_rect; eassumption. }
  assert (Hdead : forall i s,
             nth_error toks i = Some (TreeSearch.eos self) ->
             nth_error scs i = Some s -> s = NegInf).
  { eapply select_eos_neginf; eassumption. }
  destruct (record_step_Ok _ _ _ _ _ Hrec)
    as (_ & _ & _ & _ & _ & _ & Hall & Hout & _).
  repeat split; try assumption.
  eapply record_step_no_eos; eassumption.
Qed.

Lemma min_length_guard_masks_eos_witness :
  exists self',
    TreeSearch.advance (select_of Beam) sample_beam sample_logprobs
    = Ok (self', [[NegInf; Fin (-9); NegInf; Fin (-2); Fin (-3)];
                  [NegInf; Fin (-9); NegInf; Fin (-2); Fin (-3)]]) /\
    TreeSearch.outputs self' = [[1; 1]; [3; 4]] /\
    TreeSearch.finished self' = [].
Proof.
  eexists. split; [vm_compute; reflexivity|].
  split; [reflexivity|].
  assert (Hlt : (TreeSearch.current_length sample_beam
                 < TreeSearch.min_length sample_beam)%Z) by (vm_compute; reflexivity).
  assert (Hrect : Forall (fun row => length row = vocab_of sample_logprobs)
                         sample_logprobs) by (repeat constructor).
  destruct (min_length_guard_masks_eos Beam sample_beam sample_logprobs _ _
              Hlt Hrect eq_refl) as (_ & _ & _ & _ & _ & _ & _ & _ & _ & _ & Hfin).
  exact Hfin.
Defined.

(** With a beam as wide as the vocabulary the end token is selected at step
    0 although the minimum length is 3. *)
Lemma min_length_eos_selected :
  exists self' logprobs',
    (TreeSearch.current_length wide_beam < TreeSearch.min_length wide_beam)%Z /\
    TreeSearch.advance (select_of Beam) wide_beam wide_logprobs
    = Ok (self', logprobs') /\
    TreeSearch.outputs self' = [[1; 1; 1]; [0; 1; TreeSearch.eos wide_beam]].
Proof.
  eexists. eexists. split; [vm_compute; reflexivity|].
  split; [vm_compute; reflexivity | reflexivity].
Qed.

(** ** C9: [advance] writes into the tensor of its caller *)




(** ** C10: greedy decoding has no minimum length *)

(** C10. For the inference method ['greedy'] the factory builds a
    [GreedySearch] whose minimum length is 0, whatever the configured
    [beam_min_length]; after any run of [advance] calls the minimum length is
    still 0 and the minimum-length guard leaves every tensor as it is. *)
Theorem greedy_factory_min_length (a : agent) (cls : search_class)
    (st : TreeSearch.state) :
  opt_get (opt_inference a) "greedy"%string = "greedy"%string ->
  _treesearch_factory a = Ok (cls, st) ->
  cls = GreedySearch_ /\
  TreeSearch.min_length st = 0%Z /\
  forall inputs st',
    TreeSearch.advance_all GreedySearch.select_paths st inputs = Ok st' ->
    TreeSearch.min_length st' = 0%Z /\
    forall logprobs, TreeSearch.min_length_guard st' logprobs = Ok logprobs.
Proof.
  intros Hm E. unfold _treesearch_factory in E. rewrite Hm in E.
  simpl in E. bind_inv E as st0 Hst0. inversion E; subst cls st0; clear E.
  unfold GreedySearch.init in Hst0.
  destruct (opt_get (opt_beam_size a) 1 =? 1); [|discriminate].
  inversion Hst0; subst st; clear Hst0.
  split; [reflexivity|]. split; [reflexivity|].
  intros inputs st' Hrun.
  assert (Hinv : TreeSearch.min_length st' = 0%Z /\
                 TreeSearch.all_scores st' <> []).
  { refine (advance_all_inv
              (fun s => TreeSearch.min_length s = 0%Z /\
                        TreeSearch.all_scores s <> [])
              _ inputs _ _ st' _ Hrun).
    - intros s lp s' lp' _ [Hmin _] Hadv.
      destruct (advance_fields _ _ _ _ _ Hadv) as [Hmin' Hne].
      split; [congruence | exact Hne].
    - split; [reflexivity | discriminate]. }
  destruct Hinv as [Hmin Hne]. split; [exact Hmin|].
  intros lp. apply min_length_guard_inactive.
  rewrite Hmin. unfold TreeSearch.current_length.
  destruct (TreeSearch.all_scores st'); [congruence | cbn [length]; lia].
Qed.

Lemma greedy_factory_min_length_witness :
  exists st,
    _treesearch_factory greedy_agent = Ok (GreedySearch_, st) /\
    beam_min_length greedy_agent = 5%Z /\
    TreeSearch.min_length st = 0%Z.
Proof.
  eexists. split; [reflexivity|]. split; [reflexivity|].
  destruct (greedy_factory_min_length greedy_agent GreedySearch_ _
              eq_refl eq_refl) as (_ & Hmin & _).
  exact Hmin.
Defined.

(** ** C5: rescoring *)



(** ** C8: the maximum length of the constrained adapter *)



(** ** C2: the ranking of the constrained stepper *)

(** C2 (the code at a failing input). At step 1 of [pending_search] the
    candidates of the sentence are the word 3 (score -10, bank 0) and the
    required word 4 (score -150, bank 1), each found twice; the sort by the
    composite key puts the two candidates of bank 0 before the two of bank 1:
    a score difference above 100 outweighs a bank. *)
Theorem rank_score_outweighs_bank :
  LexicallyConstrainedBeamSearch.add_constraints 1 pending_cumulative
    (enumerate [pending])
    (LexicallyConstrainedBeamSearch.mkCands
       [Fin (-10); Fin (-150); Fin (-10)] [3; 4; 3] [0; 0; 0]) None
  = Ok (LexicallyConstrainedBeamSearch.mkCands
          [Fin (-10); Fin (-150); Fin (-10); Fin (-150)] [3; 4; 3; 4]
          [0; 0; 0; 0],
        Some pending) /\
  LexicallyConstrainedBeamSearch.rank 1 [pending]
    (LexicallyConstrainedBeamSearch.mkCands
       [Fin (-10); Fin (-150); Fin (-10); Fin (-150)] [3; 4; 3; 4]
       [0; 0; 0; 0])
  = Ok (LexicallyConstrainedBeamSearch.mkCands
          [Fin (-10); Fin (-10); Fin (-150); Fin (-150)] [3; 3; 4; 4]
          [0; 0; 0; 0],
        [0; 0; 1; 1],
        [pending; pending; mkOrdered [4] 1; mkOrdered [4] 1]) /\
  LexicallyConstrainedBeamSearch.sort_key 1 0 (Fin (-10)) = Fin (-110) /\
  LexicallyConstrainedBeamSearch.sort_key 1 1 (Fin (-150)) = Fin (-150).
Proof. repeat split; reflexivity. Qed.

(** ** C4: the removal of duplicates *)


(** ** C6: the postconditions of [get_rescored_finished] *)




(** ** C3: the suppression of the end token *)




(* ================================================================== *)
(** * Further properties of the code *)

(** ** [_find_ngrams] *)

Lemma find_ngrams_nat_windows (l : list token) (n : nat) :
  0 < n ->
  TreeSearch.find_ngrams_nat l n
  = map (fun i => firstn n (skipn i l)) (seq 0 (length l + 1 - n)).
Proof.
  intros Hn. induction l as [|x rest IH].
  - cbn [TreeSearch.find_ngrams_nat length].
    replace (0 + 1 - n) with 0 by lia. reflexivity.
  - cbn [TreeSearch.find_ngrams_nat].
    destruct (Nat.leb_spec n (length (x :: rest))) as [Hle|Hgt].
    + cbn [length] in *.
      replace (S (length rest) + 1 - n) with (S (length rest + 1 - n)) by lia.
      cbn [seq map]. f_equal. rewrite IH, <- seq_shift, map_map. reflexivity.
    + cbn [length] in *.
      replace (S (length rest) + 1 - n) with 0 by lia. reflexivity.
Qed.

(** X1. [_find_ngrams(input_list, n)] is the list of the windows of [n]
    consecutive tokens of [input_list], from left to right: there are
    [len(input_list) + 1 - n] of them when [1 <= n <= len(input_list)], and
    none when [n] is larger or not positive. *)
Theorem find_ngrams_windows (input_list : list token) (n : Z) :
  TreeSearch._find_ngrams input_list n
  = if (n <=? 0)%Z then []
    else map (fun i => firstn (Z.to_nat n) (skipn i input_list))
             (seq 0 (length input_list + 1 - Z.to_nat n)).
Proof.
  unfold TreeSearch._find_ngrams.
  destruct (Z.leb_spec n 0) as [Hn|Hn]; [reflexivity|].
  apply find_ngrams_nat_windows. lia.
Qed.

Lemma In_find_ngrams (l : list token) (n : Z) (g : list token) :
  In g (TreeSearch._find_ngrams l n) <->
  (0 < n)%Z /\ exists i, i + Z.to_nat n <= length l /\
                         g = firstn (Z.to_nat n) (skipn i l).
Proof.
  unfold TreeSearch._find_ngrams.
  destruct (Z.leb_spec n 0) as [Hn|Hn].
  - split; [intros [] | intros [H _]; lia].
  - rewrite find_ngrams_nat_windows by lia. rewrite in_map_iff. split.
    + intros (i & <- & Hi). apply in_seq in Hi.
      split; [exact Hn|]. exists i. split; [lia | reflexivity].
    + intros (_ & i & Hi & ->). exists i. split; [reflexivity|].
      apply in_seq. lia.
Qed.

(* ------------------------------------------------------------------ *)
(** ** Blocking of n-grams *)

Lemma list_eqb_refl (l : list nat) : list_eqb Nat.eqb l l = true.
Proof.
  induction l as [|x l IH]; [reflexivity|].
  cbn [list_eqb]. rewrite Nat.eqb_refl, IH. reflexivity.
Qed.

Lemma set2_get2 {A : Type} (m : list (list A)) (r c : nat) (x : A)
    (m' : list (list A)) :
  set2 m r c x = Ok m' -> get2 m' r c = Ok x.
Proof.
  unfold set2, get2. intros E.
  bind_inv E as row Hrow. bind_inv E as row' Hrow'.
  destruct (set_at_Ok _ _ _ _ E) as (_ & _ & Hnth & _).
  destruct (set_at_Ok _ _ _ _ Hrow') as (_ & _ & Hnth' & _).
  unfold get. rewrite Hnth. cbn [bind]. rewrite Hnth'. reflexivity.
Qed.

Lemma masked_keeps_neginf (lp lp' : matrix) (r c : nat) :
  masked_from lp lp' -> get2 lp r c = Ok NegInf -> get2 lp' r c = Ok NegInf.
Proof.
  intros Hm E. unfold get2 in *. bind_inv E as row Hrow.
  apply get_Ok in Hrow, E.
  pose proof (Forall2_nth_error _ _ _ r Hm) as Hr. rewrite Hrow in Hr.
  destruct (nth_error lp' r) as [row'|] eqn:Erow'; [|contradiction].
  unfold get at 1. rewrite Erow'. cbn [bind].
  pose proof (Forall2_nth_error _ _ _ c Hr) as Hc. rewrite E in Hc.
  unfold get. destruct (nth_error row' c) as [x'|]; [|contradiction].
  destruct Hc as [->| ->]; reflexivity.
Qed.

(** A loop of maskings: what one iteration establishes, and a masking
    keeps, holds in the end for every element of the loop. *)
Lemma foldM_establish {A : Type} (f : matrix -> A -> result matrix)
    (Q : A -> matrix -> Prop) (l : list A) :
  (forall lp x lp', In x l -> f lp x = Ok lp' ->
                    masked_from lp lp' /\ Q x lp') ->
  (forall x lp lp', Q x lp -> masked_from lp lp' -> Q x lp') ->
  forall lp lp', foldM f l lp = Ok lp' ->
                 masked_from lp lp' /\ forall x, In x l -> Q x lp'.
Proof.
  intros Hstep Hkeep. induction l as [|y l IH]; intros lp lp' E.
  - inversion E; subst. split; [apply masked_from_refl | intros x []].
  - cbn [foldM] in E. bind_inv E as lp1 H1.
    destruct (Hstep _ _ _ (or_introl eq_refl) H1) as [Hm1 HQ1].
    destruct IH with (lp := lp1) (lp' := lp') as [Hm HQ].
    + intros lp0 x lp0' Hx. apply Hstep. right. exact Hx.
    + exact E.
    + split; [eapply masked_from_trans; eassumption|].
      intros x [<-|Hx]; [eapply Hkeep; eassumption | apply HQ; exact Hx].
Qed.

Lemma block_one_sets (n : Z) (beam_id : nat) (prefix : list token)
    (lp : matrix) (g : list token) (lp' : matrix) :
  TreeSearch.block_one n beam_id prefix lp g = Ok lp' ->
  blocks n prefix g ->
  exists t, get_last g = Ok t /\ get2 lp' beam_id t = Ok NegInf.
Proof.
  unfold TreeSearch.block_one. intros E Hb.
  assert (Hc : (n =? 1)%Z || list_eqb Nat.eqb prefix (removelast g) = true).
  { destruct Hb as [->| ->]; [reflexivity|].
    rewrite list_eqb_refl. apply orb_true_r. }
  rewrite Hc in E. bind_inv E as t Ht. exists t. split; [exact Ht|].
  eapply set2_get2. exact E.
Qed.

Lemma block_loop_sets (n : Z) (beam_id : nat) (prefix : list token)
    (ngrams : list (list token)) (lp lp' : matrix) :
  foldM (TreeSearch.block_one n beam_id prefix) ngrams lp = Ok lp' ->
  masked_from lp lp' /\
  forall g, In g ngrams -> blocks n prefix g ->
            exists t, get_last g = Ok t /\ get2 lp' beam_id t = Ok NegInf.
Proof.
  intros E.
  refine (foldM_establish _
            (fun g m => blocks n prefix g ->
                        exists t, get_last g = Ok t /\
                                  get2 m beam_id t = Ok NegInf)
            ngrams _ _ lp lp' E).
  - intros m g m' _ Hg. split; [eapply block_one_masked; exact Hg|].
    intros Hb. eapply block_one_sets; eassumption.
  - intros g m m' HQ Hm Hb. destruct (HQ Hb) as (t & Ht & Hget).
    exists t. split; [exact Ht|]. eapply masked_keeps_neginf; eassumption.
Qed.

Lemma block_ngrams_sets (self : TreeSearch.state) (n : Z) (lp : matrix)
    (source : option (list token)) (lp' : matrix) :
  TreeSearch._block_ngrams self n lp source = Ok lp' ->
  forall beam_id hyp g,
    nth_error (TreeSearch.partial_hyps self) beam_id = Some hyp ->
    (n - 1 <= Z.of_nat (length hyp))%Z ->
    In g (TreeSearch._find_ngrams
            (match source with None => hyp | Some s => s end) n) ->
    blocks n (slice_from (- (n - 1)) hyp) g ->
    exists t, get_last g = Ok t /\ get2 lp' beam_id t = Ok NegInf.
Proof.
  unfold TreeSearch._block_ngrams. intros E beam_id hyp g Hhyp Hlen Hg Hb.
  match type of E with
  | foldM ?f _ _ = _ =>
      destruct (foldM_establish f
                  (fun (bh : nat * list token) m =>
                     forall g,
                       (n - 1 <= Z.of_nat (length (snd bh)))%Z ->
                       In g (TreeSearch._find_ngrams
                               (match source with
                                | None => snd bh
                                | Some s => s
                                end) n) ->
                       blocks n (slice_from (- (n - 1)) (snd bh)) g ->
                       exists t, get_last g = Ok t /\
                                 get2 m (fst bh) t = Ok NegInf)
                  (enumerate (TreeSearch.partial_hyps self))) with
        (lp := lp) (lp' := lp') as [_ HQ]
  end.
  - intros m [b h] m' _ Hstep. cbn [fst snd].
    destruct (Z.ltb_spec (Z.of_nat (length h)) (n - 1)) as [Hlt|Hge].
    + inversion Hstep; subst m'. split; [apply masked_from_refl|].
      intros g0 Hl. lia.
    + destruct (block_loop_sets _ _ _ _ _ _ Hstep) as [Hm Hset].
      split; [exact Hm|]. intros g0 _ Hg0 Hb0. apply Hset; assumption.
  - intros [b h] m m' HQ Hm g0 Hl Hg0 Hb0.
    destruct (HQ g0 Hl Hg0 Hb0) as (t & Ht & Hget).
    exists t. split; [exact Ht|]. eapply masked_keeps_neginf; eassumption.
  - exact E.
  - apply (HQ (beam_id, hyp)); try assumption.
    unfold enumerate. apply indexed_spec. exact Hhyp.
Qed.

Lemma block_block_list_sets (self : TreeSearch.state) (lp lp' : matrix)
    (items : list (Z * list (list token))) :
  TreeSearch.block_list self = Some items ->
  TreeSearch._block_block_list self lp = Ok lp' ->
  forall beam_id hyp n ngrams g,
    nth_error (TreeSearch.partial_hyps self) beam_id = Some hyp ->
    In (n, ngrams) items -> In g ngrams ->
    blocks n (slice_from (- (n - 1)) hyp) g ->
    exists t, get_last g = Ok t /\ get2 lp' beam_id t = Ok NegInf.
Proof.
  unfold TreeSearch._block_block_list. intros Hbl E. rewrite Hbl in E.
  intros beam_id hyp n ngrams g Hhyp Hit Hg Hb.
  match type of E with
  | foldM ?f _ _ = _ =>
      destruct (foldM_establish f
                  (fun (bh : nat * list token) m =>
                     forall n ngrams g,
                       In (n, ngrams) items -> In g ngrams ->
                       blocks n (slice_from (- (n - 1)) (snd bh)) g ->
                       exists t, get_last g = Ok t /\
                                 get2 m (fst bh) t = Ok NegInf)
                  (enumerate (TreeSearch.partial_hyps self))) with
        (lp := lp) (lp' := lp') as [_ HQ]
  end.
  - intros m [b h] m' _ Hstep. cbn [fst snd].
    match type of Hstep with
    | foldM ?f2 _ _ = _ =>
        destruct (foldM_establish f2
                    (fun (it : Z * list (list token)) m0 =>
                       forall g,
                         In g (snd it) ->
                         blocks (fst it) (slice_from (- (fst it - 1)) h) g ->
                         exists t, get_last g = Ok t /\
                                   get2 m0 b t = Ok NegInf)
                    items) with (lp := m) (lp' := m') as [Hm HQ2]
    end.
    + intros m0 [n0 ng0] m0' _ Hs. cbn [fst snd].
      destruct (block_loop_sets _ _ _ _ _ _ Hs) as [Hm0 Hset].
      split; [exact Hm0 | exact Hset].
    + intros [n0 ng0] m0 m0' HQ0 Hm0 g0 Hg0 Hb0.
      destruct (HQ0 g0 Hg0 Hb0) as (t & Ht & Hget).
      exists t. split; [exact Ht|]. eapply masked_keeps_neginf; eassumption.
    + exact Hstep.
    + split; [exact Hm|]. intros n0 ng0 g0 Hit0 Hg0 Hb0.
      apply (HQ2 (n0, ng0) Hit0 g0 Hg0 Hb0).
  - intros [b h] m m' HQ0 Hm n0 ng0 g0 Hit0 Hg0 Hb0.
    destruct (HQ0 n0 ng0 g0 Hit0 Hg0 Hb0) as (t & Ht & Hget).
    exists t. split; [exact Ht|]. eapply masked_keeps_neginf; eassumption.
  - exact E.
  - apply (HQ (beam_id, hyp)) with (n := n) (ngrams := ngrams);
      try assumption.
    unfold enumerate. apply indexed_spec. exact Hhyp.
Qed.

(** ** What a selection does with an entry that is minus infinity *)

Lemma nth_error_seq_0 (n i h : nat) :
  nth_error (seq 0 n) i = Some h -> h = i /\ i < n.
Proof.
  intros E.
  assert (Hi : i < n).
  { rewrite <- (length_seq n 0). apply nth_error_Some. congruence. }
  rewrite nth_error_seq in E.
  destruct (Nat.ltb_spec i n); [|lia].
  inversion E. lia.
Qed.

Lemma select_cell_neginf (p : policy) (self : TreeSearch.state) (lp : matrix)
    (prior : list lprob) (len : Z) (hyps : list nat) (toks : list token)
    (scs : list lprob) :
  Forall (fun row => length row = vocab_of lp) lp ->
  select_of p self lp prior len = Ok (hyps, toks, scs) ->
  forall i h t s,
    nth_error hyps i = Some h -> nth_error toks i = Some t ->
    nth_error scs i = Some s ->
    get2 lp h t = Ok NegInf -> s = NegInf.
Proof.
  intros Hrect E i h t s Hh Ht Hs Hcell. destruct p; simpl in E.
  - destruct (greedy_select_paths_Ok _ _ _ _ _ _ _ E)
      as (best & Hbest & Hhyps & Htoks & Hadd).
    subst hyps toks. apply nth_error_seq_0 in Hh. destruct Hh as [-> Hlt].
    rewrite nth_error_map in Ht.
    destruct (nth_error best i) as [[j x]|] eqn:Eb; [|discriminate].
    simpl in Ht. inversion Ht; subst j.
    destruct (nth_error_of_lt lp i Hlt) as [row Erow].
    destruct (mapM_Ok_nth _ _ _ Hbest _ _ Erow) as [y [Hy Hmax]].
    rewrite Eb in Hy. inversion Hy; subst y.
    apply row_max_Ok in Hmax. simpl in Hmax.
    unfold get2, get in Hcell. rewrite Erow in Hcell. cbn [bind] in Hcell.
    rewrite Hmax in Hcell. inversion Hcell; subst x.
    destruct (broadcast_add_Ok _ _ _ i s Hadd Hs) as [Hleft _].
    apply Hleft. rewrite nth_error_map, Eb. reflexivity.
  - pose proof (beam_additive _ _ _ _ _ Hrect E) as Hadd.
    unfold additive in Hadd.
    destruct (Hadd i h t Hh Ht) as (x & q & Hx & _ & Hsum).
    rewrite Hcell in Hx. inversion Hx; subst x.
    rewrite Hs in Hsum. inversion Hsum. reflexivity.
Qed.

(** The last [n] tokens of a hypothesis extended by a token. *)
Lemma last_ngram_of_extension (hyp : list token) (t : token) (n : Z) :
  (0 < n)%Z -> (n <= Z.of_nat (length hyp))%Z ->
  slice_from (- n) (hyp ++ [t])
  = skipn (length hyp + 1 - Z.to_nat n) hyp ++ [t] /\
  ((1 < n)%Z ->
   slice_from (- (n - 1)) hyp = skipn (length hyp + 1 - Z.to_nat n) hyp).
Proof.
  intros Hn Hle. unfold slice_from. split.
  - destruct (Z.leb_spec 0 (- n)); [lia|].
    rewrite length_app. cbn [length].
    replace (Z.to_nat (Z.of_nat (length hyp + 1) + - n))
      with (length hyp + 1 - Z.to_nat n) by lia.
    rewrite skipn_app.
    replace (length hyp + 1 - Z.to_nat n - length hyp) with 0 by lia.
    reflexivity.
  - intros H1. destruct (Z.leb_spec 0 (- (n - 1))); [lia|].
    f_equal. lia.
Qed.

Lemma advance_block_all (self : TreeSearch.state) (lp0 lp' : matrix) :
  (0 < TreeSearch.block_ngram self)%Z ->
  TreeSearch.block_all self lp0 = Ok lp' ->
  exists lp1,
    TreeSearch._block_ngrams self (TreeSearch.block_ngram self) lp0 None
    = Ok lp1 /\ masked_from lp1 lp'.
Proof.
  intros Hn E. unfold TreeSearch.block_all in E.
  apply Z.ltb_lt in Hn. rewrite Hn in E.
  bind_inv E as lp1 H1. bind_inv E as lp2 H2.
  exists lp1. split; [exact H1|].
  eapply masked_from_trans; [eapply block_block_list_masked; exact H2|].
  destruct (0 <? TreeSearch.context_block_ngram self)%Z.
  - destruct (TreeSearch.context self); [|discriminate].
    eapply block_ngrams_masked. exact E.
  - inversion E. apply masked_from_refl.
Qed.

Lemma advance_block_list (self : TreeSearch.state) (lp0 lp' : matrix) :
  TreeSearch.block_all self lp0 = Ok lp' ->
  exists lp1 lp2,
    masked_from lp0 lp1 /\
    TreeSearch._block_block_list self lp1 = Ok lp2 /\ masked_from lp2 lp'.
Proof.
  intros E. unfold TreeSearch.block_all in E.
  bind_inv E as lp1 H1. bind_inv E as lp2 H2.
  exists lp1, lp2. split; [|split; [exact H2|]].
  - destruct (0 <? TreeSearch.block_ngram self)%Z.
    + eapply block_ngrams_masked. exact H1.
    + inversion H1. apply masked_from_refl.
  - destruct (0 <? TreeSearch.context_block_ngram self)%Z.
    + destruct (TreeSearch.context self); [|discriminate].
      eapply block_ngrams_masked. exact E.
    + inversion E. apply masked_from_refl.
Qed.

(** What [advance] hands on: the tensor after the maskings, rectangular as
    the one passed, and the three rows it appends. *)
Lemma advance_parts (p : policy) (self : TreeSearch.state) (lp : matrix)
    (self' : TreeSearch.state) (lp' : matrix) :
  Forall (fun row => length row = vocab_of lp) lp ->
  TreeSearch.advance (select_of p) self lp = Ok (self', lp') ->
  exists lp0 sc1 hyps toks scs,
    TreeSearch.min_length_guard self lp = Ok lp0 /\
    TreeSearch.block_all self lp0 = Ok lp' /\
    Forall (fun row => length row = vocab_of lp') lp' /\
    select_of p self lp' sc1 (TreeSearch.current_length self)
    = Ok (hyps, toks, scs) /\
    TreeSearch.record_step self (hyps, toks, scs) = Ok self' /\
    TreeSearch.bookkeep self' = TreeSearch.bookkeep self ++ [hyps] /\
    TreeSearch.outputs self' = TreeSearch.outputs self ++ [toks] /\
    TreeSearch.all_scores self' = TreeSearch.all_scores self ++ [scs].
Proof.
  intros Hrect E.
  destruct (advance_Ok _ _ _ _ _ E)
    as (sc1 & [[hyps toks] scs] & Hprep & Hsel & Hrec).
  pose proof (prepare_masked _ _ _ _ Hprep) as Hmask.
  destruct (prepare_Ok _ _ _ _ Hprep) as (lp0 & Hg & _ & Hblock).
  destruct (record_step_Ok _ _ _ _ _ Hrec)
    as (_ & _ & _ & _ & _ & _ & Hall & Hout & Hbk & _).
  exists lp0, sc1, hyps, toks, scs.
  repeat split; try assumption.
  rewrite (masked_from_vocab _ _ Hmask).
  eapply masked_from_rect; eassumption.
Qed.

(** X2. With [block_ngram = n > 0], a slot whose new token completes an
    n-gram that its source hypothesis already holds gets the score minus
    infinity in [advance], under the greedy and the beam policy: no
    hypothesis repeats one of its n-grams with a finite score. *)
Theorem advance_blocks_repeated_ngram (p : policy) (self : TreeSearch.state)
    (logprobs : matrix) (self' : TreeSearch.state) (logprobs' : matrix) :
  (0 < TreeSearch.block_ngram self)%Z ->
  Forall (fun row => length row = vocab_of logprobs) logprobs ->
  TreeSearch.advance (select_of p) self logprobs = Ok (self', logprobs') ->
  exists hyp_ids tok_ids new_scores,
    TreeSearch.bookkeep self' = TreeSearch.bookkeep self ++ [hyp_ids] /\
    TreeSearch.outputs self' = TreeSearch.outputs self ++ [tok_ids] /\
    TreeSearch.all_scores self' = TreeSearch.all_scores self ++ [new_scores] /\
    forall i h t s hyp,
      nth_error hyp_ids i = Some h -> nth_error tok_ids i = Some t ->
      nth_error new_scores i = Some s ->
      nth_error (TreeSearch.partial_hyps self) h = Some hyp ->
      In (slice_from (- TreeSearch.block_ngram self) (hyp ++ [t]))
         (TreeSearch._find_ngrams hyp (TreeSearch.block_ngram self)) ->
      s = NegInf.
Proof.
  intros Hn Hrect E.
  destruct (advance_parts _ _ _ _ _ Hrect E)
    as (lp0 & sc1 & hyps & toks & scs & _ & Hblock & Hrect' & Hsel & _
        & Hbk & Hout & Hall).
  exists hyps, toks, scs. repeat split; try assumption.
  intros i h t s hyp Hh Ht Hs Hhyp Hin.
  destruct (advance_block_all _ _ _ Hn Hblock) as (lp1 & H1 & Hm1).
  set (n := TreeSearch.block_ngram self) in *.
  pose proof Hin as Hin'. apply In_find_ngrams in Hin'.
  destruct Hin' as (_ & j & Hj & _).
  assert (Hle : (n <= Z.of_nat (length hyp))%Z) by lia.
  destruct (last_ngram_of_extension hyp t n Hn Hle) as [Hg Hpre].
  destruct (block_ngrams_sets _ _ _ _ _ H1 h hyp _ Hhyp ltac:(lia) Hin)
    as (t' & Ht' & Hcell).
  { unfold blocks. destruct (Z.eq_dec n 1) as [H1n|H1n]; [left; exact H1n|].
    right. rewrite Hg, removelast_last. symmetry. apply Hpre. lia. }
  rewrite Hg, get_last_app in Ht'. inversion Ht'; subst t'.
  eapply (select_cell_neginf p); try eassumption.
  eapply masked_keeps_neginf; eassumption.
Qed.

Lemma advance_blocks_repeated_ngram_witness :
  exists self' logprobs' hyp_ids tok_ids new_scores,
    TreeSearch.advance (select_of Beam) unigram_beam (word_step (-1))
    = Ok (self', logprobs') /\
    TreeSearch.bookkeep self' = TreeSearch.bookkeep unigram_beam ++ [hyp_ids] /\
    TreeSearch.outputs self' = TreeSearch.outputs unigram_beam ++ [tok_ids] /\
    TreeSearch.all_scores self'
    = TreeSearch.all_scores unigram_beam ++ [new_scores] /\
    forall i h t s hyp,
      nth_error hyp_ids i = Some h -> nth_error tok_ids i = Some t ->
      nth_error new_scores i = Some s ->
      nth_error (TreeSearch.partial_hyps unigram_beam) h = Some hyp ->
      In (slice_from (- 1) (hyp ++ [t])) (TreeSearch._find_ngrams hyp 1) ->
      s = NegInf.
Proof.
  destruct (TreeSearch.advance (select_of Beam) unigram_beam (word_step (-1)))
    as [[self' logprobs']|e] eqn:E; [|vm_compute in E; discriminate].
  exists self', logprobs'.
  destruct (advance_blocks_repeated_ngram Beam unigram_beam (word_step (-1))
              self' logprobs') as (h & t & s & H).
  - reflexivity.
  - repeat constructor.
  - exact E.
  - exists h, t, s. split; [reflexivity | exact H].
Defined.

(** After the word 3 the same tensor gives the word 4: the word 3, the best
    one, is blocked. *)
Example unigram_blocking_run :
  exists st,
    TreeSearch.advance_all (select_of Beam)
      (TreeSearch.init 1 1 (-1) 0 1 2 0 (65 # 100)%Q)
      [word_step (-1); word_step (-1)] = Ok st /\
    TreeSearch.outputs st = [[1]; [3]; [4]] /\
    TreeSearch.partial_hyps st = [[1; 3; 4]].
Proof. eexists. split; [vm_compute; reflexivity|]. split; reflexivity. Qed.

(** X3. A slot whose source hypothesis ends with all but the last token of
    an n-gram of the block list, and whose new token is the last token of
    that n-gram, gets the score minus infinity in [advance] (for an n-gram of
    one token, whatever the hypothesis). *)
Theorem advance_blocks_block_list (p : policy) (self : TreeSearch.state)
    (logprobs : matrix) (self' : TreeSearch.state) (logprobs' : matrix)
    (items : list (Z * list (list token))) :
  TreeSearch.block_list self = Some items ->
  Forall (fun row => length row = vocab_of logprobs) logprobs ->
  TreeSearch.advance (select_of p) self logprobs = Ok (self', logprobs') ->
  exists hyp_ids tok_ids new_scores,
    TreeSearch.bookkeep self' = TreeSearch.bookkeep self ++ [hyp_ids] /\
    TreeSearch.outputs self' = TreeSearch.outputs self ++ [tok_ids] /\
    TreeSearch.all_scores self' = TreeSearch.all_scores self ++ [new_scores] /\
    forall i h t s hyp ngram_size bad_ngrams ngram,
      nth_error hyp_ids i = Some h -> nth_error tok_ids i = Some t ->
      nth_error new_scores i = Some s ->
      nth_error (TreeSearch.partial_hyps self) h = Some hyp ->
      In (ngram_size, bad_ngrams) items -> In ngram bad_ngrams ->
      get_last ngram = Ok t ->
      (ngram_size = 1%Z \/
       removelast ngram = slice_from (- (ngram_size - 1)) hyp) ->
      s = NegInf.
Proof.
  intros Hbl Hrect E.
  destruct (advance_parts _ _ _ _ _ Hrect E)
    as (lp0 & sc1 & hyps & toks & scs & _ & Hblock & Hrect' & Hsel & _
        & Hbk & Hout & Hall).
  exists hyps, toks, scs. repeat split; try assumption.
  intros i h t s hyp n ngrams g Hh Ht Hs Hhyp Hit Hg Hlast Hb.
  destruct (advance_block_list _ _ _ Hblock) as (lp1 & lp2 & _ & H2 & Hm2).
  destruct (block_block_list_sets _ _ _ _ Hbl H2 h hyp n ngrams g
              Hhyp Hit Hg Hb) as (t' & Ht' & Hcell).
  rewrite Hlast in Ht'. inversion Ht'; subst t'.
  eapply (select_cell_neginf p); try eassumption.
  eapply masked_keeps_neginf; eassumption.
Qed.

Lemma advance_blocks_block_list_witness :
  exists self' logprobs' hyp_ids tok_ids new_scores,
    TreeSearch.advance (select_of Beam) listed_beam (word_step (-1))
    = Ok (self', logprobs') /\
    TreeSearch.outputs self' = TreeSearch.outputs listed_beam ++ [tok_ids] /\
    TreeSearch.all_scores self'
    = TreeSearch.all_scores listed_beam ++ [new_scores] /\
    tok_ids = [4] /\
    forall i h t s hyp ngram_size bad_ngrams ngram,
      nth_error hyp_ids i = Some h -> nth_error tok_ids i = Some t ->
      nth_error new_scores i = Some s ->
      nth_error (TreeSearch.partial_hyps listed_beam) h = Some hyp ->
      In (ngram_size, bad_ngrams) [(2%Z, [[1; 3]])] -> In ngram bad_ngrams ->
      get_last ngram = Ok t ->
      (ngram_size = 1%Z \/
       removelast ngram = slice_from (- (ngram_size - 1)) hyp) ->
      s = NegInf.
Proof.
  destruct (TreeSearch.advance (select_of Beam) listed_beam (word_step (-1)))
    as [[self' logprobs']|e] eqn:E; [|vm_compute in E; discriminate].
  exists self', logprobs'.
  destruct (advance_blocks_block_list Beam listed_beam (word_step (-1))
              self' logprobs' [(2%Z, [[1; 3]])])
    as (h & t & s & Hbk & Hout & Hall & H).
  - reflexivity.
  - repeat constructor.
  - exact E.
  - exists h, t, s. split; [reflexivity|].
    split; [exact Hout|]. split; [exact Hall|]. split; [|exact H].
    vm_compute in E. inversion E; subst self'. simpl in Hout.
    inversion Hout. reflexivity.
Defined.

(* ------------------------------------------------------------------ *)
(** ** The bookkeeping of [advance] *)

Lemma record_step_partial (self : TreeSearch.state) (hyps : list nat)
    (toks : list token) (scs : list lprob) (self' : TreeSearch.state) :
  TreeSearch.record_step self (hyps, toks, scs) = Ok self' ->
  length (TreeSearch.partial_hyps self') = TreeSearch.beam_size self /\
  forall i ph',
    nth_error (TreeSearch.partial_hyps self') i = Some ph' ->
    exists h ph t,
      nth_error hyps i = Some h /\
      nth_error (TreeSearch.partial_hyps self) h = Some ph /\
      nth_error toks i = Some t /\ ph' = ph ++ [t].
Proof.
  unfold TreeSearch.record_step. intros E.
  bind_inv E as partial' Hpartial. bind_inv E as fin Hfin.
  bind_inv E as t0 Ht0. inversion E; subst; clear E.
  cbn [TreeSearch.partial_hyps TreeSearch.beam_size].
  pose proof (mapM_Ok_length _ _ _ Hpartial) as Hlen.
  rewrite length_seq in Hlen. split; [exact Hlen|].
  intros i ph' Hi.
  assert (Hlt : i < TreeSearch.beam_size self).
  { rewrite <- Hlen. apply nth_error_Some. congruence. }
  assert (Ei : nth_error (seq 0 (TreeSearch.beam_size self)) i = Some i).
  { rewrite nth_error_seq. destruct (Nat.ltb_spec i (TreeSearch.beam_size self));
      [reflexivity | lia]. }
  destruct (mapM_Ok_nth _ _ _ Hpartial _ _ Ei) as [y [Hy Hf]].
  rewrite Hi in Hy. inversion Hy; subst y.
  bind_inv Hf as h Hh. bind_inv Hf as ph Hph. bind_inv Hf as t Ht.
  inversion Hf; subst ph'. apply get_Ok in Hh, Hph, Ht.
  exists h, ph, t. auto.
Qed.

Lemma record_step_counter (self : TreeSearch.state) (hyps : list nat)
    (toks : list token) (scs : list lprob) (self' : TreeSearch.state) :
  TreeSearch.record_step self (hyps, toks, scs) = Ok self' ->
  (exists extra,
      TreeSearch.finished self' = TreeSearch.finished self ++ extra /\
      TreeSearch.n_best_counter self'
      = TreeSearch.n_best_counter self + length extra) /\
  (TreeSearch.eos_top self = true -> TreeSearch.eos_top self' = true) /\
  (TreeSearch.eos_top self' = true ->
   TreeSearch.eos_top self = true \/
   nth_error toks 0 = Some (TreeSearch.eos self)).
Proof.
  unfold TreeSearch.record_step. intros E.
  bind_inv E as partial' Hpartial. bind_inv E as fin Hfin.
  bind_inv E as t0 Ht0. inversion E; subst; clear E.
  cbn [TreeSearch.finished TreeSearch.n_best_counter TreeSearch.eos_top].
  split; [|split].
  - revert Hfin.
    set (f := fun (acc : list (TreeSearch.HypothesisTail lprob) * nat) hypid => _).
    intros Hfin.
    refine (foldM_inv
              (fun acc => exists extra,
                   fst acc = TreeSearch.finished self ++ extra /\
                   snd acc = TreeSearch.n_best_counter self + length extra)
              f (seq 0 (TreeSearch.beam_size self)) _ _ fin _ Hfin).
    + intros acc i acc' Hi [extra [Hacc Hcnt]] Hstep.
      unfold f in Hstep. bind_inv Hstep as t Ht.
      destruct (Nat.eqb t (TreeSearch.eos self)).
      * bind_inv Hstep as s Hsc. destruct (sleb s neginf).
        -- inversion Hstep; subst. exists extra. split; assumption.
        -- inversion Hstep; subst; clear Hstep. cbn [fst snd].
           eexists (extra ++ [_]). split.
           ++ rewrite Hacc, <- app_assoc. reflexivity.
           ++ rewrite Hcnt, length_app. simpl. lia.
      * inversion Hstep; subst. exists extra. split; assumption.
    + exists []. split; [rewrite app_nil_r; reflexivity | simpl; lia].
  - intros Htop. rewrite Htop. destruct (Nat.eqb t0 (TreeSearch.eos self));
      reflexivity.
  - apply get_Ok in Ht0.
    destruct (Nat.eqb_spec t0 (TreeSearch.eos self)) as [->|Hne].
    + intros _. right. exact Ht0.
    + intros Htop. left. exact Htop.
Qed.

(** A run of [advance] calls appends one row per call to each history. *)
Lemma advance_all_lengths
    (sel : TreeSearch.state -> matrix -> list lprob -> Z ->
           result TreeSearch.selection)
    (inputs : list matrix) :
  forall st st',
    TreeSearch.advance_all sel st inputs = Ok st' ->
    length (TreeSearch.outputs st')
    = length (TreeSearch.outputs st) + length inputs /\
    length (TreeSearch.all_scores st')
    = length (TreeSearch.all_scores st) + length inputs /\
    length (TreeSearch.bookkeep st')
    = length (TreeSearch.bookkeep st) + length inputs.
Proof.
  unfold TreeSearch.advance_all.
  induction inputs as [|lp inputs IH]; intros st st' E.
  - inversion E; subst. cbn [length]. lia.
  - cbn [foldM] in E. bind_inv E as st1 H1. bind_inv H1 as r Hr.
    inversion H1; subst st1; clear H1. destruct r as [st1 lp1].
    cbn [fst] in E.
    destruct (advance_Ok _ _ _ _ _ Hr) as (sc1 & [[hyps toks] scs] & _ & _ & Hrec).
    destruct (record_step_Ok _ _ _ _ _ Hrec)
      as (_ & _ & _ & _ & _ & _ & Hall & Hout & Hbk & _).
    destruct (IH _ _ E) as (H1 & H2 & H3).
    rewrite H1, H2, H3, Hall, Hout, Hbk, !length_app. cbn [length]. lia.
Qed.

(** X4. A greedy or beam search that was advanced on [k] tensors of
    [beam_size] rows each has histories of [k + 1] rows of tokens and of
    scores and of [k] rows of backpointers; every row has [beam_size]
    entries and every backpointer is a slot of the beam. *)
Theorem advance_run_shape (p : policy) (B : nat) (bn cbn : Z)
    (pad bos e : token) (minl : Z) (lpen : Q) (ctx : option (list token))
    (bl : option (list (Z * list (list token))))
    (st0 st : TreeSearch.state) (inputs : list matrix) :
  init_of p B bn cbn pad bos e minl lpen = Ok st0 ->
  Forall (well_shaped B) inputs ->
  TreeSearch.advance_all (select_of p) (configure st0 ctx bl) inputs = Ok st ->
  length (TreeSearch.outputs st) = length inputs + 1 /\
  length (TreeSearch.all_scores st) = length inputs + 1 /\
  length (TreeSearch.bookkeep st) = length inputs /\
  Forall (fun row => length row = B) (TreeSearch.outputs st) /\
  Forall (fun row => length row = B) (TreeSearch.all_scores st) /\
  Forall (fun row => length row = B /\ Forall (fun h => h < B) row)
         (TreeSearch.bookkeep st).
Proof.
  intros Hinit Hshape Hrun.
  assert (Hg : (p = Greedy -> B = 1) /\
               st0 = TreeSearch.init B bn cbn pad bos e minl lpen).
  { destruct p; simpl in Hinit.
    - unfold GreedySearch.init in Hinit.
      destruct (Nat.eqb_spec B 1) as [HB|]; [|discriminate].
      inversion Hinit. split; [intros _; exact HB | reflexivity].
    - inversion Hinit. split; [discriminate | reflexivity]. }
  destruct Hg as [Hg ->].
  destruct (advance_all_preserves_inv p B e inputs _ st Hg Hshape
              (beam_inv_fresh B bn cbn pad bos e minl lpen ctx bl) Hrun)
    as [Hinv _].
  destruct (advance_all_lengths _ _ _ _ Hrun) as (H1 & H2 & H3).
  destruct Hinv as [_ _ _ _ Hor Hsr Hbr _ _ _].
  assert (Hl0 : length (TreeSearch.outputs
                  (configure (TreeSearch.init B bn cbn pad bos e minl lpen)
                     ctx bl)) = 1 /\
                length (TreeSearch.all_scores
                  (configure (TreeSearch.init B bn cbn pad bos e minl lpen)
                     ctx bl)) = 1 /\
                length (TreeSearch.bookkeep
                  (configure (TreeSearch.init B bn cbn pad bos e minl lpen)
                     ctx bl)) = 0).
  { destruct ctx; repeat split; reflexivity. }
  destruct Hl0 as (L1 & L2 & L3).
  repeat split; try assumption; lia.
Qed.

Lemma advance_run_shape_witness :
  length (TreeSearch.outputs finished_beam) = 4 + 1 /\
  length (TreeSearch.all_scores finished_beam) = 4 + 1 /\
  length (TreeSearch.bookkeep finished_beam) = 4 /\
  Forall (fun row => length row = 1) (TreeSearch.outputs finished_beam) /\
  Forall (fun row => length row = 1) (TreeSearch.all_scores finished_beam) /\
  Forall (fun row => length row = 1 /\ Forall (fun h => h < 1) row)
         (TreeSearch.bookkeep finished_beam).
Proof.
  apply (advance_run_shape Beam 1 (-1) (-1) 0 1 2 0 (65 # 100)%Q None None
           single_beam finished_beam
           [word_step (-1); word_step (-1); word_step 0; eos_step]).
  - reflexivity.
  - repeat constructor.
  - vm_compute. reflexivity.
Defined.

(* ------------------------------------------------------------------ *)
(** ** The partial hypotheses *)

(** [partial_hyps] follows the backpointers, whatever the policy. *)
Lemma partial_chain_step
    (sel : TreeSearch.state -> matrix -> list lprob -> Z ->
           result TreeSearch.selection)
    (st : TreeSearch.state) (lp : matrix) (st' : TreeSearch.state)
    (lp' : matrix) :
  length (TreeSearch.outputs st) = S (length (TreeSearch.bookkeep st)) ->
  (forall i ph,
      nth_error (TreeSearch.partial_hyps st) i = Some ph ->
      chain_tokens (TreeSearch.outputs st) (TreeSearch.bookkeep st)
        (length (TreeSearch.bookkeep st)) i = Some (rev ph)) ->
  TreeSearch.advance sel st lp = Ok (st', lp') ->
  length (TreeSearch.outputs st') = S (length (TreeSearch.bookkeep st')) /\
  forall i ph,
    nth_error (TreeSearch.partial_hyps st') i = Some ph ->
    chain_tokens (TreeSearch.outputs st') (TreeSearch.bookkeep st')
      (length (TreeSearch.bookkeep st')) i = Some (rev ph).
Proof.
  intros Hlen Hchain E.
  destruct (advance_Ok _ _ _ _ _ E) as (sc1 & [[hyps toks] scs] & _ & _ & Hrec).
  destruct (record_step_Ok _ _ _ _ _ Hrec)
    as (_ & _ & _ & _ & _ & _ & _ & Hout & Hbk & _).
  destruct (record_step_partial _ _ _ _ _ Hrec) as [_ Hpart].
  rewrite Hout, Hbk, !length_app. cbn [length].
  split; [lia|].
  intros i ph' Hi.
  destruct (Hpart i ph' Hi) as (h & ph & t & Hh & Hph & Ht & ->).
  rewrite Nat.add_1_r. cbn [chain_tokens].
  rewrite nth_error_app2 by lia.
  replace (S (length (TreeSearch.bookkeep st)) - length (TreeSearch.outputs st))
    with 0 by lia.
  cbn [nth_error]. rewrite Ht.
  rewrite nth_error_app2 by lia. rewrite Nat.sub_diag. cbn [nth_error].
  rewrite Hh.
  rewrite chain_tokens_app by lia.
  rewrite (Hchain h ph Hph), rev_unit. reflexivity.
Qed.

(** X5. After a run of a greedy or beam search, [partial_hyps[i]], the
    list that the n-gram blocking reads, is the hypothesis of slot [i]: the
    tokens that [_get_hyp_from_finished] and [_get_pretty_hypothesis] find
    by walking the backpointers from slot [i] of the last step. *)
Theorem partial_hyps_are_backtracked (p : policy) (B : nat) (bn cbn : Z)
    (pad bos e : token) (minl : Z) (lpen : Q) (ctx : option (list token))
    (bl : option (list (Z * list (list token))))
    (st0 st : TreeSearch.state) (inputs : list matrix) :
  init_of p B bn cbn pad bos e minl lpen = Ok st0 ->
  inputs <> [] ->
  Forall (well_shaped B) inputs ->
  TreeSearch.advance_all (select_of p) (configure st0 ctx bl) inputs = Ok st ->
  length (TreeSearch.partial_hyps st) = B /\
  forall i ph (s : lprob) (tok : token),
    nth_error (TreeSearch.partial_hyps st) i = Some ph ->
    exists tails,
      TreeSearch._get_hyp_from_finished st
        (TreeSearch.mkTail (length (TreeSearch.outputs st) - 1) i s tok)
      = Ok tails /\
      TreeSearch._get_pretty_hypothesis tails = ph.
Proof.
  intros Hinit Hne Hshape Hrun.
  assert (Hg : (p = Greedy -> B = 1) /\
               st0 = TreeSearch.init B bn cbn pad bos e minl lpen).
  { destruct p; simpl in Hinit.
    - unfold GreedySearch.init in Hinit.
      destruct (Nat.eqb_spec B 1) as [HB|]; [|discriminate].
      inversion Hinit. split; [intros _; exact HB | reflexivity].
    - inversion Hinit. split; [discriminate | reflexivity]. }
  destruct Hg as [Hg ->].
  destruct (advance_all_preserves_inv p B e inputs _ st Hg Hshape
              (beam_inv_fresh B bn cbn pad bos e minl lpen ctx bl) Hrun)
    as [Hinv Hbk].
  specialize (Hbk (or_introl Hne)).
  assert (HJ : (TreeSearch.beam_size st = B /\
                length (TreeSearch.partial_hyps st) = B) /\
               length (TreeSearch.outputs st)
               = S (length (TreeSearch.bookkeep st)) /\
               forall i ph,
                 nth_error (TreeSearch.partial_hyps st) i = Some ph ->
                 chain_tokens (TreeSearch.outputs st) (TreeSearch.bookkeep st)
                   (length (TreeSearch.bookkeep st)) i = Some (rev ph)).
  { refine (advance_all_inv
              (fun s => (TreeSearch.beam_size s = B /\
                         length (TreeSearch.partial_hyps s) = B) /\
                        length (TreeSearch.outputs s)
                        = S (length (TreeSearch.bookkeep s)) /\
                        forall i ph,
                          nth_error (TreeSearch.partial_hyps s) i = Some ph ->
                          chain_tokens (TreeSearch.outputs s)
                            (TreeSearch.bookkeep s)
                            (length (TreeSearch.bookkeep s)) i
                          = Some (rev ph))
              _ inputs _ _ st _ Hrun).
    - intros s lp s' lp' _ [[HB HpB] [Hl Hc]] Hadv.
      split; [|eapply partial_chain_step; eassumption].
      destruct (advance_Ok _ _ _ _ _ Hadv)
        as (sc1 & [[hyps toks] scs] & _ & _ & Hrec).
      destruct (record_step_Ok _ _ _ _ _ Hrec) as (Hb & _).
      destruct (record_step_partial _ _ _ _ _ Hrec) as [Hp _].
      split; congruence.
    - assert (Hfresh :
                TreeSearch.beam_size (configure (TreeSearch.init B bn cbn pad
                                                   bos e minl lpen) ctx bl) = B /\
                TreeSearch.partial_hyps (configure (TreeSearch.init B bn cbn pad
                                                   bos e minl lpen) ctx bl)
                = repeat [bos] B /\
                TreeSearch.outputs (configure (TreeSearch.init B bn cbn pad
                                                   bos e minl lpen) ctx bl)
                = [repeat bos B] /\
                TreeSearch.bookkeep (configure (TreeSearch.init B bn cbn pad
                                                   bos e minl lpen) ctx bl)
                = []).
      { destruct ctx; repeat split; reflexivity. }
      destruct Hfresh as (F1 & F2 & F3 & F4). rewrite F1, F2, F3, F4.
      split; [split; [reflexivity | apply repeat_length]|].
      split; [reflexivity|].
      intros i ph Hi.
      destruct (nth_error_repeat_Some _ _ _ _ Hi) as [-> Hlt].
      cbn [chain_tokens length nth_error].
      rewrite (nth_error_repeat bos Hlt). reflexivity. }
  destruct HJ as ([_ HpB] & Hl & Hc). split; [exact HpB|].
  intros i ph s tok Hi.
  destruct Hinv as [Hbeam Heos Hls Hlb Hor Hsr Hbr Hsc Hclean Hfin].
  assert (HiB : i < B).
  { rewrite <- HpB. apply nth_error_Some. congruence. }
  destruct (walk_back_chain st B (length (TreeSearch.bookkeep st)) i
              Hls Hlb Hor Hsr Hbr Hbk ltac:(lia) HiB)
    as (tails & Hwalk & Hch).
  exists tails. unfold TreeSearch._get_hyp_from_finished.
  cbn [TreeSearch.timestep TreeSearch.hypid].
  replace (length (TreeSearch.outputs st) - 1)
    with (length (TreeSearch.bookkeep st)) by lia.
  split; [exact Hwalk|].
  rewrite (Hc i ph Hi) in Hch. inversion Hch as [Hrev].
  unfold TreeSearch._get_pretty_hypothesis.
  rewrite map_rev, <- Hrev, rev_involutive. reflexivity.
Qed.

Lemma partial_hyps_are_backtracked_witness :
  length (TreeSearch.partial_hyps finished_beam) = 1 /\
  forall i ph (s : lprob) (tok : token),
    nth_error (TreeSearch.partial_hyps finished_beam) i = Some ph ->
    exists tails,
      TreeSearch._get_hyp_from_finished finished_beam
        (TreeSearch.mkTail (length (TreeSearch.outputs finished_beam) - 1)
           i s tok)
      = Ok tails /\
      TreeSearch._get_pretty_hypothesis tails = ph.
Proof.
  apply (partial_hyps_are_backtracked Beam 1 (-1) (-1) 0 1 2 0 (65 # 100)%Q
           None None single_beam finished_beam
           [word_step (-1); word_step (-1); word_step 0; eos_step]).
  - reflexivity.
  - discriminate.
  - repeat constructor.
  - vm_compute. reflexivity.
Defined.

(* ------------------------------------------------------------------ *)
(** ** [is_done] *)

Lemma advance_counter
    (sel : TreeSearch.state -> matrix -> list lprob -> Z ->
           result TreeSearch.selection)
    (st : TreeSearch.state) (lp : matrix) (st' : TreeSearch.state)
    (lp' : matrix) :
  TreeSearch.advance sel st lp = Ok (st', lp') ->
  TreeSearch.beam_size st' = TreeSearch.beam_size st /\
  (exists extra,
      TreeSearch.finished st' = TreeSearch.finished st ++ extra /\
      TreeSearch.n_best_counter st'
      = TreeSearch.n_best_counter st + length extra) /\
  (TreeSearch.eos_top st = true -> TreeSearch.eos_top st' = true).
Proof.
  intros E.
  destruct (advance_Ok _ _ _ _ _ E) as (sc1 & [[hyps toks] scs] & _ & _ & Hrec).
  destruct (record_step_Ok _ _ _ _ _ Hrec) as (Hb & _).
  destruct (record_step_counter _ _ _ _ _ Hrec) as (Hex & Htop & _).
  auto.
Qed.



(* ------------------------------------------------------------------ *)
(** ** Greedy search and beam search of one slot *)

Lemma insert_desc_ext {A K K' : Type} (leb : K -> K -> bool)
    (leb' : K' -> K' -> bool) (key : A -> K) (key' : A -> K')
    (x : A) (l : list A) :
  (forall a b, leb' (key' a) (key' b) = leb (key a) (key b)) ->
  insert_desc leb' key' x l = insert_desc leb key x l.
Proof.
  intros Hext. induction l as [|y l IH]; [reflexivity|].
  cbn [insert_desc]. rewrite Hext, IH. reflexivity.
Qed.

Lemma sort_desc_ext {A K K' : Type} (leb : K -> K -> bool)
    (leb' : K' -> K' -> bool) (key : A -> K) (key' : A -> K')
    (l : list A) :
  (forall a b, leb' (key' a) (key' b) = leb (key a) (key b)) ->
  sort_desc leb' key' l = sort_desc leb key l.
Proof.
  intros Hext. induction l as [|x l IH]; [reflexivity|].
  cbn [sort_desc]. rewrite IH. apply insert_desc_ext. exact Hext.
Qed.

Lemma indexed_map {A B : Type} (f : A -> B) (l : list A) :
  indexed (map f l) = map (fun p => (fst p, f (snd p))) (indexed l).
Proof.
  unfold indexed. rewrite length_map. generalize 0.
  induction l as [|x l IH]; intros k; [reflexivity|].
  cbn [length seq map combine]. rewrite IH. reflexivity.
Qed.

Lemma sleb_add_finite (a b : lprob) (s : Z) :
  sleb (sadd a (Fin s)) (sadd b (Fin s)) = sleb a b.
Proof.
  destruct a as [|x], b as [|y]; cbn [sadd sleb]; try reflexivity.
  destruct (Z.leb_spec x y), (Z.leb_spec (x + s) (y + s)); (reflexivity || lia).
Qed.

(** Adding a finite score to every entry does not change the order in
    which the entries are sorted. *)
Lemma sort_desc_shift (row : list lprob) (s : Z) :
  sort_desc sleb snd (indexed (map (fun x => sadd x (Fin s)) row))
  = map (fun p : nat * lprob => (fst p, sadd (snd p) (Fin s)))
        (sort_desc sleb snd (indexed row)).
Proof.
  rewrite indexed_map, sort_desc_map. f_equal.
  apply sort_desc_ext. intros a b. cbn [snd]. apply sleb_add_finite.
Qed.

(** In the model, where both policies sort with the same stable sort, a
    beam of one slot and the greedy search return the same selection. *)
Lemma beam_of_one_selection (self : TreeSearch.state) (row : list lprob)
    (s : Z) (current_length : Z) :
  TreeSearch.beam_size self = 1 ->
  row <> [] ->
  BeamSearch.select_paths self [row] [Fin s] current_length
  = GreedySearch.select_paths self [row] [Fin s] current_length /\
  exists t x,
    GreedySearch.select_paths self [row] [Fin s] current_length
    = Ok ([0], [t], [sadd x (Fin s)]) /\
    nth_error row t = Some x /\
    Forall (fun y => sle y x) row.
Proof.
  intros HB Hne.
  destruct (sort_desc sleb snd (indexed row)) as [|[t x] rest] eqn:Es.
  { exfalso. apply Hne. apply length_zero_iff_nil.
    rewrite <- (indexed_length row), <- (sort_desc_length _ _ sleb snd),
      Es. reflexivity. }
  assert (Hin : In (t, x) (indexed row)).
  { eapply Permutation_in; [apply Permutation_sym; apply sort_desc_perm|].
    rewrite Es. left. reflexivity. }
  apply indexed_spec in Hin.
  assert (Ht : t < length row) by (apply nth_error_Some; congruence).
  assert (Hgreedy : GreedySearch.select_paths self [row] [Fin s] current_length
                    = Ok ([0], [t], [sadd x (Fin s)])).
  { unfold GreedySearch.select_paths. cbn [mapM]. unfold row_max.
    rewrite Es. reflexivity. }
  split.
  - rewrite Hgreedy. unfold BeamSearch.select_paths.
    cbn [length Nat.eqb firstn]. unfold add_prior.
    cbn [length Nat.eqb combine map fst snd bind concat].
    rewrite app_nil_r. unfold topk. rewrite HB.
    rewrite length_map.
    destruct (Nat.leb_spec 1 (length row)) as [_|Hlt]; [|lia].
    rewrite sort_desc_shift, Es. cbn [map firstn fst snd bind vocab_of].
    rewrite Nat.div_small by exact Ht. rewrite Nat.mod_small by exact Ht.
    reflexivity.
  - exists t, x. split; [exact Hgreedy|]. split; [exact Hin|].
    assert (Hsorted : StronglySorted (desc _ _ sleb snd)
                        (sort_desc sleb snd (indexed row))).
    { apply sort_desc_sorted; [apply sleb_total | apply sleb_trans]. }
    rewrite Es in Hsorted. inversion Hsorted as [|? ? _ Hall]; subst.
    apply Forall_forall. intros y Hy.
    destruct (In_nth_error _ _ Hy) as [j Hj].
    apply indexed_spec in Hj.
    eapply Permutation_in in Hj; [|apply (sort_desc_perm _ _ sleb snd)].
    rewrite Es in Hj. destruct Hj as [Hj|Hj].
    + inversion Hj; subst. apply sleb_refl.
    + rewrite Forall_forall in Hall. apply (Hall _ Hj).
Qed.



(* ------------------------------------------------------------------ *)
(** ** Top-k sampling *)

Lemma StronglySorted_skipn {A : Type} (R : A -> A -> Prop) (n : nat)
    (l : list A) :
  StronglySorted R l -> StronglySorted R (skipn n l).
Proof.
  revert l. induction n as [|n IH]; intros l Hs; [exact Hs|].
  destruct l as [|x l]; [exact Hs|].
  cbn [skipn]. apply IH. inversion Hs; assumption.
Qed.

Lemma filter_combine_length {A : Type} (g : A -> bool) (l : list A) :
  forall idx : list nat,
    length idx = length l ->
    length (filter (fun p : nat * A => g (snd p)) (combine idx l))
    = length (filter g l).
Proof.
  induction l as [|x l IH]; intros idx Hlen.
  - destruct idx; reflexivity.
  - destruct idx as [|i idx]; [discriminate|].
    cbn [combine filter snd]. destruct (g x); cbn [length];
      rewrite IH by (simpl in Hlen; lia); reflexivity.
Qed.

Lemma NoDup_map_filter {A B : Type} (f : A -> B) (g : A -> bool)
    (l : list A) :
  NoDup (map f l) -> NoDup (map f (filter g l)).
Proof.
  induction l as [|x l IH]; intros Hnd; [constructor|].
  cbn [map] in Hnd. inversion Hnd as [|? ? Hnot Hrest]; subst.
  cbn [filter]. destruct (g x); [|apply IH; exact Hrest].
  cbn [map]. constructor; [|apply IH; exact Hrest].
  intros Hin. apply Hnot. apply in_map_iff in Hin.
  destruct Hin as (y & Hy & Hf). apply filter_In in Hf.
  apply in_map_iff. exists y. split; [exact Hy | apply Hf].
Qed.

(** The entry at position [c] of the [k] best of a row: at most [c]
    entries of the row are strictly larger. *)
Lemma topk_rank (k : nat) (row : list lprob) (top : list (nat * lprob))
    (c t : nat) (x : lprob) :
  topk k row = Ok top ->
  nth_error top c = Some (t, x) ->
  nth_error row t = Some x /\
  length (filter (fun y => negb (sleb y x)) row) <= c.
Proof.
  intros Htop Hc.
  destruct (topk_spec _ _ _ Htop) as [Hlen Hnd Hval Hsorted Hmax].
  split; [apply Hval; eapply nth_error_In; exact Hc|].
  rewrite <- (filter_combine_length (fun y => negb (sleb y x)) row
                (seq 0 (length row))) by apply length_seq.
  fold (indexed row).
  set (P := filter (fun p : nat * lprob => negb (sleb (snd p) x))
                   (indexed row)).
  rewrite <- (length_map fst P).
  assert (Hsplit : top = firstn c top ++ (t, x) :: skipn (S c) top).
  { rewrite <- (firstn_skipn c top) at 1. f_equal.
    clear - Hc. revert top Hc. induction c as [|c IH]; intros top Hc.
    - destruct top; [discriminate|]. inversion Hc. reflexivity.
    - destruct top; [discriminate|]. cbn [nth_error] in Hc.
      cbn [skipn]. apply IH. exact Hc. }
  assert (Hlow : forall b, In b (skipn (S c) top) -> sle (snd b) x).
  { pose proof (StronglySorted_skipn _ c _ Hsorted) as Hs.
    rewrite Hsplit in Hs at 1.
    rewrite skipn_app in Hs.
    assert (Hfl : length (firstn c top) = c).
    { apply firstn_length_le. apply Nat.lt_le_incl.
      apply nth_error_Some. congruence. }
    rewrite skipn_all2 in Hs by lia.
    rewrite Hfl, Nat.sub_diag in Hs. cbn [skipn app] in Hs.
    inversion Hs as [|? ? _ Hall]; subst.
    rewrite Forall_forall in Hall. intros b Hb. apply (Hall b Hb). }
  transitivity (length (map fst (firstn c top))).
  - apply NoDup_incl_length.
    + apply NoDup_map_filter. rewrite indexed_fst. apply seq_NoDup.
    + intros j Hj. apply in_map_iff in Hj.
      destruct Hj as ([j' y] & Hjj & Hf). cbn [fst] in Hjj. subst j'.
      apply filter_In in Hf. destruct Hf as [Hin Hgt]. cbn [snd] in Hgt.
      apply indexed_spec in Hin.
      apply negb_true_iff in Hgt.
      destruct (in_dec Nat.eq_dec j (map fst top)) as [Hjt|Hjt].
      * apply in_map_iff in Hjt. destruct Hjt as ([j' y'] & Hj' & Hin').
        cbn [fst] in Hj'. subst j'.
        pose proof (Hval _ _ Hin') as Hy'. rewrite Hin in Hy'.
        inversion Hy'; subst y'.
        rewrite Hsplit in Hin'. apply in_app_or in Hin'.
        destruct Hin' as [Hfirst|[Heq|Hrest]].
        -- apply in_map_iff. exists (j, y). split; [reflexivity | exact Hfirst].
        -- inversion Heq; subst. rewrite sleb_refl in Hgt. discriminate.
        -- apply Hlow in Hrest. cbn [snd] in Hrest. unfold sle in Hrest.
           congruence.
      * exfalso.
        assert (Hle : sle y x).
        { eapply Hmax; [exact Hin | exact Hjt |].
          eapply nth_error_In. exact Hc. }
        unfold sle in Hle. congruence.
  - rewrite length_map, length_firstn. lia.
Qed.

Lemma expand_as_nth {A : Type} (t : list A) (n : nat) (t' : list A)
    (i : nat) (q : A) :
  expand_as t n = Ok t' ->
  nth_error t' i = Some q ->
  length t' = n /\ (nth_error t i = Some q \/ t = [q]).
Proof.
  unfold expand_as. intros E Hq.
  destruct (Nat.eqb_spec (length t) n) as [Hl|Hl].
  - inversion E; subst t'. split; [exact Hl | left; exact Hq].
  - destruct t as [|x [|y t]]; try discriminate.
    inversion E; subst t'. split; [apply repeat_length|].
    right. apply nth_error_In, repeat_spec in Hq. subst q. reflexivity.
Qed.

(** X8. [TopKSampling.select_paths] continues every slot with itself; the
    token of slot [i] is the entry at the drawn position [c < k] of the [k]
    best entries of row [i], so that at most [c] entries of the row are
    strictly larger, and the score is the running score of the slot plus
    the log-probability of that token. *)
Theorem topk_sampling_selects_top (k : nat) (choices : list nat)
    (self : TreeSearch.state) (logprobs : matrix) (prior_scores : list lprob)
    (current_length : Z) (hyp_ids : list nat) (tok_ids : list token)
    (best_scores : list lprob) :
  TopKSampling.select_paths k choices self logprobs prior_scores
    current_length = Ok (hyp_ids, tok_ids, best_scores) ->
  hyp_ids = seq 0 (length logprobs) /\
  length tok_ids = length logprobs /\
  length best_scores = length logprobs /\
  forall i row,
    nth_error logprobs i = Some row ->
    exists c t x q,
      nth_error choices i = Some c /\ c < k /\
      nth_error tok_ids i = Some t /\
      nth_error row t = Some x /\
      length (filter (fun y => negb (sleb y x)) row) <= c /\
      (nth_error prior_scores i = Some q \/ prior_scores = [q]) /\
      nth_error best_scores i = Some (sadd q x).
Proof.
  unfold TopKSampling.select_paths. intros E.
  bind_inv E as top Htop. bind_inv E as u Hu. bind_inv E as picked Hpicked.
  bind_inv E as prior Hprior. inversion E; subst; clear E.
  pose proof (mapM_Ok_length _ _ _ Hpicked) as Hlp. rewrite length_seq in Hlp.
  assert (Hprior_len : length prior = length logprobs).
  { unfold expand_as in Hprior. rewrite length_map, Hlp in Hprior.
    destruct (Nat.eqb_spec (length prior_scores) (length logprobs)) as [Hl|Hl].
    - inversion Hprior; subst. exact Hl.
    - destruct prior_scores as [|x [|y t]]; try discriminate.
      inversion Hprior. apply repeat_length. }
  split; [reflexivity|]. split; [rewrite length_map; exact Hlp|].
  split.
  { rewrite length_map, length_combine, length_map, Hlp, Hprior_len. lia. }
  intros i row Hrow.
  assert (Hi : i < length logprobs) by (apply nth_error_Some; congruence).
  assert (Ei : nth_error (seq 0 (length logprobs)) i = Some i).
  { rewrite nth_error_seq.
    destruct (Nat.ltb_spec i (length logprobs)); [reflexivity | lia]. }
  destruct (mapM_Ok_nth _ _ _ Hpicked _ _ Ei) as [[t x] [Hp Hf]].
  bind_inv Hf as topl Htopl. bind_inv Hf as c Hc.
  apply get_Ok in Htopl, Hc, Hf.
  destruct (mapM_Ok_nth _ _ _ Htop _ _ Hrow) as [topl' [Htl Htk]].
  rewrite Htopl in Htl. inversion Htl; subst topl'.
  destruct (topk_rank _ _ _ _ _ _ Htk Hf) as [Hx Hcount].
  assert (Hck : c < k).
  { destruct (topk_spec _ _ _ Htk) as [Hlen _ _ _ _].
    rewrite <- Hlen. apply nth_error_Some. congruence. }
  destruct (nth_error_of_lt prior i ltac:(lia)) as [q Hq].
  destruct (expand_as_nth _ _ _ _ _ Hprior Hq) as [_ Hsrc].
  exists c, t, x, q.
  split; [exact Hc|]. split; [exact Hck|].
  split; [rewrite nth_error_map, Hp; reflexivity|].
  split; [exact Hx|]. split; [exact Hcount|]. split; [exact Hsrc|].
  rewrite nth_error_map, nth_error_combine, Hq, nth_error_map, Hp.
  reflexivity.
Qed.

Lemma topk_sampling_selects_top_witness :
  TopKSampling.select_paths 2 [1] single_beam
    [[NegInf; Fin (-9); Fin (-8); Fin (-1); Fin (-7)]] [Fin (-4)] 1
  = Ok ([0], [4], [Fin (-11)]) /\
  forall i row,
    nth_error [[NegInf; Fin (-9); Fin (-8); Fin (-1); Fin (-7)]] i = Some row ->
    exists c t x q,
      nth_error [1] i = Some c /\ c < 2 /\
      nth_error [4] i = Some t /\
      nth_error row t = Some x /\
      length (filter (fun y => negb (sleb y x)) row) <= c /\
      (nth_error [Fin (-4)] i = Some q \/ [Fin (-4)] = [q]) /\
      nth_error [Fin (-11)] i = Some (sadd q x).
Proof.
  split; [reflexivity|].
  apply (topk_sampling_selects_top 2 [1] single_beam
           [[NegInf; Fin (-9); Fin (-8); Fin (-1); Fin (-7)]] [Fin (-4)] 1
           [0] [4] [Fin (-11)]).
  reflexivity.
Defined.

(* ------------------------------------------------------------------ *)
(** ** [_v2t] *)

Lemma v2t_tokens_filter (S E : token) (a : list token) :
  ~ In E a ->
  _v2t_tokens S E a = filter (fun i => negb (i =? S)) a.
Proof.
  induction a as [|i a IH]; intros Hnot; [reflexivity|].
  cbn [_v2t_tokens filter].
  destruct (Nat.eqb_spec i E) as [->|Hne].
  - exfalso. apply Hnot. left. reflexivity.
  - rewrite IH by (intros H; apply Hnot; right; exact H).
    destruct (negb (i =? S)); reflexivity.
Qed.

Lemma v2t_tokens_cut (S E : token) (a b : list token) :
  ~ In E a ->
  _v2t_tokens S E (a ++ E :: b) = filter (fun i => negb (i =? S)) a.
Proof.
  induction a as [|i a IH]; intros Hnot.
  - cbn [app _v2t_tokens filter]. rewrite Nat.eqb_refl. reflexivity.
  - cbn [app _v2t_tokens filter].
    destruct (Nat.eqb_spec i E) as [->|Hne].
    + exfalso. apply Hnot. left. reflexivity.
    + rewrite IH by (intros H; apply Hnot; right; exact H).
      destruct (negb (i =? S)); reflexivity.
Qed.

(** X9. [_v2t] hands to [vec2txt] the tokens before the first end token,
    without the start tokens: what follows the first end token is ignored,
    and neither the end token nor the start token reaches [vec2txt]. *)
Theorem v2t_cuts_at_end {T : Type} (vec2txt : list token -> result T)
    (START_IDX END_IDX : token) (a b : list token) :
  ~ In END_IDX a ->
  _v2t vec2txt START_IDX END_IDX (a ++ END_IDX :: b)
  = vec2txt (filter (fun i => negb (i =? START_IDX)) a) /\
  _v2t vec2txt START_IDX END_IDX a
  = vec2txt (filter (fun i => negb (i =? START_IDX)) a) /\
  ~ In END_IDX (filter (fun i => negb (i =? START_IDX)) a) /\
  ~ In START_IDX (filter (fun i => negb (i =? START_IDX)) a).
Proof.
  intros Hnot. unfold _v2t.
  rewrite v2t_tokens_cut, v2t_tokens_filter by exact Hnot.
  split; [reflexivity|]. split; [reflexivity|]. split.
  - intros Hin. apply filter_In in Hin. apply Hnot. apply Hin.
  - intros Hin. apply filter_In in Hin. destruct Hin as [_ Hs].
    rewrite Nat.eqb_refl in Hs. discriminate.
Qed.

Lemma v2t_cuts_at_end_witness :
  _v2t (fun v => Ok v) 1 2 ([1; 5; 6] ++ 2 :: [7; 2; 8]) = Ok [5; 6].
Proof.
  apply (v2t_cuts_at_end (fun v => Ok v) 1 2 [1; 5; 6] [7; 2; 8]).
  intros [H|[H|[H|[]]]]; discriminate.
Defined.

(* ------------------------------------------------------------------ *)
(** ** [SearchBlocklist] *)

Lemma pystr_eqb_eq (a b : pystr) : pystr_eqb a b = true <-> a = b.
Proof.
  unfold pystr_eqb. revert b.
  induction a as [|x a IH]; intros [|y b]; cbn [list_eqb];
    try (split; [discriminate | discriminate]); [split; reflexivity|].
  rewrite andb_true_iff, N.eqb_eq, IH. split.
  - intros [-> ->]. reflexivity.
  - intros H. inversion H. auto.
Qed.

Lemma mem_phrases (p : pystr) (l : list pystr) :
  existsb (pystr_eqb p) l = true <-> In p l.
Proof.
  rewrite existsb_exists. split.
  - intros (q & Hq & Heq). apply pystr_eqb_eq in Heq. subst q. exact Hq.
  - intros Hin. exists p. split; [exact Hin | apply pystr_eqb_eq; reflexivity].
Qed.

Lemma append_ngram_keys (l : nat) (g : list token)
    (d : list (nat * list (list token))) :
  map fst (SearchBlocklist.append_ngram l g d)
  = if in_dec Nat.eq_dec l (map fst d) then map fst d
    else map fst d ++ [l].
Proof.
  induction d as [|[k v] d IH]; [reflexivity|].
  cbn [SearchBlocklist.append_ngram map fst].
  destruct (Nat.eqb_spec k l) as [->|Hne].
  - cbn [map fst].
    destruct (in_dec Nat.eq_dec l (l :: map fst d)) as [_|Hn];
      [reflexivity | exfalso; apply Hn; left; reflexivity].
  - cbn [map fst]. rewrite IH.
    destruct (in_dec Nat.eq_dec l (map fst d)) as [Hi|Hi];
      destruct (in_dec Nat.eq_dec l (k :: map fst d)) as [Hj|Hj];
      try reflexivity.
    + exfalso. apply Hj. right. exact Hi.
    + exfalso. destruct Hj as [Hj|Hj]; [congruence | contradiction].
Qed.

Lemma append_ngram_In (l : nat) (g : list token)
    (d : list (nat * list (list token))) (k : nat) (v : list (list token)) :
  In (k, v) (SearchBlocklist.append_ngram l g d) ->
  In (k, v) d \/
  (k = l /\ (v = [g] \/ exists v0, In (l, v0) d /\ v = v0 ++ [g])).
Proof.
  induction d as [|[k0 v0] d IH]; cbn [SearchBlocklist.append_ngram].
  - intros [H|[]]. inversion H; subst. right. auto.
  - destruct (Nat.eqb_spec k0 l) as [->|Hne].
    + intros [H|H].
      * inversion H; subst. right. split; [reflexivity|]. right.
        exists v0. split; [left; reflexivity | reflexivity].
      * left. right. exact H.
    + intros [H|H].
      * left. left. exact H.
      * destruct (IH H) as [Hd|(-> & [->|(v1 & Hv1 & ->)])].
        -- left. right. exact Hd.
        -- right. auto.
        -- right. split; [reflexivity|]. right. exists v1.
           split; [right; exact Hv1 | reflexivity].
Qed.

Lemma append_ngram_has (l : nat) (g : list token)
    (d : list (nat * list (list token))) :
  exists v, In (l, v) (SearchBlocklist.append_ngram l g d) /\ In g v.
Proof.
  induction d as [|[k0 v0] d IH]; cbn [SearchBlocklist.append_ngram].
  - exists [g]. split; left; reflexivity.
  - destruct (Nat.eqb_spec k0 l) as [->|Hne].
    + exists (v0 ++ [g]). split; [left; reflexivity|].
      apply in_or_app. right. left. reflexivity.
    + destruct IH as (v & Hv & Hg). exists v. split; [right; exact Hv | exact Hg].
Qed.

Lemma append_ngram_mono (l : nat) (g : list token)
    (d : list (nat * list (list token))) (k : nat) (v : list (list token)) :
  In (k, v) d ->
  exists v', In (k, v') (SearchBlocklist.append_ngram l g d) /\ incl v v'.
Proof.
  induction d as [|[k0 v0] d IH]; [intros []|].
  cbn [SearchBlocklist.append_ngram].
  destruct (Nat.eqb_spec k0 l) as [->|Hne].
  - intros [H|H].
    + inversion H; subst. exists (v ++ [g]).
      split; [left; reflexivity | apply incl_appl, incl_refl].
    + exists v. split; [right; exact H | apply incl_refl].
  - intros [H|H].
    + exists v. split; [left; exact H | apply incl_refl].
    + destruct (IH H) as (v' & Hv' & Hincl).
      exists v'. split; [right; exact Hv' | exact Hincl].
Qed.

Lemma NoDup_map_inj {A B : Type} (f : A -> B) (l : list A) :
  (forall a b, f a = f b -> a = b) -> NoDup l -> NoDup (map f l).
Proof.
  intros Hinj Hnd. induction Hnd as [|x l Hnot Hnd IH]; [constructor|].
  cbn [map]. constructor; [|exact IH].
  intros Hin. apply in_map_iff in Hin. destruct Hin as (y & Hy & Hin).
  apply Hinj in Hy. subst y. contradiction.
Qed.

Section BlocklistFacts.
Variable txt2vec : pystr -> list token.
Variables strip lower upper title : pystr -> pystr.

Lemma wf_init : wf_blocklist txt2vec SearchBlocklist.init.
Proof.
  split; [constructor|]. split; [constructor | intros p []].
Qed.

Lemma add_literal_wf (bl : SearchBlocklist.state) (p : pystr) :
  wf_blocklist txt2vec bl ->
  wf_blocklist txt2vec (SearchBlocklist._add_literal txt2vec bl p).
Proof.
  intros (Hnd & Hall & Hph). unfold SearchBlocklist._add_literal.
  destruct (existsb (pystr_eqb p) (SearchBlocklist._phrases bl)) eqn:Em.
  { split; [exact Hnd|]. split; assumption. }
  cbn [SearchBlocklist._phrases SearchBlocklist._phrase_ngrams].
  unfold wf_blocklist.
  cbn [SearchBlocklist._phrases SearchBlocklist._phrase_ngrams].
  split; [|split].
  - rewrite append_ngram_keys.
    destruct (in_dec Nat.eq_dec (length (txt2vec p))
                (map fst (SearchBlocklist._phrase_ngrams bl))) as [Hi|Hi];
      [exact Hnd|].
    apply NoDup_app; [exact Hnd | repeat constructor; intros [] |].
    intros k Hk [<-|[]]. contradiction.
  - apply Forall_forall. intros [k v] Hkv. cbn [fst snd].
    rewrite Forall_forall in Hall.
    destruct (append_ngram_In _ _ _ _ _ Hkv)
      as [Hd|(-> & [->|(v0 & Hv0 & ->)])].
    + apply (Hall _ Hd).
    + split; [discriminate | repeat constructor].
    + destruct (Hall _ Hv0) as [_ Hlen]. cbn [fst snd] in Hlen.
      split; [intros H; apply app_eq_nil in H; destruct H; discriminate|].
      apply Forall_app. split; [exact Hlen | repeat constructor].
  - intros q [<-|Hq].
    + apply append_ngram_has.
    + destruct (Hph q Hq) as (ngrams & Hn & Hg).
      destruct (append_ngram_mono (length (txt2vec p)) (txt2vec p) _ _ _ Hn)
        as (v' & Hv' & Hincl).
      exists v'. split; [exact Hv' | apply Hincl; exact Hg].
Qed.

Lemma add_literal_phrases (bl : SearchBlocklist.state) (p q : pystr) :
  In q (SearchBlocklist._phrases (SearchBlocklist._add_literal txt2vec bl p))
  <-> q = p \/ In q (SearchBlocklist._phrases bl).
Proof.
  unfold SearchBlocklist._add_literal.
  destruct (existsb (pystr_eqb p) (SearchBlocklist._phrases bl)) eqn:Em.
  - apply mem_phrases in Em. split; [auto|].
    intros [->|H]; assumption.
  - cbn [SearchBlocklist._phrases]. split.
    + intros [<-|H]; auto.
    + intros [->|H]; [left; reflexivity | right; exact H].
Qed.

Lemma add_literals_wf (vs : list pystr) (bl : SearchBlocklist.state) :
  wf_blocklist txt2vec bl ->
  wf_blocklist txt2vec
    (fold_left (SearchBlocklist._add_literal txt2vec) vs bl).
Proof.
  revert bl. induction vs as [|v vs IH]; intros bl Hwf; [exact Hwf|].
  cbn [fold_left]. apply IH. apply add_literal_wf. exact Hwf.
Qed.

Lemma add_literals_phrases (vs : list pystr) (bl : SearchBlocklist.state)
    (q : pystr) :
  In q (SearchBlocklist._phrases
          (fold_left (SearchBlocklist._add_literal txt2vec) vs bl))
  <-> In q vs \/ In q (SearchBlocklist._phrases bl).
Proof.
  revert bl. induction vs as [|v vs IH]; intros bl.
  - cbn [fold_left]. split; [auto | intros [[]|H]; exact H].
  - cbn [fold_left]. rewrite IH, add_literal_phrases. cbn [In].
    split; [intros [H|[H|H]] | intros [[H|H]|H]]; auto.
Qed.

(** Adding phrases that the set already holds changes nothing. *)
Lemma add_literals_known (vs : list pystr) (bl : SearchBlocklist.state) :
  (forall v, In v vs -> In v (SearchBlocklist._phrases bl)) ->
  fold_left (SearchBlocklist._add_literal txt2vec) vs bl = bl.
Proof.
  induction vs as [|v vs IH]; intros Hall; [reflexivity|].
  cbn [fold_left].
  assert (Hv : SearchBlocklist._add_literal txt2vec bl v = bl).
  { unfold SearchBlocklist._add_literal.
    assert (Hm : existsb (pystr_eqb v) (SearchBlocklist._phrases bl) = true).
    { apply mem_phrases. apply Hall. left. reflexivity. }
    rewrite Hm. reflexivity. }
  rewrite Hv. apply IH. intros w Hw. apply Hall. right. exact Hw.
Qed.

Lemma add_wf (bl : SearchBlocklist.state) (phrase : pystr) :
  wf_blocklist txt2vec bl ->
  wf_blocklist txt2vec
    (SearchBlocklist.add txt2vec strip lower upper title bl phrase).
Proof.
  intros Hwf. unfold SearchBlocklist.add.
  destruct (strip phrase); [exact Hwf|].
  apply add_literals_wf. exact Hwf.
Qed.

Lemma load_lines_wf (lines : list pystr) :
  wf_blocklist txt2vec
    (SearchBlocklist.load_lines txt2vec strip lower upper title lines).
Proof.
  unfold SearchBlocklist.load_lines.
  generalize wf_init. generalize SearchBlocklist.init.
  induction lines as [|line lines IH]; intros bl Hwf; [exact Hwf|].
  cbn [fold_left]. apply IH. apply add_wf. exact Hwf.
Qed.

Lemma wf_items (bl : SearchBlocklist.state) :
  wf_blocklist txt2vec bl ->
  NoDup (map fst (SearchBlocklist.items bl)) /\
  forall n ngrams,
    In (n, ngrams) (SearchBlocklist.items bl) ->
    ngrams <> [] /\ forall g, In g ngrams -> Z.of_nat (length g) = n.
Proof.
  intros (Hnd & Hall & _). unfold SearchBlocklist.items. split.
  - rewrite map_map. cbn [fst].
    rewrite <- (map_map fst Z.of_nat).
    apply NoDup_map_inj; [|exact Hnd].
    intros a b Hab. lia.
  - intros n ngrams Hin. apply in_map_iff in Hin.
    destruct Hin as ([k v] & Heq & Hkv). cbn [fst snd] in Heq.
    inversion Heq; subst. rewrite Forall_forall in Hall.
    destruct (Hall _ Hkv) as [Hne Hlen]. cbn [fst snd] in *.
    split; [exact Hne|]. intros g Hg. rewrite Forall_forall in Hlen.
    rewrite (Hlen g Hg). reflexivity.
Qed.

End BlocklistFacts.

(** X10. The block list that [_load_beam_block_list] builds from the
    lines of a file lists every n-gram size once, with at least one n-gram,
    and under a size only n-grams of that size. *)
Theorem loaded_block_list_by_size (txt2vec : pystr -> list token)
    (strip lower upper title : pystr -> pystr) (lines : list pystr) :
  let bl := SearchBlocklist.load_lines txt2vec strip lower upper title lines in
  NoDup (map fst (SearchBlocklist.items bl)) /\
  forall ngram_size bad_ngrams,
    In (ngram_size, bad_ngrams) (SearchBlocklist.items bl) ->
    bad_ngrams <> [] /\
    forall ngram, In ngram bad_ngrams ->
                  Z.of_nat (length ngram) = ngram_size.
Proof.
  intros bl. apply (wf_items txt2vec). apply load_lines_wf.
Qed.

(** X11. [add] of a phrase that is not blank makes the block list true,
    puts the n-gram of each of the twelve variants of the phrase under its
    size, and has no effect when it is repeated; [add] of a blank phrase has
    no effect. *)
Theorem add_blocks_variants (txt2vec : pystr -> list token)
    (strip lower upper title : pystr -> pystr)
    (bl : SearchBlocklist.state) (phrase : pystr) :
  wf_blocklist txt2vec bl ->
  let bl' := SearchBlocklist.add txt2vec strip lower upper title bl phrase in
  (strip phrase = [] -> bl' = bl) /\
  (strip phrase <> [] ->
   SearchBlocklist.to_bool bl' = true /\
   forall v,
     In v (SearchBlocklist.variants lower upper title (strip phrase)) ->
     exists bad_ngrams,
       In (Z.of_nat (length (txt2vec v)), bad_ngrams)
          (SearchBlocklist.items bl') /\
       In (txt2vec v) bad_ngrams) /\
  SearchBlocklist.add txt2vec strip lower upper title bl' phrase = bl'.
Proof.
  intros Hwf bl'. subst bl'. unfold SearchBlocklist.add.
  destruct (strip phrase) as [|c rest] eqn:Es.
  - split; [reflexivity|]. split; [congruence | reflexivity].
  - set (vs := SearchBlocklist.variants lower upper title (c :: rest)).
    set (bl' := fold_left (SearchBlocklist._add_literal txt2vec) vs bl).
    assert (Hin : forall v, In v vs -> In v (SearchBlocklist._phrases bl')).
    { intros v Hv. apply add_literals_phrases. left. exact Hv. }
    split; [discriminate|]. split.
    + intros _. split.
      * unfold SearchBlocklist.to_bool.
        destruct (SearchBlocklist._phrases bl') eqn:Ep; [|reflexivity].
        exfalso. apply (Hin (c :: rest)). left. reflexivity.
      * intros v Hv.
        destruct (add_literals_wf txt2vec vs bl Hwf) as (_ & _ & Hph).
        destruct (Hph v (Hin v Hv)) as (ngrams & Hn & Hg).
        exists ngrams. split; [|exact Hg].
        unfold SearchBlocklist.items. apply in_map_iff.
        exists (length (txt2vec v), ngrams). split; [reflexivity | exact Hn].
    + apply add_literals_known. exact Hin.
Qed.

Lemma add_blocks_variants_witness :
  SearchBlocklist.add (fun p => map N.to_nat p) (fun p => p) (fun p => p)
    (fun p => p) (fun p => p)
    (SearchBlocklist.add (fun p => map N.to_nat p) (fun p => p) (fun p => p)
       (fun p => p) (fun p => p) SearchBlocklist.init [7%N; 8%N])
    [7%N; 8%N]
  = SearchBlocklist.add (fun p => map N.to_nat p) (fun p => p) (fun p => p)
      (fun p => p) (fun p => p) SearchBlocklist.init [7%N; 8%N].
Proof.
  apply (add_blocks_variants (fun p => map N.to_nat p) (fun p => p)
           (fun p => p) (fun p => p) (fun p => p)
           SearchBlocklist.init [7%N; 8%N]).
  split; [constructor|]. split; [constructor | intros p []].
Defined.

(* ------------------------------------------------------------------ *)
(** ** An empty n-gram in the block list *)

(** Every iteration of a loop that ended without an exception did. *)
Lemma foldM_steps {A B : Type} (f : B -> A -> result B) (l : list A) :
  forall acc r, foldM f l acc = Ok r ->
                forall x, In x l -> exists a a', f a x = Ok a'.
Proof.
  induction l as [|y l IH]; intros acc r E x Hx; [destruct Hx|].
  cbn [foldM] in E. bind_inv E as acc1 H1. destruct Hx as [<-|Hx].
  - exists acc, acc1. exact H1.
  - eapply IH; eassumption.
Qed.

(** X12. An n-gram without tokens in the block list (a phrase whose
    tokenization is empty, kept under the size 0) makes [advance] raise
    for every beam that holds a hypothesis of at most one token, as every
    new beam does: [hyp[1:]] is empty, the test on the prefix passes, and
    [ngram[-1]] is out of range. *)
Theorem empty_ngram_fails_advance
    (select_paths : TreeSearch.state -> matrix -> list lprob -> Z ->
                    result TreeSearch.selection)
    (self : TreeSearch.state) (items : list (Z * list (list token)))
    (bad_ngrams : list (list token)) (hyp : list token) (logprobs : matrix) :
  TreeSearch.block_list self = Some items ->
  In (0%Z, bad_ngrams) items -> In [] bad_ngrams ->
  In hyp (TreeSearch.partial_hyps self) -> length hyp <= 1 ->
  exists err, TreeSearch.advance select_paths self logprobs = Err err.
Proof.
  intros Hbl Hit Hg Hhyp Hlen.
  destruct (TreeSearch.advance select_paths self logprobs)
    as [[self' lp']|err] eqn:E; [exfalso | exists err; reflexivity].
  destruct (advance_Ok _ _ _ _ _ E) as (sc1 & res & Hprep & _ & _).
  destruct (prepare_Ok _ _ _ _ Hprep) as (lp0 & _ & _ & Hblock).
  destruct (advance_block_list _ _ _ Hblock) as (lp1 & lp2 & _ & H2 & _).
  unfold TreeSearch._block_block_list in H2. rewrite Hbl in H2.
  destruct (In_nth_error _ _ Hhyp) as [beam_id Hb].
  assert (Hin : In (beam_id, hyp) (enumerate (TreeSearch.partial_hyps self))).
  { unfold enumerate. apply indexed_spec. exact Hb. }
  destruct (foldM_steps _ _ _ _ H2 _ Hin) as (a1 & a1' & H3).
  cbn beta iota in H3.
  destruct (foldM_steps _ _ _ _ H3 _ Hit) as (a2 & a2' & H4).
  cbn beta iota in H4.
  destruct (foldM_steps _ _ _ _ H4 _ Hg) as (a3 & a3' & H5).
  unfold TreeSearch.block_one in H5.
  assert (Hprefix : slice_from (- (0 - 1)) hyp = []).
  { unfold slice_from. cbn [Z.sub Z.opp Z.add Z.leb Z.compare Z.to_nat
                            Pos.to_nat Pos.iter_op Nat.add].
    destruct hyp as [|x [|y hyp]]; try reflexivity. simpl in Hlen. lia. }
  rewrite Hprefix in H5. cbn in H5. discriminate.
Qed.

Lemma empty_ngram_fails_advance_witness :
  exists err,
    TreeSearch.advance BeamSearch.select_paths
      (configure (TreeSearch.init 1 (-1) (-1) 0 1 2 0 (65 # 100)%Q) None
         (Some (SearchBlocklist.items
                  (SearchBlocklist._add_literal (fun _ => [])
                     SearchBlocklist.init [63%N]))))
      (word_step (-1)) = Err err.
Proof.
  apply (empty_ngram_fails_advance BeamSearch.select_paths _
           [(0%Z, [[]])] [[]] [1]).
  - reflexivity.
  - left. reflexivity.
  - left. reflexivity.
  - left. reflexivity.
  - simpl. lia.
Defined.

Example empty_ngram_index_error :
  TreeSearch.advance BeamSearch.select_paths
    (configure (TreeSearch.init 1 (-1) (-1) 0 1 2 0 (65 # 100)%Q) None
       (Some [(0%Z, [[]])]))
    (word_step (-1)) = Err IndexError.
Proof. reflexivity. Qed.

(* ------------------------------------------------------------------ *)
(** ** [upgrade_opt] *)

Lemma dict_mem_In (d : Opt) (k : string) :
  dict_mem d k = true <-> In k (map fst d).
Proof.
  unfold dict_mem. rewrite existsb_exists. split.
  - intros ([k' v] & Hin & Heq). cbn [fst] in Heq.
    apply String.eqb_eq in Heq. subst k'.
    apply in_map_iff. exists (k, v). split; [reflexivity | exact Hin].
  - intros Hin. apply in_map_iff in Hin. destruct Hin as ([k' v] & Heq & Hin).
    cbn [fst] in Heq. subst k'. exists (k, v).
    split; [exact Hin | apply String.eqb_refl].
Qed.

Lemma dict_item_mem (d : Opt) (k : string) :
  dict_mem d k = true -> exists v, dict_item d k = Ok v.
Proof.
  induction d as [|[k' v] d IH]; [discriminate|].
  unfold dict_mem. cbn [existsb fst dict_item].
  destruct (String.eqb k' k); [intros _; eauto|].
  cbn [orb]. exact IH.
Qed.

Lemma dict_item_Ok_mem (d : Opt) (k : string) (v : value) :
  dict_item d k = Ok v -> dict_mem d k = true.
Proof.
  induction d as [|[k' w] d IH]; [discriminate|].
  unfold dict_mem. cbn [existsb fst dict_item].
  destruct (String.eqb k' k); [reflexivity|]. exact IH.
Qed.

Lemma dict_set_keys (d : Opt) (k : string) (v : value) :
  map fst (dict_set d k v)
  = if dict_mem d k then map fst d else map fst d ++ [k].
Proof.
  induction d as [|[k' w] d IH]; [reflexivity|].
  unfold dict_mem in *. cbn [dict_set existsb fst map].
  destruct (String.eqb_spec k' k) as [->|Hne]; cbn [orb map fst].
  - reflexivity.
  - rewrite IH. destruct (existsb _ d); reflexivity.
Qed.

Lemma dict_mem_set (d : Opt) (k k' : string) (v : value) :
  dict_mem (dict_set d k v) k' = String.eqb k k' || dict_mem d k'.
Proof.
  apply Bool.eq_iff_eq_true.
  rewrite orb_true_iff, !dict_mem_In, String.eqb_eq, dict_set_keys.
  destruct (dict_mem d k) eqn:Ek.
  - apply dict_mem_In in Ek. split; [auto|].
    intros [<-|H]; assumption.
  - rewrite in_app_iff. cbn [In]. split.
    + intros [H|[H|[]]]; auto.
    + intros [H|H]; auto.
Qed.

Lemma dict_set_NoDup (d : Opt) (k : string) (v : value) :
  NoDup (map fst d) -> NoDup (map fst (dict_set d k v)).
Proof.
  intros Hnd. rewrite dict_set_keys. destruct (dict_mem d k) eqn:Ek;
    [exact Hnd|].
  apply NoDup_app; [exact Hnd | repeat constructor; intros [] |].
  intros k' Hk' [<-|[]].
  apply dict_mem_In in Hk'. congruence.
Qed.

Lemma dict_item_set (d : Opt) (k k' : string) (v : value) :
  dict_item (dict_set d k v) k'
  = if String.eqb k k' then Ok v else dict_item d k'.
Proof.
  induction d as [|[k0 w] d IH]; cbn [dict_set dict_item].
  - destruct (String.eqb k k'); reflexivity.
  - destruct (String.eqb_spec k0 k) as [->|Hne]; cbn [dict_item].
    + destruct (String.eqb k k'); reflexivity.
    + destruct (String.eqb_spec k0 k') as [->|Hne'].
      * destruct (String.eqb_spec k k'); [congruence | reflexivity].
      * exact IH.
Qed.

Lemma dict_del_Ok (d : Opt) (k : string) :
  dict_mem d k = true ->
  exists d',
    dict_del d k = Ok d' /\
    (NoDup (map fst d) ->
     NoDup (map fst d') /\ dict_mem d' k = false) /\
    forall k', k' <> k ->
               dict_mem d' k' = dict_mem d k' /\
               dict_item d' k' = dict_item d k'.
Proof.
  induction d as [|[k0 w] d IH]; [discriminate|].
  unfold dict_mem in *. cbn [existsb fst dict_del].
  destruct (String.eqb_spec k0 k) as [->|Hne].
  - intros _. exists d. split; [reflexivity|]. split.
    + cbn [map fst]. intros Hnd. inversion Hnd as [|? ? Hnot Hrest]; subst.
      split; [exact Hrest|].
      destruct (existsb (fun kv => String.eqb (fst kv) k) d) eqn:E;
        [|reflexivity].
      exfalso. apply Hnot. apply dict_mem_In. exact E.
    + intros k' Hk'. cbn [existsb fst dict_item].
      destruct (String.eqb_spec k k'); [congruence|]. split; reflexivity.
  - cbn [orb]. intros Hm. destruct (IH Hm) as (d' & Hd' & Hnd' & Hoth).
    rewrite Hd'. cbn [bind]. exists ((k0, w) :: d').
    split; [reflexivity|]. split.
    + cbn [map fst]. intros Hnd. inversion Hnd as [|? ? Hnot Hrest]; subst.
      destruct (Hnd' Hrest) as [Hnd'' Hmem]. split.
      * constructor; [|exact Hnd''].
        intros Hin. apply Hnot. apply dict_mem_In in Hin.
        destruct (Hoth k0 Hne) as [Hm0 _]. unfold dict_mem in Hm0.
        apply dict_mem_In. unfold dict_mem. rewrite <- Hm0. exact Hin.
      * cbn [existsb fst]. destruct (String.eqb_spec k0 k); [congruence|].
        exact Hmem.
    + intros k' Hk'. destruct (Hoth k' Hk') as [Hm' Hi'].
      cbn [existsb fst dict_item]. unfold dict_mem in Hm'.
      rewrite Hm', Hi'. split; reflexivity.
Qed.

(** The three steps of [upgrade_opt]. *)
Lemma upgrade_opt_steps (o o' : Opt) :
  upgrade_opt o = Ok o' ->
  exists o1 o2,
    (if dict_mem o "inference" then o1 = o
     else exists bs,
         dict_item o "beam_size" = Ok bs /\
         o1 = dict_set o "inference"
                (VStr (if eq_one bs then "greedy" else "beam"))%string) /\
    (if dict_mem o1 "beam_blacklist_filename"
     then exists old,
         dict_item o1 "beam_blacklist_filename" = Ok old /\
         dict_del (if is_not_none old
                   then dict_set o1 "beam_block_list_filename" old
                   else o1) "beam_blacklist_filename" = Ok o2
     else o2 = o1) /\
    o' = (if dict_mem o2 "beam_block_full_context" then o2
          else dict_set o2 "beam_block_full_context" (VBool false)).
Proof.
  unfold upgrade_opt. intros E.
  bind_inv E as o1 H1. bind_inv E as o2 H2. inversion E; subst o'; clear E.
  exists o1, o2. split; [|split].
  - destruct (dict_mem o "inference"); cbn [negb] in H1.
    + inversion H1. reflexivity.
    + bind_inv H1 as u Hu. bind_inv H1 as bs Hbs. inversion H1.
      exists bs. split; [exact Hbs | reflexivity].
  - destruct (dict_mem o1 "beam_blacklist_filename").
    + bind_inv H2 as old Hold. exists old. split; [exact Hold | exact H2].
    + inversion H2. reflexivity.
  - destruct (dict_mem o2 "beam_block_full_context"); reflexivity.
Qed.

(** X13. On a dictionary (every key once), what [upgrade_opt] returns
    holds ['inference'] and ['beam_block_full_context'], does not hold
    ['beam_blacklist_filename'], and is left as it is by a second
    [upgrade_opt]. *)
Theorem upgrade_opt_idempotent (opt_from_disk upgraded : Opt) :
  NoDup (map fst opt_from_disk) ->
  upgrade_opt opt_from_disk = Ok upgraded ->
  NoDup (map fst upgraded) /\
  dict_mem upgraded "inference" = true /\
  dict_mem upgraded "beam_blacklist_filename" = false /\
  dict_mem upgraded "beam_block_full_context" = true /\
  upgrade_opt upgraded = Ok upgraded.
Proof.
  intros Hnd E.
  destruct (upgrade_opt_steps _ _ E) as (o1 & o2 & H1 & H2 & H3).
  assert (P1 : NoDup (map fst o1) /\ dict_mem o1 "inference" = true).
  { destruct (dict_mem opt_from_disk "inference") eqn:Ei.
    - subst o1. auto.
    - destruct H1 as (bs & _ & ->). split; [apply dict_set_NoDup; exact Hnd|].
      rewrite dict_mem_set. reflexivity. }
  destruct P1 as [Hnd1 Hi1].
  assert (P2 : NoDup (map fst o2) /\ dict_mem o2 "inference" = true /\
               dict_mem o2 "beam_blacklist_filename" = false).
  { destruct (dict_mem o1 "beam_blacklist_filename") eqn:Eb.
    - destruct H2 as (old & Hold & Hdel).
      set (o := if is_not_none old
                then dict_set o1 "beam_block_list_filename" old else o1) in *.
      assert (Ho : NoDup (map fst o) /\ dict_mem o "inference" = true /\
                   dict_mem o "beam_blacklist_filename" = true).
      { unfold o. destruct (is_not_none old).
        - split; [apply dict_set_NoDup; exact Hnd1|].
          rewrite !dict_mem_set, Hi1, Eb. split; reflexivity.
        - auto. }
      destruct Ho as (Hndo & Hio & Hbo).
      destruct (dict_del_Ok _ _ Hbo) as (d' & Hd' & Hnd' & Hoth).
      rewrite Hd' in Hdel. inversion Hdel; subst d'.
      destruct (Hnd' Hndo) as [Hnd2 Hm2].
      destruct (Hoth "inference"%string ltac:(discriminate)) as [Hm _].
      split; [exact Hnd2|]. split; [congruence | exact Hm2].
    - subst o2. auto. }
  destruct P2 as (Hnd2 & Hi2 & Hb2).
  assert (P3 : NoDup (map fst upgraded) /\ dict_mem upgraded "inference" = true /\
               dict_mem upgraded "beam_blacklist_filename" = false /\
               dict_mem upgraded "beam_block_full_context" = true).
  { subst upgraded. destruct (dict_mem o2 "beam_block_full_context") eqn:Ef.
    - auto.
    - split; [apply dict_set_NoDup; exact Hnd2|].
      rewrite !dict_mem_set, Hi2, Hb2. repeat split. }
  destruct P3 as (Hnd3 & Hi3 & Hb3 & Hf3).
  repeat split; try assumption.
  unfold upgrade_opt. rewrite Hi3. cbn [negb bind]. rewrite Hb3.
  cbn [bind]. rewrite Hf3. reflexivity.
Qed.

Lemma upgrade_opt_idempotent_witness :
  upgrade_opt [("beam_size", VInt 1);
               ("beam_blacklist_filename", VStr "words.txt")]%string
  = Ok [("beam_size", VInt 1); ("inference", VStr "greedy");
        ("beam_block_list_filename", VStr "words.txt");
        ("beam_block_full_context", VBool false)]%string /\
  upgrade_opt [("beam_size", VInt 1); ("inference", VStr "greedy");
               ("beam_block_list_filename", VStr "words.txt");
               ("beam_block_full_context", VBool false)]%string
  = Ok [("beam_size", VInt 1); ("inference", VStr "greedy");
        ("beam_block_list_filename", VStr "words.txt");
        ("beam_block_full_context", VBool false)]%string.
Proof.
  split; [reflexivity|].
  apply (upgrade_opt_idempotent
           [("beam_size", VInt 1);
            ("beam_blacklist_filename", VStr "words.txt")]%string).
  - repeat constructor; simpl; intuition discriminate.
  - reflexivity.
Defined.

(** X14. [upgrade_opt] fails exactly on an option file without
    ['inference'] and without ['beam_size'], with the assertion error; on
    every other option file it returns. *)
Theorem upgrade_opt_fails_iff (opt_from_disk : Opt) :
  (dict_mem opt_from_disk "inference" = false /\
   dict_mem opt_from_disk "beam_size" = false <->
   upgrade_opt opt_from_disk = Err AssertionError) /\
  (dict_mem opt_from_disk "inference" || dict_mem opt_from_disk "beam_size"
   = true <->
   exists upgraded, upgrade_opt opt_from_disk = Ok upgraded).
Proof.
  assert (Hok : dict_mem opt_from_disk "inference"
                || dict_mem opt_from_disk "beam_size" = true ->
                exists upgraded, upgrade_opt opt_from_disk = Ok upgraded).
  { intros Hm. unfold upgrade_opt.
    assert (H1 : exists o1,
               (if negb (dict_mem opt_from_disk "inference")
                then
                  _ <- assert (dict_mem opt_from_disk "beam_size") ;;
                  bs <- dict_item opt_from_disk "beam_size" ;;
                  Ok (dict_set opt_from_disk "inference"
                        (VStr (if eq_one bs then "greedy" else "beam")))
                else Ok opt_from_disk) = Ok o1).
    { destruct (dict_mem opt_from_disk "inference"); cbn [negb].
      - eauto.
      - cbn [orb] in Hm. rewrite Hm. cbn [assert bind].
        destruct (dict_item_mem _ _ Hm) as [bs Hbs]. rewrite Hbs.
        cbn [bind]. eauto. }
    destruct H1 as [o1 H1]. rewrite H1. cbn [bind].
    destruct (dict_mem o1 "beam_blacklist_filename") eqn:Eb.
    - destruct (dict_item_mem _ _ Eb) as [old Hold]. rewrite Hold.
      cbn [bind].
      assert (Hm' : dict_mem (if is_not_none old
                              then dict_set o1 "beam_block_list_filename" old
                              else o1) "beam_blacklist_filename" = true).
      { destruct (is_not_none old); [|exact Eb].
        rewrite dict_mem_set, Eb. apply orb_true_r. }
      destruct (dict_del_Ok _ _ Hm') as (d' & Hd' & _). rewrite Hd'.
      cbn [bind]. eauto.
    - cbn [bind]. eauto. }
  assert (Hfail : dict_mem opt_from_disk "inference" = false ->
                  dict_mem opt_from_disk "beam_size" = false ->
                  upgrade_opt opt_from_disk = Err AssertionError).
  { intros Hi Hb. unfold upgrade_opt. rewrite Hi, Hb. reflexivity. }
  split; split.
  - intros [Hi Hb]. apply Hfail; assumption.
  - intros E.
    destruct (Bool.bool_dec (dict_mem opt_from_disk "inference"
                             || dict_mem opt_from_disk "beam_size") true)
      as [Em|Em].
    + destruct (Hok Em) as [u Hu]. congruence.
    + apply not_true_is_false, orb_false_iff in Em. exact Em.
  - exact Hok.
  - intros [u Hu].
    destruct (Bool.bool_dec (dict_mem opt_from_disk "inference"
                             || dict_mem opt_from_disk "beam_size") true)
      as [Em|Em]; [exact Em|].
    apply not_true_is_false, orb_false_iff in Em. destruct Em as [Hi Hb].
    rewrite (Hfail Hi Hb) in Hu. discriminate.
Qed.

(** X15. [upgrade_opt] keeps an ['inference'] that is set; it infers
    ['greedy'] from a beam size equal to 1 and ['beam'] from any other; it
    moves a ['beam_blacklist_filename'] that is not [None] to
    ['beam_block_list_filename']; and it leaves every other option as it
    is. *)
Theorem upgrade_opt_values (opt_from_disk upgraded : Opt) :
  NoDup (map fst opt_from_disk) ->
  upgrade_opt opt_from_disk = Ok upgraded ->
  (forall v, dict_item opt_from_disk "inference" = Ok v ->
             dict_item upgraded "inference" = Ok v) /\
  (dict_mem opt_from_disk "inference" = false ->
   exists bs,
     dict_item opt_from_disk "beam_size" = Ok bs /\
     dict_item upgraded "inference"
     = Ok (VStr (if eq_one bs then "greedy" else "beam"))) /\
  (forall old, dict_item opt_from_disk "beam_blacklist_filename" = Ok old ->
               old <> VNone ->
               dict_item upgraded "beam_block_list_filename" = Ok old) /\
  (forall key,
      key <> "inference"%string ->
      key <> "beam_blacklist_filename"%string ->
      key <> "beam_block_list_filename"%string ->
      key <> "beam_block_full_context"%string ->
      dict_item upgraded key = dict_item opt_from_disk key).
Proof.
  intros Hnd E.
  destruct (upgrade_opt_steps _ _ E) as (o1 & o2 & H1 & H2 & H3).
  (* the options after each step, key by key *)
  assert (S1 : forall key, key <> "inference"%string ->
                           dict_item o1 key = dict_item opt_from_disk key).
  { intros key Hk. destruct (dict_mem opt_from_disk "inference").
    - subst o1. reflexivity.
    - destruct H1 as (bs & _ & ->). rewrite dict_item_set.
      destruct (String.eqb_spec "inference" key); [congruence | reflexivity]. }
  assert (S2 : forall key, key <> "beam_blacklist_filename"%string ->
                           key <> "beam_block_list_filename"%string ->
                           dict_item o2 key = dict_item o1 key).
  { intros key Hk Hk'. destruct (dict_mem o1 "beam_blacklist_filename") eqn:Eb.
    - destruct H2 as (old & Hold & Hdel).
      set (o := if is_not_none old
                then dict_set o1 "beam_block_list_filename" old else o1) in *.
      assert (Hbo : dict_mem o "beam_blacklist_filename" = true).
      { unfold o. destruct (is_not_none old); [|exact Eb].
        rewrite dict_mem_set, Eb. apply orb_true_r. }
      destruct (dict_del_Ok _ _ Hbo) as (d' & Hd' & _ & Hoth).
      rewrite Hd' in Hdel. inversion Hdel; subst d'.
      destruct (Hoth key Hk) as [_ Hitem]. rewrite Hitem.
      unfold o. destruct (is_not_none old); [|reflexivity].
      rewrite dict_item_set.
      destruct (String.eqb_spec "beam_block_list_filename" key);
        [congruence | reflexivity].
    - subst o2. reflexivity. }
  assert (S3 : forall key, key <> "beam_block_full_context"%string ->
                           dict_item upgraded key = dict_item o2 key).
  { intros key Hk. subst upgraded.
    destruct (dict_mem o2 "beam_block_full_context"); [reflexivity|].
    rewrite dict_item_set.
    destruct (String.eqb_spec "beam_block_full_context" key);
      [congruence | reflexivity]. }
  assert (Hinf : dict_item upgraded "inference" = dict_item o1 "inference").
  { rewrite S3, S2 by discriminate. reflexivity. }
  split; [|split; [|split]].
  - intros v Hv. rewrite Hinf.
    rewrite (dict_item_Ok_mem _ _ _ Hv) in H1. subst o1. exact Hv.
  - intros Hi. rewrite Hi in H1. destruct H1 as (bs & Hbs & ->).
    exists bs. split; [exact Hbs|]. rewrite Hinf, dict_item_set.
    reflexivity.
  - intros old Hold Hne.
    rewrite S3 by discriminate.
    assert (Hold1 : dict_item o1 "beam_blacklist_filename" = Ok old).
    { rewrite S1 by discriminate. exact Hold. }
    rewrite (dict_item_Ok_mem _ _ _ Hold1) in H2.
    destruct H2 as (old' & Hold' & Hdel).
    rewrite Hold1 in Hold'. inversion Hold'; subst old'.
    assert (Hnn : is_not_none old = true) by (destruct old; [congruence | reflexivity..]).
    rewrite Hnn in Hdel.
    assert (Hbo : dict_mem (dict_set o1 "beam_block_list_filename" old)
                    "beam_blacklist_filename" = true).
    { rewrite dict_mem_set, (dict_item_Ok_mem _ _ _ Hold1). apply orb_true_r. }
    destruct (dict_del_Ok _ _ Hbo) as (d' & Hd' & _ & Hoth).
    rewrite Hd' in Hdel. inversion Hdel; subst d'.
    destruct (Hoth "beam_block_list_filename"%string ltac:(discriminate))
      as [_ Hitem].
    rewrite Hitem, dict_item_set, String.eqb_refl. reflexivity.
  - intros key K1 K2 K3 K4.
    rewrite S3, S2, S1 by assumption. reflexivity.
Qed.

Lemma upgrade_opt_values_witness :
  exists bs,
    dict_item [("beam_size", VInt 3); ("beam_blacklist_filename", VNone)]%string
      "beam_size" = Ok bs /\
    dict_item [("beam_size", VInt 3); ("inference", VStr "beam");
               ("beam_block_full_context", VBool false)]%string "inference"
    = Ok (VStr (if eq_one bs then "greedy" else "beam")).
Proof.
  apply (upgrade_opt_values
           [("beam_size", VInt 3); ("beam_blacklist_filename", VNone)]%string
           [("beam_size", VInt 3); ("inference", VStr "beam");
            ("beam_block_full_context", VBool false)]%string).
  - repeat constructor; simpl; intuition discriminate.
  - reflexivity.
  - reflexivity.
Defined.

(* ------------------------------------------------------------------ *)
(** ** The constraint states of the constrained stepper *)

Lemma take_at_Ok {A : Type} (l : list A) (idxs : list nat) (r : list A) :
  take_at l idxs = Ok r ->
  length r = length idxs /\
  forall j i, nth_error idxs j = Some i -> nth_error r j = nth_error l i.
Proof.
  unfold take_at. intros E. split; [eapply mapM_Ok_length; exact E|].
  intros j i Hj. destruct (mapM_Ok_nth _ _ _ E _ _ Hj) as [y [Hy Hg]].
  apply get_Ok in Hg. congruence.
Qed.

(** The loop of [update_constraints] from sentence [k] on. *)
Lemma update_loop {A : Type} (acts : list (list nat)) :
  forall (k : nat) (acc r : list (list A)),
    foldM (fun acc (sa : nat * list nat) =>
             let (sentid, act) := sa in
             old <- get acc sentid ;;
             new <- take_at old act ;;
             set_at acc sentid new)
          (combine (seq k (length acts)) acts) acc = Ok r ->
    length r = length acc /\
    (forall s, s < k \/ k + length acts <= s ->
               nth_error r s = nth_error acc s) /\
    forall j act,
      nth_error acts j = Some act ->
      exists old new,
        nth_error acc (k + j) = Some old /\
        take_at old act = Ok new /\
        nth_error r (k + j) = Some new.
Proof.
  induction acts as [|act acts IH]; intros k acc r E.
  - inversion E; subst. cbn [length]. repeat split.
    intros j a Hj. destruct j; discriminate.
  - cbn [length seq combine foldM] in E. bind_inv E as acc1 H1.
    bind_inv H1 as old Hold. bind_inv H1 as new Hnew.
    destruct (set_at_Ok _ _ _ _ H1) as (Hlt & Hlen1 & Hnth1 & Hoth1).
    destruct (IH _ _ _ E) as (Hlen & Hout & Hin).
    apply get_Ok in Hold.
    split; [lia|]. split.
    + intros s Hs. cbn [length] in Hs.
      rewrite Hout by lia. apply Hoth1. lia.
    + intros j a Hj. destruct j as [|j].
      * inversion Hj; subst a. exists old, new.
        rewrite Nat.add_0_r. split; [exact Hold|]. split; [exact Hnew|].
        rewrite Hout by lia. exact Hnth1.
      * cbn [nth_error] in Hj. destruct (Hin j a Hj) as (o & n & Ho & Hn & Hr).
        exists o, n. replace (k + S j) with (S k + j) by lia.
        split; [|split; assumption].
        rewrite <- Ho. symmetry. apply Hoth1. lia.
Qed.

(** X16. [update_constraints] gives every sentence listed in
    [active_hypos] the states of the beam items that are kept, in the order
    of [active_hypos]: the new state [j] of the sentence is its old state
    [active_hypos[sentid][j]]; the sentences that are not listed keep their
    states, and without constraint states nothing happens. *)
Theorem update_constraints_selects (cs : Type)
    (self : @LexicallyConstrainedBeamSearch.state cs)
    (active_hypos : list (list nat))
    (self' : @LexicallyConstrainedBeamSearch.state cs) :
  LexicallyConstrainedBeamSearch.update_constraints self active_hypos
  = Ok self' ->
  length (LexicallyConstrainedBeamSearch.constraint_states self')
  = length (LexicallyConstrainedBeamSearch.constraint_states self) /\
  (LexicallyConstrainedBeamSearch.constraint_states self = [] ->
   self' = self) /\
  (LexicallyConstrainedBeamSearch.constraint_states self <> [] ->
   (forall sentid act,
       nth_error active_hypos sentid = Some act ->
       exists old new,
         nth_error (LexicallyConstrainedBeamSearch.constraint_states self)
           sentid = Some old /\
         nth_error (LexicallyConstrainedBeamSearch.constraint_states self')
           sentid = Some new /\
         length new = length act /\
         forall j i, nth_error act j = Some i ->
                     nth_error new j = nth_error old i) /\
   forall sentid,
     length active_hypos <= sentid ->
     nth_error (LexicallyConstrainedBeamSearch.constraint_states self') sentid
     = nth_error (LexicallyConstrainedBeamSearch.constraint_states self)
         sentid).
Proof.
  unfold LexicallyConstrainedBeamSearch.update_constraints. intros E.
  destruct (LexicallyConstrainedBeamSearch.constraint_states self)
    as [|c0 crest] eqn:Ecs.
  - inversion E; subst self'. rewrite Ecs.
    split; [reflexivity|]. split; [reflexivity | congruence].
  - bind_inv E as cs' Hcs. inversion E; subst self'; clear E.
    cbn [LexicallyConstrainedBeamSearch.with_constraint_states
         LexicallyConstrainedBeamSearch.constraint_states].
    unfold enumerate, indexed in Hcs.
    destruct (update_loop _ _ _ _ Hcs) as (Hlen & Hout & Hin).
    split; [exact Hlen|]. split; [discriminate|]. intros _. split.
    + intros sentid act Hact.
      destruct (Hin sentid act Hact) as (old & new & Ho & Hn & Hr).
      cbn [Nat.add] in Ho, Hr.
      destruct (take_at_Ok _ _ _ Hn) as [Hl Hsel].
      exists old, new. auto.
    + intros sentid Hs. apply Hout. right. cbn [Nat.add]. exact Hs.
Qed.

Lemma update_constraints_selects_witness :
  exists self',
    LexicallyConstrainedBeamSearch.update_constraints
      (LexicallyConstrainedBeamSearch.mkState 0 3 2 5 0
         [[pending; satisfied]]) [[1; 1]] = Ok self' /\
    LexicallyConstrainedBeamSearch.constraint_states self'
    = [[satisfied; satisfied]] /\
    length (LexicallyConstrainedBeamSearch.constraint_states self') = 1.
Proof.
  eexists. split; [reflexivity|]. split; [reflexivity|].
  apply (update_constraints_selects _
           (LexicallyConstrainedBeamSearch.mkState 0 3 2 5 0
              [[pending; satisfied]]) [[1; 1]]).
  reflexivity.
Defined.

(** ** [prune_sentences] *)

Lemma get_z_length {A B : Type} (l : list A) (l' : list B) (i : Z) :
  length l = length l' ->
  (exists x, get_z l i = Ok x) \/
  (get_z l i = Err IndexError /\ get_z l' i = Err IndexError).
Proof.
  intros Hlen.
  assert (Hnone : forall n, nth_error l n = None -> nth_error l' n = None).
  { intros n Hn. apply nth_error_None. apply nth_error_None in Hn. lia. }
  unfold get_z, get. rewrite <- Hlen.
  destruct (0 <=? i)%Z.
  - destruct (nth_error l (Z.to_nat i)) eqn:E; [left; eauto|].
    right. rewrite (Hnone _ E). split; reflexivity.
  - destruct (- Z.of_nat (length l) <=? i)%Z; [|right; split; reflexivity].
    destruct (nth_error l (Z.to_nat (Z.of_nat (length l) + i))) eqn:E;
      [left; eauto|].
    right. rewrite (Hnone _ E). split; reflexivity.
Qed.

Lemma get_z_mapM {A B : Type} (f : A -> result B) (a : list A)
    (kept : list B) (j : Z) :
  mapM f a = Ok kept ->
  get_z kept j = (i <- get_z a j ;; f i) /\
  forall i, get_z a j = Ok i -> exists y, f i = Ok y.
Proof.
  intros E. pose proof (mapM_Ok_length _ _ _ E) as Hlen.
  assert (Hsome : forall n i, nth_error a n = Some i ->
                              exists y, nth_error kept n = Some y /\
                                        f i = Ok y).
  { intros n i Hn. apply (mapM_Ok_nth _ _ _ E _ _ Hn). }
  assert (Hnone : forall n, nth_error a n = None -> nth_error kept n = None).
  { intros n Hn. apply nth_error_None. apply nth_error_None in Hn. lia. }
  unfold get_z, get. rewrite Hlen.
  destruct (0 <=? j)%Z.
  - destruct (nth_error a (Z.to_nat j)) as [i|] eqn:Ea.
    + destruct (Hsome _ _ Ea) as (y & Hy & Hf). rewrite Hy. cbn [bind].
      split; [congruence|]. intros i' Hi'. inversion Hi'; subst. eauto.
    + rewrite (Hnone _ Ea). split; [reflexivity | discriminate].
  - destruct (- Z.of_nat (length a) <=? j)%Z;
      [|split; [reflexivity | discriminate]].
    destruct (nth_error a (Z.to_nat (Z.of_nat (length a) + j))) as [i|] eqn:Ea.
    + destruct (Hsome _ _ Ea) as (y & Hy & Hf). rewrite Hy. cbn [bind].
      split; [congruence|]. intros i' Hi'. inversion Hi'; subst. eauto.
    + rewrite (Hnone _ Ea). split; [reflexivity | discriminate].
Qed.

Lemma mapM_get_z_compose {A B : Type} (f : A -> result B) (a : list A)
    (kept : list B) (b : list Z) :
  mapM f a = Ok kept ->
  mapM (get_z kept) b = (c <- mapM (get_z a) b ;; mapM f c).
Proof.
  intros E. induction b as [|j b IH]; [reflexivity|].
  cbn [mapM]. destruct (get_z_mapM f a kept j E) as [Hj Hok].
  rewrite Hj, IH.
  destruct (get_z a j) as [i|e]; cbn [bind]; [|reflexivity].
  destruct (Hok i eq_refl) as [y Hy]. rewrite Hy. cbn [bind].
  destruct (mapM (get_z a) b) as [c|e]; cbn [bind mapM].
  - rewrite Hy. reflexivity.
  - reflexivity.
Qed.

(** X17. Pruning twice is pruning once with the composed indices: after
    [prune_sentences(a)], [prune_sentences(b)] keeps the sentences
    [a[i] for i in b] of the original batch, and fails when that list
    does. *)
Theorem prune_sentences_compose (cs : Type)
    (self self1 : @LexicallyConstrainedBeamSearch.state cs)
    (a b : list Z) :
  prune_sentences self a = Ok self1 ->
  prune_sentences self1 b
  = (c <- mapM (get_z a) b ;; prune_sentences self c).
Proof.
  unfold prune_sentences. intros E. bind_inv E as kept Hkept.
  inversion E; subst self1; clear E.
  cbn [LexicallyConstrainedBeamSearch.with_constraint_states
       LexicallyConstrainedBeamSearch.constraint_states].
  rewrite (mapM_get_z_compose _ _ _ b Hkept).
  destruct (mapM (get_z a) b) as [c|e]; cbn [bind]; [|reflexivity].
  destruct (mapM (get_z (LexicallyConstrainedBeamSearch.constraint_states self))
              c) as [k|e]; reflexivity.
Qed.

Lemma prune_sentences_compose_witness :
  prune_sentences
    (LexicallyConstrainedBeamSearch.mkState 0 3 2 5 0
       [[satisfied]; [pending]]) [-1]%Z
  = (c <- mapM (get_z [1; -1]%Z) [-1]%Z ;;
     prune_sentences
       (LexicallyConstrainedBeamSearch.mkState 0 3 2 5 0
          [[pending]; [satisfied]; [pending]]) c).
Proof.
  apply (prune_sentences_compose _
           (LexicallyConstrainedBeamSearch.mkState 0 3 2 5 0
              [[pending]; [satisfied]; [pending]])
           (LexicallyConstrainedBeamSearch.mkState 0 3 2 5 0
              [[satisfied]; [pending]]) [1; -1]%Z [-1]%Z).
  reflexivity.
Defined.

(* ------------------------------------------------------------------ *)
(** ** The decoder input of [_generate] *)

Lemma concat_uniform_length {A : Type} (L : list (list A)) (B : nat) :
  Forall (fun blk => length blk = B) L ->
  length (concat L) = B * length L.
Proof.
  induction 1 as [|blk L Hb _ IH]; cbn [concat length]; [lia|].
  rewrite length_app, IH, Hb. lia.
Qed.

Lemma nth_concat_uniform {A : Type} (L : list (list A)) (B : nat) :
  Forall (fun blk => length blk = B) L ->
  forall i j, j < B ->
    nth_error (concat L) (B * i + j)
    = match nth_error L i with
      | Some blk => nth_error blk j
      | None => None
      end.
Proof.
  induction 1 as [|blk L Hb HL IH]; intros i j Hj.
  - cbn [concat]. destruct i; destruct (B * _ + j); reflexivity.
  - cbn [concat]. destruct i as [|i].
    + rewrite Nat.mul_0_r, Nat.add_0_l. cbn [nth_error].
      apply nth_error_app1. lia.
    + rewrite nth_error_app2 by lia. cbn [nth_error].
      rewrite <- (IH i j Hj). f_equal. lia.
Qed.

Lemma mapM_map_Ok {A B : Type} (f : A -> result B) (g : A -> B)
    (l : list A) :
  (forall x, In x l -> f x = Ok (g x)) -> mapM f l = Ok (map g l).
Proof.
  induction l as [|x l IH]; intros Hall; [reflexivity|].
  cbn [mapM map]. rewrite (Hall x (or_introl eq_refl)). cbn [bind].
  rewrite IH by (intros y Hy; apply Hall; right; exact Hy). reflexivity.
Qed.

Lemma nth_error_indexed {A : Type} (l : list A) (i : nat) :
  nth_error (indexed l) i
  = match nth_error l i with
    | Some x => Some (i, x)
    | None => None
    end.
Proof.
  unfold indexed. rewrite nth_error_combine, nth_error_seq.
  destruct (Nat.ltb_spec i (length l)) as [Hlt|Hge].
  - destruct (nth_error l i); reflexivity.
  - apply nth_error_None in Hge. rewrite Hge. reflexivity.
Qed.

Lemma get_last_last {A : Type} (l : list A) (x d : A) :
  get_last l = Ok x -> last l d = x.
Proof.
  unfold get_last. intros E.
  destruct (rev l) as [|y r] eqn:Er; [discriminate|].
  inversion E; subst y.
  rewrite <- (rev_involutive l), Er. cbn [rev]. apply last_last.
Qed.

Lemma sync_core (B : nat) (beams beams' : list TreeSearch.state) :
  Forall2 (advanced B) beams beams' ->
  next_decoder_input B beams'
    (concat (map TreeSearch.partial_hyps beams))
  = Ok (concat (map TreeSearch.partial_hyps beams')).
Proof.
  intros Hadv.
  pose proof (Forall2_length Hadv) as Hn.
  (* the facts, by position *)
  assert (Hat : forall i b', nth_error beams' i = Some b' ->
                exists b, nth_error beams i = Some b /\ advanced B b b').
  { intros i b' Hb'.
    pose proof (Forall2_nth_error _ _ _ i Hadv) as H. rewrite Hb' in H.
    destruct (nth_error beams i) as [b|]; [|contradiction]. eauto. }
  assert (Hfacts : forall i b', nth_error beams' i = Some b' ->
             get_backtrack_from_current_step b' = Ok (hyps_of b') /\
             get_output_from_current_step b' = Ok (toks_of b') /\
             length (hyps_of b') = B /\ length (toks_of b') = B /\
             length (TreeSearch.partial_hyps b') = B).
  { intros i b' Hb'. destruct (Hat i b' Hb')
      as (b & _ & hyps & toks & Hh & Ht & Lh & Lt & _ & Lp' & _).
    unfold hyps_of, toks_of.
    rewrite (get_last_last _ _ [] Hh), (get_last_last _ _ [] Ht). auto. }
  assert (HP : Forall (fun blk => length blk = B)
                      (map TreeSearch.partial_hyps beams)).
  { apply Forall_forall. intros blk Hblk. apply in_map_iff in Hblk.
    destruct Hblk as (b & <- & Hb). destruct (In_nth_error _ _ Hb) as [i Hi].
    pose proof (Forall2_nth_error _ _ _ i Hadv) as H. rewrite Hi in H.
    destruct (nth_error beams' i) as [b'|]; [|contradiction].
    destruct H as (hyps & toks & _ & _ & _ & _ & Lp & _). exact Lp. }
  assert (HP' : Forall (fun blk => length blk = B)
                       (map TreeSearch.partial_hyps beams')).
  { apply Forall_forall. intros blk Hblk. apply in_map_iff in Hblk.
    destruct Hblk as (b' & <- & Hb'). destruct (In_nth_error _ _ Hb') as [i Hi].
    apply (Hfacts i b' Hi). }
  set (D := concat (map TreeSearch.partial_hyps beams)).
  set (parts := map (fun ib : nat * TreeSearch.state =>
                       map (fun h => B * fst ib + h) (hyps_of (snd ib)))
                    (indexed beams')).
  assert (Hparts : Forall (fun blk => length blk = B) parts).
  { apply Forall_forall. intros blk Hblk. apply in_map_iff in Hblk.
    destruct Hblk as ([i b'] & <- & Hib). apply indexed_spec in Hib.
    rewrite length_map. apply (Hfacts i b' Hib). }
  assert (Htoks : Forall (fun blk => length blk = B) (map toks_of beams')).
  { apply Forall_forall. intros blk Hblk. apply in_map_iff in Hblk.
    destruct Hblk as (b' & <- & Hb'). destruct (In_nth_error _ _ Hb') as [i Hi].
    apply (Hfacts i b' Hi). }
  unfold next_decoder_input.
  assert (E1 : incr_state_inds B beams' = Ok (concat parts)).
  { unfold incr_state_inds, enumerate.
    rewrite (mapM_map_Ok _ (fun ib : nat * TreeSearch.state =>
                              map (fun h => B * fst ib + h)
                                  (hyps_of (snd ib)))).
    - reflexivity.
    - intros [i b'] Hib. apply indexed_spec in Hib. cbn [fst snd].
      destruct (Hfacts i b' Hib) as (Hh & _). rewrite Hh. reflexivity. }
  rewrite E1. cbn [bind].
  assert (E2 : selection_of beams'
               = Ok (map (fun t => [t]) (concat (map toks_of beams')))).
  { unfold selection_of. rewrite (mapM_map_Ok _ toks_of).
    - reflexivity.
    - intros b' Hb'. destruct (In_nth_error _ _ Hb') as [i Hi].
      apply (Hfacts i b' Hi). }
  rewrite E2. cbn [bind].
  (* the entries, by position *)
  assert (Hentry : forall i j b',
             nth_error beams' i = Some b' -> j < B ->
             exists h t ph,
               nth_error (concat parts) (B * i + j) = Some (B * i + h) /\
               nth_error (concat (map toks_of beams')) (B * i + j) = Some t /\
               nth_error D (B * i + h) = Some ph /\
               nth_error (concat (map TreeSearch.partial_hyps beams'))
                         (B * i + j) = Some (ph ++ [t])).
  { intros i j b' Hb' Hj.
    destruct (Hat i b' Hb')
      as (b & Hb & hyps & toks & Hh & Ht & Lh & Lt & Lp & Lp' & Hext).
    assert (Eh : hyps_of b' = hyps) by (apply get_last_last; exact Hh).
    assert (Et : toks_of b' = toks) by (apply get_last_last; exact Ht).
    destruct (nth_error_of_lt hyps j ltac:(lia)) as [h Hhj].
    destruct (nth_error_of_lt toks j ltac:(lia)) as [t Htj].
    destruct (Hext j h t Hhj Htj) as (ph & Hph & Hph').
    assert (HhB : h < B).
    { rewrite <- Lp. apply nth_error_Some. congruence. }
    exists h, t, ph.
    rewrite (nth_concat_uniform parts B Hparts i j Hj).
    rewrite (nth_concat_uniform _ B Htoks i j Hj).
    unfold D. rewrite (nth_concat_uniform _ B HP i h HhB).
    rewrite (nth_concat_uniform _ B HP' i j Hj).
    unfold parts. rewrite !nth_error_map, nth_error_indexed, Hb', Hb.
    cbn [option_map fst snd]. rewrite nth_error_map, Eh, Et, Hhj.
    cbn [option_map]. auto. }
  assert (Ldiv : forall n, n < B * length beams' ->
                 exists i j b', n = B * i + j /\ j < B /\
                                nth_error beams' i = Some b').
  { intros n Hlt. assert (HB : B <> 0) by (intros ->; simpl in Hlt; lia).
    exists (n / B), (n mod B).
    assert (Hi : n / B < length beams').
    { apply Nat.Div0.div_lt_upper_bound. lia. }
    destruct (nth_error_of_lt beams' (n / B) Hi) as [b' Hb'].
    exists b'. split; [apply Nat.div_mod_eq|].
    split; [apply Nat.mod_upper_bound; exact HB | exact Hb']. }
  assert (Lparts : length (concat parts) = B * length beams').
  { rewrite (concat_uniform_length _ B Hparts). unfold parts.
    rewrite length_map, indexed_length. reflexivity. }
  assert (Ltoks : length (concat (map toks_of beams')) = B * length beams').
  { rewrite (concat_uniform_length _ B Htoks), length_map. reflexivity. }
  assert (LP' : length (concat (map TreeSearch.partial_hyps beams'))
                = B * length beams').
  { rewrite (concat_uniform_length _ B HP'), length_map. reflexivity. }
  unfold _get_next_decoder_input, take_at.
  rewrite (mapM_map_Ok _ (fun idx => nth idx D [])).
  2:{ intros idx Hidx. destruct (In_nth_error _ _ Hidx) as [n Hn'].
      assert (Hlt : n < B * length beams').
      { rewrite <- Lparts. apply nth_error_Some. congruence. }
      destruct (Ldiv n Hlt) as (i & j & b' & -> & Hj & Hb').
      destruct (Hentry i j b' Hb' Hj) as (h & t & ph & H1 & _ & H3 & _).
      rewrite H1 in Hn'. inversion Hn'; subst idx.
      unfold get. rewrite H3. f_equal. symmetry.
      apply nth_error_nth. exact H3. }
  cbn [bind]. unfold cat_columns.
  rewrite !length_map, Lparts, Ltoks, Nat.eqb_refl. f_equal.
  apply nth_error_ext. intros n.
  rewrite nth_error_map, nth_error_combine, !nth_error_map.
  destruct (Nat.lt_ge_cases n (B * length beams')) as [Hlt|Hge].
  - destruct (Ldiv n Hlt) as (i & j & b' & -> & Hj & Hb').
    destruct (Hentry i j b' Hb' Hj) as (h & t & ph & H1 & H2 & H3 & H4).
    rewrite H1, H2, H4. cbn [option_map fst snd]. f_equal. f_equal.
    apply nth_error_nth. exact H3.
  - assert (N1 : nth_error (concat parts) n = None)
      by (apply nth_error_None; lia).
    assert (N4 : nth_error (concat (map TreeSearch.partial_hyps beams')) n
                 = None) by (apply nth_error_None; lia).
    rewrite N1, N4. reflexivity.
Qed.

Lemma advanced_of_advance (p : policy) (B : nat) (e : token)
    (b : TreeSearch.state) (lp : matrix) (b' : TreeSearch.state)
    (lp' : matrix) :
  beam_inv B e b ->
  length (TreeSearch.partial_hyps b) = B ->
  (p = Greedy -> B = 1) ->
  well_shaped B lp ->
  TreeSearch.advance (select_of p) b lp = Ok (b', lp') ->
  advanced B b b'.
Proof.
  intros Hinv Lp Hg [Hlen Hrect] E.
  pose proof (advance_preserves_inv p B e b lp b' lp' Hinv Hg Hlen Hrect E)
    as Hinv'.
  destruct (advance_Ok _ _ _ _ _ E) as (sc1 & [[hyps toks] scs] & _ & _ & Hrec).
  destruct (record_step_Ok _ _ _ _ _ Hrec)
    as (_ & _ & _ & _ & _ & _ & _ & Hout & Hbk & _).
  destruct (record_step_partial _ _ _ _ _ Hrec) as [Lp' Hpart].
  destruct Hinv as [Hbeam _ _ _ _ _ _ _ _ _].
  destruct Hinv' as [_ _ _ _ Hor' _ Hbr' _ _ _].
  exists hyps, toks.
  unfold get_backtrack_from_current_step, get_output_from_current_step.
  rewrite Hbk, Hout, !get_last_app.
  assert (Lt : length toks = B).
  { rewrite Forall_forall in Hor'. apply Hor'. rewrite Hout.
    apply in_or_app. right. left. reflexivity. }
  assert (Lh : length hyps = B).
  { rewrite Forall_forall in Hbr'. apply Hbr'. rewrite Hbk.
    apply in_or_app. right. left. reflexivity. }
  repeat split; try assumption; try congruence.
  intros j h t Hh Ht.
  assert (Hj : j < length (TreeSearch.partial_hyps b')).
  { rewrite Lp', Hbeam, <- Lh. apply nth_error_Some. congruence. }
  destruct (nth_error_of_lt _ _ Hj) as [ph' Hph'].
  destruct (Hpart j ph' Hph') as (h0 & ph & t0 & Hh0 & Hph & Ht0 & ->).
  rewrite Hh in Hh0. rewrite Ht in Ht0. inversion Hh0; inversion Ht0; subst.
  exists ph. auto.
Qed.

Lemma run_partial_length
    (sel : TreeSearch.state -> matrix -> list lprob -> Z ->
           result TreeSearch.selection)
    (inputs : list matrix) (st st' : TreeSearch.state) :
  length (TreeSearch.partial_hyps st) = TreeSearch.beam_size st ->
  TreeSearch.advance_all sel st inputs = Ok st' ->
  length (TreeSearch.partial_hyps st') = TreeSearch.beam_size st'.
Proof.
  intros H0 Hrun.
  refine (advance_all_inv
            (fun s => length (TreeSearch.partial_hyps s)
                      = TreeSearch.beam_size s)
            _ inputs _ _ st' H0 Hrun).
  intros s lp s' lp' _ Hs Hadv.
  destruct (advance_Ok _ _ _ _ _ Hadv) as (sc1 & [[hyps toks] scs] & _ & _ & Hrec).
  destruct (record_step_Ok _ _ _ _ _ Hrec) as (Hb & _).
  destruct (record_step_partial _ _ _ _ _ Hrec) as [Hp _].
  congruence.
Qed.

Lemma concat_repeat {A : Type} (blk : list A) (n : nat) (x : A) (B : nat) :
  blk = repeat x B -> concat (repeat blk n) = repeat x (n * B).
Proof.
  intros ->. induction n as [|n IH]; [reflexivity|].
  cbn [repeat concat Nat.mul]. rewrite IH, repeat_app. reflexivity.
Qed.



(* ------------------------------------------------------------------ *)
(** ** The shape of a returned hypothesis *)

(** A chain of backpointers ends in the first row of the outputs. *)
Lemma chain_tokens_last (outs : list (list token)) (bks : list (list nat))
    (t : nat) :
  forall h c,
    chain_tokens outs bks t h = Some c ->
    exists pre row0 h0 b0,
      c = pre ++ [b0] /\ length pre = t /\
      nth_error outs 0 = Some row0 /\ nth_error row0 h0 = Some b0.
Proof.
  induction t as [|t IH]; intros h c E; cbn [chain_tokens] in E.
  - destruct (nth_error outs 0) as [row|] eqn:Er; [|discriminate].
    destruct (nth_error row h) as [tok|] eqn:Et; [|discriminate].
    inversion E; subst c. exists [], row, h, tok. auto.
  - destruct (nth_error outs (S t)) as [row|]; [|discriminate].
    destruct (nth_error row h) as [tok|]; [|discriminate].
    destruct (nth_error bks t) as [bk|]; [|discriminate].
    destruct (nth_error bk h) as [p|]; [|discriminate].
    destruct (chain_tokens outs bks t p) as [rest|] eqn:Erest; [|discriminate].
    inversion E; subst c.
    destruct (IH _ _ Erest) as (pre & row0 & h0 & b0 & -> & Hlen & H0 & Hb0).
    exists (tok :: pre), row0, h0, b0. cbn [app length]. auto.
Qed.

(** The hypothesis of a trace that ends with the end token after the first
    step, in a state of the shape that [advance] keeps. *)
Lemma pretty_of_shape (st : TreeSearch.state) (B : nat) (bos e : token)
    (f : TreeSearch.HypothesisTail lprob) (ps : list token * rscore) :
  length (TreeSearch.all_scores st) = length (TreeSearch.outputs st) ->
  length (TreeSearch.outputs st) = S (length (TreeSearch.bookkeep st)) ->
  Forall (fun row => length row = B) (TreeSearch.outputs st) ->
  Forall (fun row => length row = B) (TreeSearch.all_scores st) ->
  Forall (fun row => length row = B /\ Forall (fun p => p < B) row)
         (TreeSearch.bookkeep st) ->
  TreeSearch.bookkeep st <> [] ->
  nth_error (TreeSearch.outputs st) 0 = Some (repeat bos B) ->
  1 <= TreeSearch.timestep f ->
  get2 (TreeSearch.outputs st) (TreeSearch.timestep f) (TreeSearch.hypid f)
  = Ok e ->
  pretty_of st (TreeSearch.rescore_tail st f) = Ok ps ->
  (exists mid, fst ps = bos :: mid ++ [e]) /\
  length (fst ps) <= length (TreeSearch.outputs st).
Proof.
  intros Hls Hlb Hor Hsr Hbr Hne Hrow0 Hts Hget Hps.
  destruct (get2_row _ _ _ _ B Hor Hget) as [Ht Hh].
  destruct (walk_back_chain st B _ _ Hls Hlb Hor Hsr Hbr Hne Ht Hh)
    as (tails & Hwalk & Hch).
  unfold pretty_of, TreeSearch._get_hyp_from_finished in Hps.
  cbn [TreeSearch.rescore_tail TreeSearch.timestep TreeSearch.hypid] in Hps.
  rewrite Hwalk in Hps. cbn [bind] in Hps. inversion Hps; subst ps; clear Hps.
  cbn [fst]. unfold TreeSearch._get_pretty_hypothesis. rewrite map_rev.
  destruct (chain_tokens_last _ _ _ _ _ Hch)
    as (pre & row0 & h0 & b0 & Hc & Hlen & H0 & Hb0).
  rewrite Hrow0 in H0. inversion H0; subst row0.
  apply nth_error_repeat_Some in Hb0. destruct Hb0 as [-> _].
  rewrite Hc in Hch.
  destruct pre as [|tok pre]; [cbn [length] in Hlen; lia|].
  cbn [app] in Hch. apply chain_tokens_head in Hch.
  rewrite Hget in Hch. inversion Hch; subst tok.
  rewrite Hc. split.
  - exists (rev pre). cbn [app rev]. rewrite rev_app_distr. reflexivity.
  - rewrite length_rev, length_app. cbn [length] in *. lia.
Qed.

(** The first row of the outputs stays, and no trace is recorded for it. *)
Lemma run_first_row
    (sel : TreeSearch.state -> matrix -> list lprob -> Z ->
           result TreeSearch.selection)
    (inputs : list matrix) (st st' : TreeSearch.state) (row0 : list token) :
  nth_error (TreeSearch.outputs st) 0 = Some row0 ->
  Forall (fun f => 1 <= TreeSearch.timestep f) (TreeSearch.finished st) ->
  TreeSearch.advance_all sel st inputs = Ok st' ->
  nth_error (TreeSearch.outputs st') 0 = Some row0 /\
  Forall (fun f => 1 <= TreeSearch.timestep f) (TreeSearch.finished st').
Proof.
  intros H0 Hf Hrun.
  refine (advance_all_inv
            (fun s => nth_error (TreeSearch.outputs s) 0 = Some row0 /\
                      Forall (fun f => 1 <= TreeSearch.timestep f)
                             (TreeSearch.finished s))
            _ inputs _ _ st' (conj H0 Hf) Hrun).
  intros s lp s' lp' _ [Hs0 Hsf] Hadv.
  destruct (advance_Ok _ _ _ _ _ Hadv) as (sc1 & [[hyps toks] scs] & _ & _ & Hrec).
  destruct (record_step_Ok _ _ _ _ _ Hrec)
    as (_ & _ & _ & _ & _ & _ & _ & Hout & _ & (extra & Hfin & Hextra) & _).
  assert (Hlen : 1 <= length (TreeSearch.outputs s)).
  { destruct (TreeSearch.outputs s); [discriminate | simpl; lia]. }
  split.
  - rewrite Hout, nth_error_app1 by lia. exact Hs0.
  - rewrite Hfin. apply Forall_app. split; [exact Hsf|].
    eapply Forall_impl; [|exact Hextra].
    intros f (Hts & _). lia.
Qed.

(** X19. Every hypothesis that [get_rescored_finished] returns after a run
    of a greedy or beam search begins with the start token, ends with the
    end token, and has at most one token per [advance] call after the start
    token. *)
Theorem returned_hypotheses_shape (p : policy) (B : nat) (bn cbn : Z)
    (pad bos e : token) (minl : Z) (lpen : Q) (ctx : option (list token))
    (bl : option (list (Z * list (list token))))
    (st0 st : TreeSearch.state) (inputs : list matrix) (n_best : option Z)
    (st' : TreeSearch.state) (res : list (list token * rscore)) :
  init_of p B bn cbn pad bos e minl lpen = Ok st0 ->
  inputs <> [] ->
  Forall (well_shaped B) inputs ->
  TreeSearch.advance_all (select_of p) (configure st0 ctx bl) inputs = Ok st ->
  TreeSearch.get_rescored_finished st n_best = Ok (st', res) ->
  Forall (fun ps => (exists mid, fst ps = bos :: mid ++ [e]) /\
                    length (fst ps) <= length inputs + 1) res.
Proof.
  intros Hinit Hne Hshape Hrun Hres.
  assert (Hg : (p = Greedy -> B = 1) /\
               st0 = TreeSearch.init B bn cbn pad bos e minl lpen).
  { destruct p; simpl in Hinit.
    - unfold GreedySearch.init in Hinit.
      destruct (Nat.eqb_spec B 1) as [HB|]; [|discriminate].
      inversion Hinit. split; [intros _; exact HB | reflexivity].
    - inversion Hinit. split; [discriminate | reflexivity]. }
  destruct Hg as [Hg ->].
  destruct (advance_all_preserves_inv p B e inputs _ st Hg Hshape
              (beam_inv_fresh B bn cbn pad bos e minl lpen ctx bl) Hrun)
    as [Hinv Hbk].
  specialize (Hbk (or_introl Hne)).
  destruct (advance_all_lengths _ _ _ _ Hrun) as (Hlo & _ & _).
  assert (Hfresh : nth_error
                     (TreeSearch.outputs
                        (configure (TreeSearch.init B bn cbn pad bos e minl
                                      lpen) ctx bl)) 0
                   = Some (repeat bos B) /\
                   TreeSearch.finished
                     (configure (TreeSearch.init B bn cbn pad bos e minl
                                   lpen) ctx bl) = [] /\
                   length (TreeSearch.outputs
                             (configure (TreeSearch.init B bn cbn pad bos e
                                           minl lpen) ctx bl)) = 1).
  { destruct ctx; repeat split; reflexivity. }
  destruct Hfresh as (F0 & Ff & Fl). rewrite Fl in Hlo.
  destruct (run_first_row _ _ _ _ _ F0
              ltac:(rewrite Ff; constructor) Hrun) as [Hrow0 Hts].
  apply get_rescored_finished_Ok in Hres.
  destruct Hres as (Hforce & Hmap & _ & _).
  destruct Hinv as [Hbeam Heos Hls Hlb Hor Hsr Hbr Hsc Hclean Hfin].
  (* the state whose traces are returned *)
  assert (Hst' : length (TreeSearch.all_scores st')
                 = length (TreeSearch.outputs st') /\
                 length (TreeSearch.outputs st')
                 = S (length (TreeSearch.bookkeep st')) /\
                 Forall (fun row => length row = B) (TreeSearch.outputs st') /\
                 Forall (fun row => length row = B) (TreeSearch.all_scores st') /\
                 Forall (fun row => length row = B /\ Forall (fun p => p < B) row)
                        (TreeSearch.bookkeep st') /\
                 TreeSearch.bookkeep st' <> [] /\
                 nth_error (TreeSearch.outputs st') 0 = Some (repeat bos B) /\
                 length (TreeSearch.outputs st') = length inputs + 1 /\
                 Forall (fun f =>
                           1 <= TreeSearch.timestep f /\
                           get2 (TreeSearch.outputs st') (TreeSearch.timestep f)
                                (TreeSearch.hypid f) = Ok e)
                        (TreeSearch.finished st')).
  { destruct (force_finished_Ok _ _ Hforce)
      as (_ & _ & Hall' & Hbk' & Hsame & Hforced).
    destruct (TreeSearch.finished st) as [|f0 fs] eqn:Efin.
    - destruct (Hforced eq_refl)
        as (last & last' & sc & s0 & Hgl & Hset & Hout' & _ & _ & Hfin').
      assert (Hout_ne : TreeSearch.outputs st <> []).
      { intros Hnil. rewrite Hnil in Hlb. discriminate. }
      destruct (set_at_Ok _ _ _ _ Hset) as (_ & Hlen' & H0' & _).
      apply get_last_nth in Hgl.
      assert (Hll : length last = B).
      { rewrite Forall_forall in Hor. apply Hor.
        eapply nth_error_In. exact Hgl. }
      assert (Hbl : 1 <= length (TreeSearch.bookkeep st)).
      { destruct (TreeSearch.bookkeep st); [congruence | simpl; lia]. }
      rewrite Hall', Hbk', Hfin', Hout'.
      rewrite length_removelast_app by exact Hout_ne.
      repeat split; try assumption; try lia.
      + apply Forall_app. split; [|repeat constructor; congruence].
        apply Forall_forall. intros row Hrow. rewrite Forall_forall in Hor.
        apply Hor. rewrite removelast_firstn_len in Hrow.
        eapply In_firstn. exact Hrow.
      + rewrite nth_error_removelast_app by lia. exact Hrow0.
      + constructor; [|constructor].
        cbn [TreeSearch.timestep TreeSearch.hypid]. split; [lia|].
        unfold get2, get.
        rewrite nth_error_removelast_last by exact Hout_ne.
        cbn [bind]. rewrite H0'. rewrite Heos. reflexivity.
    - rewrite (Hsame ltac:(discriminate)), Efin.
      repeat split; try assumption; try lia.
      apply Forall_forall. intros f Hf.
      rewrite Forall_forall in Hts, Hfin.
      split; [apply Hts; exact Hf | apply (Hfin f Hf)]. }
  destruct Hst' as (Hls' & Hlb' & Hor' & Hsr' & Hbr' & Hne' & Hrow0' & Hlo'
                    & Hfin').
  apply Forall_forall. intros ps Hps.
  destruct (mapM_Ok_In _ _ _ Hmap ps Hps) as [hyp [Hhyp Hpretty]].
  assert (Hf : exists f, In f (TreeSearch.finished st') /\
                         hyp = TreeSearch.rescore_tail st' f).
  { unfold TreeSearch.rescored_sorted in Hhyp.
    assert (Hs : In hyp (sort_desc rleb (@TreeSearch.score rscore)
                           (map (TreeSearch.rescore_tail st')
                                (TreeSearch.finished st')))).
    { destruct n_best as [n|]; [|exact Hhyp].
      unfold slice_to in Hhyp.
      destruct (0 <=? n)%Z; eapply In_firstn; exact Hhyp. }
    eapply Permutation_in in Hs;
      [|apply Permutation_sym; apply sort_desc_perm].
    apply in_map_iff in Hs. destruct Hs as [f [Hf' Hin']]. eauto. }
  destruct Hf as (f & Hf & ->).
  rewrite Forall_forall in Hfin'. destruct (Hfin' f Hf) as [Hts' Hget'].
  rewrite <- Hlo'.
  eapply pretty_of_shape; eassumption.
Qed.

Lemma returned_hypotheses_shape_witness :
  Forall (fun ps => (exists mid, fst ps = 1 :: mid ++ [2]) /\
                    length (fst ps) <= 4 + 1)
         [([1; 3; 3; 3; 2],
           RFin (IZR (-2) / length_penalty_of 5 (65 # 100)%Q))].
Proof.
  apply (returned_hypotheses_shape Beam 1 (-1) (-1) 0 1 2 0 (65 # 100)%Q
           None None single_beam finished_beam
           [word_step (-1); word_step (-1); word_step 0; eos_step] None
           finished_beam).
  - reflexivity.
  - discriminate.
  - repeat constructor.
  - vm_compute. reflexivity.
  - reflexivity.
Defined.

(* ------------------------------------------------------------------ *)
(** ** The scores that [_generate] hands to [advance] *)

Lemma mask_pad_column (pad : token) (score score' : list matrix) (lp : matrix) :
  mask_pad pad score = Ok score' -> In lp score' -> column_neginf pad lp.
Proof.
  unfold mask_pad. intros E Hin.
  destruct (mapM_Ok_In _ _ _ E lp Hin) as (m & _ & Hm).
  unfold column_neginf. apply Forall_forall. intros row Hrow.
  destruct (mapM_Ok_In _ _ _ Hm row Hrow) as (row0 & _ & Hset).
  destruct (set_at_Ok _ _ _ _ Hset) as (_ & _ & Hnth & _). exact Hnth.
Qed.

(** The entry that a selection reads. *)
Lemma select_cell (p : policy) (self : TreeSearch.state) (lp : matrix)
    (prior : list lprob) (len : Z) (hyps : list nat) (toks : list token)
    (scs : list lprob) :
  Forall (fun row => length row = vocab_of lp) lp ->
  select_of p self lp prior len = Ok (hyps, toks, scs) ->
  forall i h t s,
    nth_error hyps i = Some h -> nth_error toks i = Some t ->
    nth_error scs i = Some s ->
    exists x, get2 lp h t = Ok x /\ (x = NegInf -> s = NegInf).
Proof.
  intros Hrect E i h t s Hh Ht Hs.
  assert (Hx : exists x, get2 lp h t = Ok x).
  { destruct p; simpl in E.
    - destruct (greedy_select_paths_Ok _ _ _ _ _ _ _ E)
        as (best & Hbest & Hhyps & Htoks & Hadd).
      subst hyps toks. apply nth_error_seq_0 in Hh. destruct Hh as [-> Hlt].
      rewrite nth_error_map in Ht.
      destruct (nth_error best i) as [[j x]|] eqn:Eb; [|discriminate].
      simpl in Ht. inversion Ht; subst j.
      destruct (nth_error_of_lt lp i Hlt) as [row Erow].
      destruct (mapM_Ok_nth _ _ _ Hbest _ _ Erow) as [y [Hy Hmax]].
      rewrite Eb in Hy. inversion Hy; subst y.
      apply row_max_Ok in Hmax. simpl in Hmax.
      exists x. unfold get2, get. rewrite Erow. cbn [bind]. rewrite Hmax.
      reflexivity.
    - pose proof (beam_additive _ _ _ _ _ Hrect E) as Hadd.
      unfold additive in Hadd.
      destruct (Hadd i h t Hh Ht) as (x & q & Hx & _). eauto. }
  destruct Hx as [x Hx]. exists x. split; [exact Hx|].
  intros ->. eapply (select_cell_neginf p); eassumption.
Qed.


Lemma mapM_combine_In {A B : Type} (f : A -> result B) (l : list A)
    (r : list B) :
  mapM f l = Ok r ->
  forall a b, In (a, b) (combine l r) -> f a = Ok b.
Proof.
  revert r. induction l as [|x l IH]; intros r E a b Hin; simpl in E.
  - inversion E; subst. destruct Hin.
  - bind_inv E as y Hy. bind_inv E as r' Hr'. inversion E; subst.
    destruct Hin as [Hin|Hin].
    + inversion Hin; subst. exact Hy.
    + eapply IH; eassumption.
Qed.

Lemma sub_unk_penalty_id (unk : token) (score score' : list matrix) :
  sub_unk_penalty unk score = Ok score' -> score' = score.
Proof.
  unfold sub_unk_penalty.
  assert (Hrow : forall (row row' : list lprob),
             (x <- get row unk ;; set_at row unk x) = Ok row' -> row' = row).
  { intros row row' E. bind_inv E as x Hx. apply get_Ok in Hx.
    destruct (set_at_Ok _ _ _ _ E) as (_ & Hlen & Hnth & Hoth).
    apply nth_error_ext. intros j.
    destruct (Nat.eq_dec j unk) as [->|Hj]; [congruence | apply Hoth, Hj]. }
  assert (Hm : forall (m m' : matrix),
             mapM (fun row => x <- get row unk ;; set_at row unk x) m = Ok m' ->
             m' = m).
  { induction m as [|row m IH]; intros m' E; simpl in E.
    - inversion E. reflexivity.
    - bind_inv E as row' Hr. bind_inv E as m1 Hm1. inversion E.
      rewrite (Hrow _ _ Hr), (IH _ Hm1). reflexivity. }
  revert score'. induction score as [|m score IH]; intros score' E; simpl in E.
  - inversion E. reflexivity.
  - bind_inv E as m' Hm'. bind_inv E as s1 Hs1. inversion E.
    rewrite (Hm _ _ Hm'), (IH _ Hs1). reflexivity.
Qed.

(** What [force_prefix] leaves of a row of a sentence whose prefix token is
    not [NULL_IDX]. *)
Lemma force_prefix_rows (NULL_IDX : token) (prefix_toks : list token)
    (score score' : list matrix) :
  force_prefix NULL_IDX prefix_toks score = Ok score' ->
  forall lp, In lp score' ->
    In lp score \/
    exists ptok m,
      In m score /\ In ptok prefix_toks /\ ptok <> NULL_IDX /\
      forall row, In row lp ->
        exists row0 s,
          In row0 m /\ nth_error row0 ptok = Some s /\
          nth_error row ptok = Some s /\ length row = length row0 /\
          forall t, t <> ptok -> t < length row0 ->
                    nth_error row t = Some NegInf.
Proof.
  unfold force_prefix. intros E lp Hin.
  destruct (length score <? length prefix_toks); [discriminate|].
  bind_inv E as ps Hps.
  destruct (length prefix_toks <? length score); [discriminate|].
  destruct (mapM_Ok_In _ _ _ E lp Hin) as ([[p m] psi] & Hc & Hlp).
  pose proof (in_combine_l _ _ _ _ Hc) as Hpm.
  pose proof (mapM_combine_In _ _ _ Hps _ _ Hc) as Hgather.
  cbn [fst snd] in Hgather.
  pose proof (in_combine_l _ _ _ _ Hpm) as Hp.
  pose proof (in_combine_r _ _ _ _ Hpm) as Hm.
  destruct (Nat.eqb_spec p NULL_IDX) as [Heq|Hne].
  - left. inversion Hlp; subst. exact Hm.
  - right. exists p, m. repeat split; try assumption.
    intros row Hrow.
    destruct (mapM_Ok_In _ _ _ Hlp row Hrow) as ([row0 s] & Hrs & Hset).
    cbn [fst snd] in Hset.
    pose proof (mapM_combine_In _ _ _ Hgather _ _ Hrs) as Hg.
    unfold gather_row in Hg.
    destruct (nth_error row0 p) as [x|] eqn:Ex; [|discriminate].
    inversion Hg; subst x.
    destruct (set_at_Ok _ _ _ _ Hset) as (_ & Hlen & Hnth & Hoth).
    rewrite length_map in Hlen.
    exists row0, s. repeat split; try assumption.
    + eapply in_combine_l. exact Hrs.
    + intros t Ht Hlt. rewrite (Hoth t Ht), nth_error_map.
      destruct (nth_error_of_lt row0 t Hlt) as [y ->]. reflexivity.
Qed.

Lemma force_prefix_column (NULL_IDX pad : token) (prefix_toks : list token)
    (score score' : list matrix) :
  force_prefix NULL_IDX prefix_toks score = Ok score' ->
  Forall (column_neginf pad) score ->
  Forall (column_neginf pad) score'.
Proof.
  intros E Hcol. apply Forall_forall. intros lp Hin.
  rewrite Forall_forall in Hcol.
  destruct (force_prefix_rows _ _ _ _ E lp Hin)
    as [Hold | (ptok & m & Hm & _ & _ & Hrows)]; [apply Hcol, Hold|].
  unfold column_neginf. apply Forall_forall. intros row Hrow.
  destruct (Hrows row Hrow) as (row0 & s & Hr0 & Hs & Hnth & _ & Hoth).
  pose proof (Hcol m Hm) as Hc. unfold column_neginf in Hc.
  rewrite Forall_forall in Hc. pose proof (Hc row0 Hr0) as Hpad.
  destruct (Nat.eq_dec pad ptok) as [->|Hne].
  - congruence.
  - apply Hoth; [exact Hne|]. apply nth_error_Some. congruence.
Qed.

Lemma step_scores_column (pad unk NULL_IDX : token)
    (prefix_toks : option (list token)) (score score' : list matrix) :
  step_scores pad unk NULL_IDX prefix_toks score = Ok score' ->
  Forall (column_neginf pad) score'.
Proof.
  unfold step_scores. intros E.
  bind_inv E as s1 H1. bind_inv E as s2 H2.
  apply sub_unk_penalty_id in H2. subst s2.
  assert (Hcol : Forall (column_neginf pad) s1).
  { apply Forall_forall. intros lp Hin. eapply mask_pad_column; eassumption. }
  destruct prefix_toks as [pt|].
  - eapply force_prefix_column; eassumption.
  - inversion E; subst. exact Hcol.
Qed.

(** X20. On the scores that a time step of [_generate] prepares, with or
    without prefix tokens, a slot of a greedy or beam search that takes the
    padding token in [advance] has the score minus infinity: the padding
    token is never selected with a finite score. *)
Theorem pad_never_selected (p : policy) (pad unk NULL_IDX : token)
    (prefix_toks : option (list token))
    (score score' : list matrix) (logprobs : matrix)
    (self self' : TreeSearch.state) (logprobs' : matrix) :
  step_scores pad unk NULL_IDX prefix_toks score = Ok score' ->
  In logprobs score' ->
  Forall (fun row => length row = vocab_of logprobs) logprobs ->
  TreeSearch.advance (select_of p) self logprobs = Ok (self', logprobs') ->
  exists tok_ids new_scores,
    TreeSearch.outputs self' = TreeSearch.outputs self ++ [tok_ids] /\
    TreeSearch.all_scores self' = TreeSearch.all_scores self ++ [new_scores] /\
    forall i s, nth_error tok_ids i = Some pad ->
                nth_error new_scores i = Some s -> s = NegInf.
Proof.
  intros Hmask Hin Hrect E.
  destruct (advance_Ok _ _ _ _ _ E) as (sc1 & [[hyps toks] scs] & Hprep & Hsel & Hrec).
  pose proof (prepare_masked _ _ _ _ Hprep) as Hm.
  destruct (record_step_Ok _ _ _ _ _ Hrec)
    as (_ & _ & _ & _ & _ & _ & Hall & Hout & _).
  exists toks, scs. split; [exact Hout|]. split; [exact Hall|].
  eapply (select_eos_neginf p); [| |exact Hsel].
  - rewrite (masked_from_vocab _ _ Hm). eapply masked_from_rect; eassumption.
  - eapply masked_from_column; [exact Hm|].
    pose proof (step_scores_column _ _ _ _ _ _ Hmask) as Hcol.
    rewrite Forall_forall in Hcol. apply Hcol, Hin.
Qed.

Lemma pad_never_selected_witness :
  exists self' logprobs' tok_ids new_scores,
    TreeSearch.advance (select_of Beam) plain_beam
      [[NegInf; Fin (-2); Fin (-3); Fin (-4)]] = Ok (self', logprobs') /\
    TreeSearch.outputs self' = TreeSearch.outputs plain_beam ++ [tok_ids] /\
    TreeSearch.all_scores self'
    = TreeSearch.all_scores plain_beam ++ [new_scores] /\
    forall i s, nth_error tok_ids i = Some 0 ->
                nth_error new_scores i = Some s -> s = NegInf.
Proof.
  destruct (TreeSearch.advance (select_of Beam) plain_beam
              [[NegInf; Fin (-2); Fin (-3); Fin (-4)]])
    as [[self' logprobs']|err] eqn:E; [|vm_compute in E; discriminate].
  exists self', logprobs'.
  destruct (pad_never_selected Beam 0 3 0 None
              [[[Fin (-1); Fin (-2); Fin (-3); Fin (-4)]]]
              [[[NegInf; Fin (-2); Fin (-3); Fin (-4)]]]
              [[NegInf; Fin (-2); Fin (-3); Fin (-4)]]
              plain_beam self' logprobs') as (t & s & H).
  - reflexivity.
  - left. reflexivity.
  - repeat constructor.
  - exact E.
  - exists t, s. split; [reflexivity | exact H].
Defined.

(** ** Prefix tokens *)

Lemma force_prefix_row (NULL_IDX : token) (prefix_toks : list token)
    (score score' : list matrix) (i : nat) (ptok : token) (lp : matrix) :
  force_prefix NULL_IDX prefix_toks score = Ok score' ->
  nth_error prefix_toks i = Some ptok ->
  nth_error score' i = Some lp ->
  ptok <> NULL_IDX ->
  forall r t x, get2 lp r t = Ok x -> x <> NegInf -> t = ptok.
Proof.
  unfold force_prefix. intros E Hp Hlp Hne r t x Hget Hx.
  destruct (Nat.ltb_spec (length score) (length prefix_toks)) as [|Hl1];
    [discriminate|].
  bind_inv E as ps Hps.
  destruct (Nat.ltb_spec (length prefix_toks) (length score)) as [|Hl2];
    [discriminate|].
  assert (Hi : i < length score).
  { assert (i < length prefix_toks) by (apply nth_error_Some; congruence).
    lia. }
  destruct (nth_error_of_lt score i Hi) as [m Hm].
  assert (Hc : nth_error (combine prefix_toks score) i = Some (ptok, m)).
  { rewrite nth_error_combine, Hp, Hm. reflexivity. }
  destruct (mapM_Ok_nth _ _ _ Hps _ _ Hc) as (psi & Hpsi & _).
  assert (Hc' : nth_error (combine (combine prefix_toks score) ps) i
                = Some (ptok, m, psi)).
  { rewrite nth_error_combine, Hc, Hpsi. reflexivity. }
  destruct (mapM_Ok_nth _ _ _ E _ _ Hc') as (lp0 & Hlp0 & Hrows).
  rewrite Hlp in Hlp0. inversion Hlp0; subst lp0. cbn beta iota in Hrows.
  destruct (Nat.eqb_spec ptok NULL_IDX) as [|_]; [congruence|].
  unfold get2 in Hget. bind_inv Hget as row Hrow. apply get_Ok in Hrow, Hget.
  destruct (mapM_Ok_In _ _ _ Hrows row (nth_error_In _ _ Hrow))
    as ([row0 s] & _ & Hset).
  cbn [fst snd] in Hset.
  destruct (set_at_Ok _ _ _ _ Hset) as (_ & _ & _ & Hoth).
  destruct (Nat.eq_dec t ptok) as [Heq|Hneq]; [exact Heq|].
  exfalso. rewrite (Hoth t Hneq), nth_error_map in Hget.
  destruct (nth_error row0 t); [|discriminate].
  simpl in Hget. inversion Hget. unfold neginf in *. congruence.
Qed.

Lemma select_hyps_length (p : policy) (self : TreeSearch.state) (lp : matrix)
    (prior : list lprob) (len : Z) (hyps : list nat) (toks : list token)
    (scs : list lprob) :
  Forall (fun row => length row = vocab_of lp) lp ->
  select_of p self lp prior len = Ok (hyps, toks, scs) ->
  length hyps = length toks.
Proof.
  intros Hrect E. destruct p; simpl in E.
  - destruct (greedy_select_paths_Ok _ _ _ _ _ _ _ E)
      as (best & Hbest & -> & -> & _).
    pose proof (mapM_Ok_length _ _ _ Hbest) as Hl.
    rewrite length_seq, length_map. lia.
  - destruct (beam_select_paths_sound _ _ _ _ _ Hrect E)
      as (idxs & scs' & Hres & _).
    inversion Hres. rewrite !length_map. reflexivity.
Qed.

(** X21. When a prefix token other than [NULL_IDX] is forced for a
    sentence at a time step of [_generate], every slot of the sentence's beam
    that gets a finite score in [advance], under the greedy or the beam
    policy, gets the prefix token. *)
Theorem prefix_token_is_forced (p : policy) (pad unk NULL_IDX : token)
    (prefix_toks : list token) (score score' : list matrix) (i : nat)
    (ptok : token) (logprobs : matrix) (self self' : TreeSearch.state)
    (logprobs' : matrix) :
  step_scores pad unk NULL_IDX (Some prefix_toks) score = Ok score' ->
  nth_error prefix_toks i = Some ptok ->
  nth_error score' i = Some logprobs ->
  ptok <> NULL_IDX ->
  Forall (fun row => length row = vocab_of logprobs) logprobs ->
  TreeSearch.advance (select_of p) self logprobs = Ok (self', logprobs') ->
  exists tok_ids new_scores,
    TreeSearch.outputs self' = TreeSearch.outputs self ++ [tok_ids] /\
    TreeSearch.all_scores self' = TreeSearch.all_scores self ++ [new_scores] /\
    forall j t s, nth_error tok_ids j = Some t ->
                  nth_error new_scores j = Some s ->
                  s <> NegInf -> t = ptok.
Proof.
  intros Hstep Hp Hlp Hne Hrect E.
  unfold step_scores in Hstep.
  bind_inv Hstep as s1 H1. bind_inv Hstep as s2 H2. clear H1 H2.
  destruct (advance_parts _ _ _ _ _ Hrect E)
    as (lp0 & sc1 & hyps & toks & scs & _ & _ & Hrect' & Hsel & _
        & _ & Hout & Hall).
  destruct (advance_Ok _ _ _ _ _ E) as (sc1' & res' & Hprep & _ & _).
  pose proof (prepare_masked _ _ _ _ Hprep) as Hm.
  exists toks, scs. split; [exact Hout|]. split; [exact Hall|].
  intros j t s Ht Hs Hfin.
  assert (Hj : j < length hyps).
  { rewrite (select_hyps_length _ _ _ _ _ _ _ _ Hrect' Hsel).
    apply nth_error_Some. congruence. }
  destruct (nth_error_of_lt hyps j Hj) as [h Hh].
  destruct (select_cell _ _ _ _ _ _ _ _ Hrect' Hsel j h t s Hh Ht Hs)
    as (x & Hx & Hinf).
  assert (Hxfin : x <> NegInf) by (intros Hc; apply Hfin, Hinf, Hc).
  destruct (masked_from_entry _ _ _ _ _ Hm Hx) as [Hc|Hc]; [contradiction|].
  eapply force_prefix_row; eassumption.
Qed.

Lemma prefix_token_is_forced_witness :
  exists self' logprobs' tok_ids new_scores,
    TreeSearch.advance (select_of Beam) plain_beam
      [[NegInf; NegInf; NegInf; Fin (-4)]] = Ok (self', logprobs') /\
    TreeSearch.outputs self' = TreeSearch.outputs plain_beam ++ [tok_ids] /\
    TreeSearch.all_scores self'
    = TreeSearch.all_scores plain_beam ++ [new_scores] /\
    forall j t s, nth_error tok_ids j = Some t ->
                  nth_error new_scores j = Some s ->
                  s <> NegInf -> t = 3.
Proof.
  destruct (TreeSearch.advance (select_of Beam) plain_beam
              [[NegInf; NegInf; NegInf; Fin (-4)]])
    as [[self' logprobs']|err] eqn:E; [|vm_compute in E; discriminate].
  exists self', logprobs'.
  destruct (prefix_token_is_forced Beam 0 3 0 [3]
              [[[Fin (-1); Fin (-2); Fin (-3); Fin (-4)]]]
              [[[NegInf; NegInf; NegInf; Fin (-4)]]] 0 3
              [[NegInf; NegInf; NegInf; Fin (-4)]]
              plain_beam self' logprobs') as (t & s & H).
  - reflexivity.
  - reflexivity.
  - reflexivity.
  - discriminate.
  - repeat constructor.
  - exact E.
  - exists t, s. split; [reflexivity | exact H].
Defined.
